(** * Tetris engine of [src/components/tetris-game.tsx]

    A shallow embedding of the game-state engine of the React component
    [TetrisGame]: the JavaScript arrays it works on, the piece catalog,
    [checkCollision], [rotate], [updateBoard], [newTetromino], [gameLoop],
    [startGame] and the [keydown] handler, followed by the properties of
    the engine.

    Modelling conventions.
    - JavaScript numbers that the engine uses are integers (coordinates,
      counters, the score): they are modelled by [Z].  Timestamps are only
      added, subtracted and compared; they are modelled by [Z] as well.
    - A JavaScript array is a [list value].  An absent slot of a sparse
      array is the pseudo-value [Hole]: it reads as [Undefined] and is
      skipped by [forEach] and [every].
    - The component keeps every piece of React state twice: in a state cell
      and in a ref that an effect refreshes after each render.  A handler
      reads the refs (the state committed by the last render) and queues
      updates that the next render applies.  So every handler is a function
      of the committed state, and inside one handler a read through a ref
      still sees the value from before the handler started.  The model
      takes a render to be committed between any two handlers, and every
      queued updater to run once. *)

From Stdlib Require Import ZArith Lia Bool.
From stdpp Require Import base list strings.
From Equations Require Import Equations.

Open Scope Z_scope.

(** ** JavaScript values and arrays *)

Inductive value : Type :=
  | Num (n : Z)
  | Str (s : string)
  | Undefined
  | Hole.

#[global] Instance value_eq_dec : EqDecision value.
Proof. solve_decision. Defined.

(** What an element access yields for the content of a slot. *)
Definition read (v : value) : value :=
  match v with
  | Hole => Undefined
  | _ => v
  end.

(** [a[i]]: out of range reads give [undefined]. *)
Definition js_get (a : list value) (i : Z) : value :=
  if i <? 0 then Undefined
  else match a !! Z.to_nat i with
       | Some v => read v
       | None => Undefined
       end.

(** [a[i] = v]: a negative index sets a property that is no element, an
    index past the end extends the array with absent slots. *)
Definition js_set (a : list value) (i : Z) (v : value) : list value :=
  if i <? 0 then a
  else if i <? Z.of_nat (length a) then <[Z.to_nat i := v]> a
  else a ++ replicate (Z.to_nat i - length a)%nat Hole ++ [v].

(** [v !== 0] *)
Definition neq0 (v : value) : bool :=
  match read v with
  | Num 0 => false
  | _ => true
  end.

(** [row.every((block) => block !== 0)]; [every] skips absent slots, on
    which [neq0] is [true] already. *)
Definition every_neq0 (row : list value) : bool := forallb neq0 row.

(** [[...row]]: the spread copy turns absent slots into [undefined]. *)
Definition spread (row : list value) : list value := map read row.

(** ** Constants, catalog and board *)

Definition BOARD_WIDTH : Z := 10.
Definition BOARD_HEIGHT : Z := 20.

(** [number[][]] and [(string | 0)[][]]: arrays of arrays. *)
Abbreviation Matrix := (list (list value)).
Abbreviation Board := (list (list value)).

Record Tetromino : Type := mkTetromino {
  shape : Matrix;
  color : string
}.

(** The keys of [TETROMINOES]; the source's one-letter names [I], [O], [S]
    and [Z] are taken in Rocq, hence the prefix. *)
Inductive TetrominoKey : Type := KI | KJ | KL | KO | KS | KT | KZ.

Definition grid (rows : list (list Z)) : Matrix := map (map Num) rows.

Definition TETROMINOES (k : TetrominoKey) : Tetromino :=
  match k with
  | KI => mkTetromino (grid [[0;0;0;0]; [1;1;1;1]; [0;0;0;0]; [0;0;0;0]]) "cyan"
  | KJ => mkTetromino (grid [[1;0;0]; [1;1;1]; [0;0;0]]) "blue"
  | KL => mkTetromino (grid [[0;0;1]; [1;1;1]; [0;0;0]]) "orange"
  | KO => mkTetromino (grid [[1;1]; [1;1]]) "yellow"
  | KS => mkTetromino (grid [[0;1;1]; [1;1;0]; [0;0;0]]) "green"
  | KT => mkTetromino (grid [[0;1;0]; [1;1;1]; [0;0;0]]) "purple"
  | KZ => mkTetromino (grid [[1;1;0]; [0;1;1]; [0;0;0]]) "red"
  end.

Definition emptyRow : list value := replicate (Z.to_nat BOARD_WIDTH) (Num 0).

Definition createBoard : Board := replicate (Z.to_nat BOARD_HEIGHT) emptyRow.

(** ** checkCollision *)

Record Pos : Type := mkPos { px : Z; py : Z }.

(** The three tests made for an occupied cell that lands on
    [(boardX, boardY)]. *)
Definition cellCollides (board : Board) (boardX boardY : Z) : bool :=
  if (boardX <? 0) || (boardX >=? BOARD_WIDTH) then true
  else if boardY >=? BOARD_HEIGHT then true
  else if (boardY >=? 0)
          && match board !! Z.to_nat boardY with
             | Some r => neq0 (js_get r boardX)
             | None => false
             end
  then true
  else false.

(** The inner loop, from column [col] on, over the rest of the row. *)
Fixpoint checkRow (cells : list value) (board : Board) (p : Pos) (row col : Z) : bool :=
  match cells with
  | [] => false
  | v :: rest =>
      if neq0 v && cellCollides board (px p + col) (py p + row) then true
      else checkRow rest board p row (col + 1)
  end.

(** The outer loop, from row [row] on, over the rest of the rows. *)
Fixpoint checkRows (rows : Matrix) (board : Board) (p : Pos) (row : Z) : bool :=
  match rows with
  | [] => false
  | cells :: rest =>
      if checkRow cells board p row 0 then true
      else checkRows rest board p (row + 1)
  end.

Definition checkCollision (tetromino : Matrix) (board : Board) (p : Pos) : bool :=
  checkRows tetromino board p 0.

(** ** rotate, on array values

    [rotate] works in place.  This first model follows the content of a
    matrix whose rows are pairwise distinct arrays (as for the fresh copy
    that the key handler passes); the model on a store, with aliasing, is
    [Store.rotate] below, and [rotate_sim] shows that the two agree on
    such a matrix. *)

(** [[matrix[x][y], matrix[y][x]] = [matrix[y][x], matrix[x][y]]]: the
    right-hand side is read first, then the two assignments are made in
    order. *)
Definition swapCells (matrix : Matrix) (x y : nat) : Matrix :=
  match matrix !! x, matrix !! y with
  | Some rx, Some ry =>
      let a := js_get ry (Z.of_nat x) in
      let b := js_get rx (Z.of_nat y) in
      let m1 := <[x := js_set rx (Z.of_nat y) a]> matrix in
      match m1 !! y with
      | Some ry1 => <[y := js_set ry1 (Z.of_nat x) b]> m1
      | None => m1
      end
  | _, _ => matrix
  end.

(** [for (let x = 0; x < y; x++) swap] *)
Definition transposeRow (matrix : Matrix) (y : nat) : Matrix :=
  foldl (fun m x => swapCells m x y) matrix (seq 0 y).

(** [for (let y = 0; y < matrix.length; y++) ...] *)
Definition transpose (matrix : Matrix) : Matrix :=
  foldl transposeRow matrix (seq 0 (length matrix)).

Definition rotate (matrix : Matrix) (dir : Z) : Matrix :=
  let t := transpose matrix in
  if dir >? 0 then map (@reverse value) t else reverse t.

(** ** updateBoard *)

(** [newBoard[boardY][boardX] = c]; [None] is the [TypeError] of an
    assignment into [undefined], when there is no row [boardY]. *)
Definition writeCell (newBoard : Board) (boardY boardX : Z) (c : value) : option Board :=
  if boardY <? 0 then None
  else match newBoard !! Z.to_nat boardY with
       | Some r => Some (<[Z.to_nat boardY := js_set r boardX c]> newBoard)
       | None => None
       end.

(** [row.forEach((block, x) => ...)], from column [x] on; [forEach] skips
    absent slots. *)
Fixpoint writeRow (cells : list value) (c : string) (newPos : Pos) (y x : Z)
    (newBoard : Board) : option Board :=
  match cells with
  | [] => Some newBoard
  | Hole :: rest => writeRow rest c newPos y (x + 1) newBoard
  | block :: rest =>
      if neq0 block then
        match writeCell newBoard (py newPos + y) (px newPos + x) (Str c) with
        | Some b => writeRow rest c newPos y (x + 1) b
        | None => None
        end
      else writeRow rest c newPos y (x + 1) newBoard
  end.

(** [newTetromino.shape.forEach((row, y) => ...)], from row [y] on. *)
Fixpoint writeRows (rows : Matrix) (c : string) (newPos : Pos) (y : Z)
    (newBoard : Board) : option Board :=
  match rows with
  | [] => Some newBoard
  | cells :: rest =>
      match writeRow cells c newPos y 0 newBoard with
      | Some b => writeRows rest c newPos (y + 1) b
      | None => None
      end
  end.

(** The copy of the previous board with the cells of the piece written. *)
Definition writePiece (newTetromino : Tetromino) (newPos : Pos) (prevBoard : Board) : option Board :=
  writeRows (shape newTetromino) (color newTetromino) newPos 0 (map spread prevBoard).

(** The number of full rows of a board. *)
Definition countFull (b : Board) : nat := length (filter (fun r => every_neq0 r = true) b).

(** [newBoard.splice(y, 1); newBoard.unshift(Array(BOARD_WIDTH).fill(0))] *)
Definition spliceUnshift (newBoard : Board) (y : nat) : Board :=
  emptyRow :: delete y newBoard.

Lemma countFull_cons (r : list value) (b : Board) :
  countFull (r :: b) = ((if every_neq0 r then 1 else 0) + countFull b)%nat.
Proof.
  unfold countFull. rewrite filter_cons.
  destruct (every_neq0 r); destruct (decide _); simpl; congruence.
Qed.

Lemma countFull_delete (b : Board) (i : nat) (r : list value) :
  b !! i = Some r -> every_neq0 r = true ->
  S (countFull (delete i b)) = countFull b.
Proof.
  revert i. induction b as [|r0 b IH]; intros [|i] Hl Hr; try done.
  - injection Hl as ->. change (delete 0%nat (r :: b)) with b.
    rewrite countFull_cons, Hr. done.
  - change (delete (S i) (r0 :: b)) with (r0 :: delete i b).
    rewrite !countFull_cons. rewrite <- (IH i Hl Hr). lia.
Qed.

Lemma countFull_spliceUnshift (b : Board) (i : nat) (r : list value) :
  b !! i = Some r -> every_neq0 r = true ->
  S (countFull (spliceUnshift b i)) = countFull b.
Proof.
  intros Hl Hr. rewrite <- (countFull_delete b i r Hl Hr).
  unfold spliceUnshift. rewrite countFull_cons. done.
Qed.

(** A value together with the equation that names it, to keep the tests of
    the loop in scope of its termination proof. *)
Definition inspect {A : Type} (a : A) : {b : A | a = b} := exist _ a eq_refl.

(** The line-clear loop, entered with loop variable [y]:
    [for (...; y >= 0; y--) if (newBoard[y].every(...)) { splice; unshift;
    linesCleared++; y++ }].  After a clear, [y++] and the loop's [y--]
    leave [y] where it is.  [None] is the [TypeError] of [undefined.every],
    when there is no row [y]. *)
Equations? clearLoop (newBoard : Board) (y : Z) (linesCleared : Z) : option (Board * Z)
  by wf (countFull newBoard + Z.to_nat (y + 1))%nat lt :=
clearLoop newBoard y linesCleared with Z_lt_dec y 0 := {
  | left _ => Some (newBoard, linesCleared)
  | right _ with inspect (newBoard !! Z.to_nat y) := {
    | exist _ None _ => None
    | exist _ (Some r) _ with inspect (every_neq0 r) := {
      | exist _ true _ =>
          clearLoop (spliceUnshift newBoard (Z.to_nat y)) (y + 1 - 1) (linesCleared + 1)
      | exist _ false _ => clearLoop newBoard (y - 1) linesCleared
      }
    }
  }.
Proof.
  - pose proof (countFull_spliceUnshift newBoard (Z.to_nat y) r) as H.
    replace (y + 1 - 1 + 1) with (y + 1) by lia.
    lapply H; [intros H1; lapply H1; [lia|done]|done].
  - lia.
Qed.

(** The body of the updater passed to [setBoard]: the new board and
    [linesCleared]. *)
Definition lockLines (newTetromino : Tetromino) (newPos : Pos) (prevBoard : Board)
    : option (Board * Z) :=
  match writePiece newTetromino newPos prevBoard with
  | Some newBoard => clearLoop newBoard (BOARD_HEIGHT - 1) 0
  | None => None
  end.

(** ** The component's state *)

Record State : Type := mkState {
  board : Board;
  currentTetromino : option Tetromino;
  currentPos : Pos;
  score : Z;
  gameOver : bool;
  gameStarted : bool;
  dropTime : Z;   (* dropTimeRef *)
  lastTime : Z    (* lastTimeRef *)
}.

(** The state of the first render. *)
Definition initialState : State :=
  mkState createBoard None (mkPos 0 0) 0 false false 0 0.

Definition setBoard (b : Board) (s : State) : State :=
  mkState b (currentTetromino s) (currentPos s) (score s) (gameOver s) (gameStarted s)
          (dropTime s) (lastTime s).
Definition setCurrentTetromino (t : option Tetromino) (s : State) : State :=
  mkState (board s) t (currentPos s) (score s) (gameOver s) (gameStarted s)
          (dropTime s) (lastTime s).
Definition setCurrentPos (p : Pos) (s : State) : State :=
  mkState (board s) (currentTetromino s) p (score s) (gameOver s) (gameStarted s)
          (dropTime s) (lastTime s).
Definition setScore (n : Z) (s : State) : State :=
  mkState (board s) (currentTetromino s) (currentPos s) n (gameOver s) (gameStarted s)
          (dropTime s) (lastTime s).
Definition setGameOver (b : bool) (s : State) : State :=
  mkState (board s) (currentTetromino s) (currentPos s) (score s) b (gameStarted s)
          (dropTime s) (lastTime s).
Definition setGameStarted (b : bool) (s : State) : State :=
  mkState (board s) (currentTetromino s) (currentPos s) (score s) (gameOver s) b
          (dropTime s) (lastTime s).
Definition setDropTime (t : Z) (s : State) : State :=
  mkState (board s) (currentTetromino s) (currentPos s) (score s) (gameOver s) (gameStarted s)
          t (lastTime s).
Definition setLastTime (t : Z) (s : State) : State :=
  mkState (board s) (currentTetromino s) (currentPos s) (score s) (gameOver s) (gameStarted s)
          (dropTime s) t.

(** What a handler can come to: a next state, an uncaught [TypeError], or
    a loop that the given fuel did not see the end of. *)
Inductive outcome : Type :=
  | Done (s : State)
  | Throws
  | OutOfFuel.

(** [updateBoard] queues an updater on the board; the updater bumps the
    score itself.  [st] is the state with the updates queued so far. *)
Definition updateBoard (newTetromino : Tetromino) (newPos : Pos) (st : State) : option State :=
  match lockLines newTetromino newPos (board st) with
  | Some (newBoard, linesCleared) =>
      Some (setBoard newBoard
              (if linesCleared >? 0 then setScore (score st + linesCleared * 100) st else st))
  | None => None
  end.

(** [Math.floor(BOARD_WIDTH / 2) - Math.floor(tetromino.shape[0].length / 2)];
    every catalog shape has a row 0. *)
Definition startX (tetromino : Tetromino) : Z :=
  BOARD_WIDTH / 2 - Z.of_nat (length (default [] (shape tetromino !! 0%nat))) / 2.

Definition startY : Z := 0.

(** [newTetromino]; [type] is what [getRandomTetromino] returns for this
    call.  The collision test reads [boardRef.current], the board of the
    committed state [refs]; the updates are queued on [st]. *)
Definition newTetromino (type : TetrominoKey) (refs st : State) : State :=
  let tetromino := TETROMINOES type in
  if checkCollision (shape tetromino) (board refs) (mkPos (startX tetromino) startY)
  then setGameStarted false (setGameOver true st)
  else setCurrentPos (mkPos (startX tetromino) startY)
         (setCurrentTetromino (Some tetromino) st).

(** The two calls [updateBoard(currentTetrominoRef.current,
    currentPosRef.current); newTetromino()], as they stand in [gameLoop]
    and in the key handler. *)
Definition lockAndSpawn (type : TetrominoKey) (refs st : State) (t : Tetromino) : outcome :=
  match updateBoard t (currentPos refs) st with
  | Some st' => Done (newTetromino type refs st')
  | None => Throws
  end.

(** ** gameLoop *)

Definition dropInterval : Z := 1000.

Definition gameLoop (time : Z) (type : TetrominoKey) (s : State) : outcome :=
  if negb (gameStarted s) || gameOver s then Done s
  else
    let last := if lastTime s =? 0 then time else lastTime s in
    let deltaTime := time - last in
    let s1 := setDropTime (dropTime s + deltaTime) (setLastTime time s) in
    if dropTime s1 >? dropInterval then
      let s2 := setDropTime 0 s1 in
      match currentTetromino s with
      | Some t =>
          let newY := py (currentPos s) + 1 in
          if negb (checkCollision (shape t) (board s) (mkPos (px (currentPos s)) newY))
          then Done (setCurrentPos (mkPos (px (currentPos s2)) newY) s2)
          else lockAndSpawn type s s2 t
      | None => Done s2
      end
    else Done s1.

(** ** startGame *)

Definition startGame (type : TetrominoKey) (s : State) : State :=
  let st := setGameStarted true (setGameOver false (setScore 0 (setBoard createBoard s))) in
  let st := newTetromino type s st in
  setDropTime 0 (setLastTime 0 st).

(** ** The key handler *)

Inductive Key : Type := ArrowLeft | ArrowRight | ArrowDown | ArrowUp | Space | OtherKey.

#[global] Instance Key_eq_dec : EqDecision Key.
Proof. solve_decision. Defined.

(** [while (!checkCollision(shape, board, {x, y: dropY + 1})) dropY++] *)
Fixpoint dropLoop (fuel : nat) (sh : Matrix) (b : Board) (x dropY : Z) : option Z :=
  match fuel with
  | O => None
  | S fuel' =>
      if negb (checkCollision sh b (mkPos x (dropY + 1)))
      then dropLoop fuel' sh b x (dropY + 1)
      else Some dropY
  end.

Definition handleKeyDown (fuel : nat) (e : Key) (type : TetrominoKey) (s : State) : outcome :=
  if negb (gameStarted s) || gameOver s then Done s
  else match currentTetromino s with
  | None => Done s
  | Some t =>
      match e with
      | Space =>
          match dropLoop fuel (shape t) (board s) (px (currentPos s)) (py (currentPos s)) with
          | Some dropY => Done (setCurrentPos (mkPos (px (currentPos s)) dropY) s)
          | None => OutOfFuel
          end
      | _ =>
          let newX := match e with
                      | ArrowLeft => px (currentPos s) - 1
                      | ArrowRight => px (currentPos s) + 1
                      | _ => px (currentPos s)
                      end in
          let newY := match e with
                      | ArrowDown => py (currentPos s) + 1
                      | _ => py (currentPos s)
                      end in
          let newShape := match e with
                          | ArrowUp => rotate (map spread (shape t)) 1
                          | _ => shape t
                          end in
          if negb (checkCollision newShape (board s) (mkPos newX newY))
          then Done (setCurrentTetromino (Some (mkTetromino newShape (color t)))
                       (setCurrentPos (mkPos newX newY) s))
          else if decide (e = ArrowDown) then lockAndSpawn type s s t
          else Done s
      end
  end.

(** ** Events *)

(** What reaches the engine: a click on the start button, a key, an
    animation frame.  Each carries the piece that [getRandomTetromino]
    yields if the handler asks for one. *)
Inductive Event : Type :=
  | Start (type : TetrominoKey)
  | KeyDown (e : Key) (type : TetrominoKey)
  | Frame (time : Z) (type : TetrominoKey).

(** The start button is [disabled] while [gameStarted && !gameOver]. *)
Definition step (fuel : nat) (ev : Event) (s : State) : outcome :=
  match ev with
  | Start type =>
      if gameStarted s && negb (gameOver s) then Done s else Done (startGame type s)
  | KeyDown e type => handleKeyDown fuel e type s
  | Frame time type => gameLoop time type s
  end.

Fixpoint run (fuel : nat) (evs : list Event) (s : State) : outcome :=
  match evs with
  | [] => Done s
  | ev :: rest =>
      match step fuel ev s with
      | Done s' => run fuel rest s'
      | o => o
      end
  end.

Definition isStart (ev : Event) : bool :=
  match ev with
  | Start _ => true
  | _ => false
  end.

(** The states that some run of events reaches from the first render. *)
Definition reachable (s : State) : Prop :=
  exists fuel evs, run fuel evs initialState = Done s.

(** ** draw *)

Definition BLOCK_SIZE : Z := 30.

(** What [draw] asks of the canvas context, in order. *)
Inductive DrawCmd : Type :=
  | ClearRect (x y w h : Z)
  | SetFillStyle (v : value)
  | FillRect (x y w h : Z)
  | SetStrokeStyle (c : string)
  | StrokeRect (x y w h : Z).

(** The four calls made for a block at column [x], row [y] of the canvas
    grid, filled with [style]. *)
Definition drawBlock (style : value) (x y : Z) : list DrawCmd :=
  [SetFillStyle style;
   FillRect (x * BLOCK_SIZE) (y * BLOCK_SIZE) BLOCK_SIZE BLOCK_SIZE;
   SetStrokeStyle "black";
   StrokeRect (x * BLOCK_SIZE) (y * BLOCK_SIZE) BLOCK_SIZE BLOCK_SIZE].

(** [row.forEach((block, x) => ...)] over a board row, from column [x] on:
    a block that is not [0] is filled with its own value. *)
Fixpoint drawBoardRow (cells : list value) (y x : Z) : list DrawCmd :=
  match cells with
  | [] => []
  | Hole :: rest => drawBoardRow rest y (x + 1)
  | block :: rest =>
      (if neq0 block then drawBlock block x y else []) ++ drawBoardRow rest y (x + 1)
  end.

(** [boardRef.current.forEach((row, y) => ...)], from row [y] on. *)
Fixpoint drawBoardRows (rows : Board) (y : Z) : list DrawCmd :=
  match rows with
  | [] => []
  | cells :: rest => drawBoardRow cells y 0 ++ drawBoardRows rest (y + 1)
  end.

(** [row.forEach((block, x) => ...)] over a row of the active shape: a
    block that is not [0] is filled with the piece's color at the offset
    of the piece. *)
Fixpoint drawShapeRow (cells : list value) (c : string) (p : Pos) (y x : Z) : list DrawCmd :=
  match cells with
  | [] => []
  | Hole :: rest => drawShapeRow rest c p y (x + 1)
  | block :: rest =>
      (if neq0 block then drawBlock (Str c) (px p + x) (py p + y) else [])
      ++ drawShapeRow rest c p y (x + 1)
  end.

Fixpoint drawShapeRows (rows : Matrix) (c : string) (p : Pos) (y : Z) : list DrawCmd :=
  match rows with
  | [] => []
  | cells :: rest => drawShapeRow cells c p y 0 ++ drawShapeRows rest c p (y + 1)
  end.

(** [draw(ctx)], reading the refs of the state [s]; the canvas is
    [BOARD_WIDTH * BLOCK_SIZE] by [BOARD_HEIGHT * BLOCK_SIZE]. *)
Definition draw (s : State) : list DrawCmd :=
  ClearRect 0 0 (BOARD_WIDTH * BLOCK_SIZE) (BOARD_HEIGHT * BLOCK_SIZE)
  :: drawBoardRows (board s) 0
  ++ match currentTetromino s with
     | Some t => drawShapeRows (shape t) (color t) (currentPos s) 0
     | None => []
     end.

(** ** rotate, on a store

    Arrays are objects: [rotate] swaps cells and reverses rows of the very
    arrays it is given.  The store holds the row arrays and the outer
    arrays, each under its location; an outer array holds the locations of
    its rows, so that two matrices, or two rows of one matrix, can share an
    array.  [None] stands for a location with no array, which no JavaScript
    reference is. *)

Module Store.

Definition loc : Type := nat.

Record store : Type := mkStore {
  rowsOf : list (list value);
  matsOf : list (list loc)
}.

Fixpoint foldM {A B : Type} (f : A -> B -> option A) (a : A) (l : list B) : option A :=
  match l with
  | [] => Some a
  | b :: l' => a' ← f a b; foldM f a' l'
  end.

(** The grid that a matrix stands for. *)
Definition content (st : store) (m : loc) : option Matrix :=
  rs ← matsOf st !! m; mapM (fun l : loc => rowsOf st !! l) rs.

(** [matrix[i]] *)
Definition rowAt (st : store) (m : loc) (i : nat) : option loc :=
  rs ← matsOf st !! m; rs !! i.

(** [matrix[i][j]] *)
Definition getCell (st : store) (m : loc) (i j : nat) : option value :=
  l ← rowAt st m i; r ← rowsOf st !! l; Some (js_get r (Z.of_nat j)).

(** [matrix[i][j] = v] *)
Definition setCell (st : store) (m : loc) (i j : nat) (v : value) : option store :=
  l ← rowAt st m i; r ← rowsOf st !! l;
  Some (mkStore (<[l := js_set r (Z.of_nat j) v]> (rowsOf st)) (matsOf st)).

Definition swapCells (m : loc) (y : nat) (st : store) (x : nat) : option store :=
  a ← getCell st m y x;
  b ← getCell st m x y;
  st1 ← setCell st m x y a;
  setCell st1 m y x b.

Definition transposeRow (m : loc) (st : store) (y : nat) : option store :=
  foldM (swapCells m y) st (seq 0 y).

Definition transpose (st : store) (m : loc) : option store :=
  rs ← matsOf st !! m; foldM (transposeRow m) st (seq 0 (length rs)).

(** [row.reverse()] reverses the array itself. *)
Definition reverseRow (st : store) (l : loc) : option store :=
  r ← rowsOf st !! l; Some (mkStore (<[l := reverse r]> (rowsOf st)) (matsOf st)).

(** [matrix.map((row) => row.reverse())]: a new outer array of the same,
    reversed, rows. *)
Definition mapReverse (st : store) (m : loc) : option (store * loc) :=
  rs ← matsOf st !! m;
  st1 ← foldM reverseRow st rs;
  Some (mkStore (rowsOf st1) (matsOf st1 ++ [rs]), length (matsOf st1)).

(** [matrix.reverse()] reverses the outer array itself and returns it. *)
Definition reverseMatrix (st : store) (m : loc) : option (store * loc) :=
  rs ← matsOf st !! m;
  Some (mkStore (rowsOf st) (<[m := reverse rs]> (matsOf st)), m).

Definition rotate (st : store) (matrix : loc) (dir : Z) : option (store * loc) :=
  st1 ← transpose st matrix;
  if dir >? 0 then mapReverse st1 matrix else reverseMatrix st1 matrix.

(** [shape.map((row) => [...row])]: new rows and a new outer array. *)
Definition copyMatrix (st : store) (m : loc) : option (store * loc) :=
  g ← content st m;
  Some (mkStore (rowsOf st ++ map spread g)
                (matsOf st ++ [seq (length (rowsOf st)) (length g)]),
        length (matsOf st)).

(** The rotation of the key handler:
    [rotate(currentTetrominoRef.current.shape.map((row) => [...row]), 1)]. *)
Definition rotateCopy (st : store) (sh : loc) : option (store * loc) :=
  '(st1, c) ← copyMatrix st sh; rotate st1 c 1.

(** A store with the catalog shape [type] as its only matrix. *)
Definition catalogStore (type : TetrominoKey) : store :=
  let g := shape (TETROMINOES type) in
  mkStore g [seq 0 (length g)].

End Store.

(** * The vocabulary of the properties *)

(** Cell [(r, c)] of a shape is occupied: it is there and is not [0]. *)
Definition occupied (sh : Matrix) (r c : nat) : Prop :=
  exists cells v, sh !! r = Some cells /\ cells !! c = Some v /\ neq0 v = true.

(** The board has a cell at [(boardX, boardY)] and it is not empty. *)
Definition nonEmptyAt (b : Board) (boardX boardY : Z) : Prop :=
  exists r, b !! Z.to_nat boardY = Some r /\ neq0 (js_get r boardX) = true.

(** Where cell [(r, c)] of a shape placed at [p] lands. *)
Definition landX (p : Pos) (c : nat) : Z := px p + Z.of_nat c.
Definition landY (p : Pos) (r : nat) : Z := py p + Z.of_nat r.

Definition outOfBounds (boardX boardY : Z) : Prop :=
  boardX < 0 \/ boardX >= BOARD_WIDTH \/ boardY >= BOARD_HEIGHT.

Definition blocked (b : Board) (boardX boardY : Z) : Prop :=
  outOfBounds boardX boardY \/ (boardY >= 0 /\ nonEmptyAt b boardX boardY).

Definition notFull (r : list value) : Prop := every_neq0 r <> true.

(** The rows that survive a line clear, in their order. *)
Definition survivors (b : Board) : Board := filter notFull b.

(** A board of the fixed dimensions. *)
Definition wfBoard (b : Board) : Prop :=
  length b = Z.to_nat BOARD_HEIGHT /\
  Forall (fun r => length r = Z.to_nat BOARD_WIDTH) b.

Definition cellCount (b : Board) : nat := length (concat b).

(** Every occupied cell of the shape placed at [p] lands inside the board. *)
Definition inBounds (sh : Matrix) (p : Pos) : Prop :=
  forall r c, occupied sh r c ->
    0 <= landX p c < BOARD_WIDTH /\ 0 <= landY p r < BOARD_HEIGHT.

(** ** Grids and stores *)

Section GridVocabulary.
Local Open Scope nat_scope.

(** The [n] by [n] matrix with [f i j] in row [i], column [j]. *)
Definition tab (n : nat) (f : nat -> nat -> value) : Matrix :=
  (fun i => f i <$> seq 0 n) <$> seq 0 n.

(** The content of cell [(i, j)]. *)
Definition cellAt (m : Matrix) (i j : nat) : value :=
  default Undefined (m !! i ≫= fun r => r !! j).

(** A square grid of size [n]: [n] rows of [n] cells, none absent. *)
Definition squareGrid (n : nat) (m : Matrix) : Prop :=
  length m = n /\ Forall (fun r => length r = n /\ Forall (fun v => v <> Hole) r) m.

Definition noHole (n : nat) (f : nat -> nat -> value) : Prop :=
  forall i j, i < n -> j < n -> f i j <> Hole.

(** The function of the matrix after [swapCells _ x y]. *)
Definition swapF (x y : nat) (f : nat -> nat -> value) (i j : nat) : value :=
  if decide (i = x /\ j = y) then f y x
  else if decide (i = y /\ j = x) then f x y
  else f i j.

(** The function of the matrix after the inner loop at [y] has run for
    [x] below [k]. *)
Definition rowF (y k : nat) (f : nat -> nat -> value) (i j : nat) : value :=
  if decide (j = y /\ i < k) then f y i
  else if decide (i = y /\ j < k) then f j y
  else f i j.

(** The function of the matrix after the outer loop has run for [y] below
    [k]. *)
Definition transF (k : nat) (f : nat -> nat -> value) (i j : nat) : value :=
  if decide (i < k /\ j < k) then f j i else f i j.

(** The function of the rotated matrix. *)
Definition rotF (n : nat) (dir : Z) (f : nat -> nat -> value) (i j : nat) : value :=
  if (dir >? 0)%Z then f (n - 1 - j) i else f j (n - 1 - i).

(** The rows at the locations [rs] are the rows of [g]. *)
Definition holds (st : Store.store) (rs : list Store.loc) (g : Matrix) : Prop :=
  length g = length rs /\
  forall i l, rs !! i = Some l -> Store.rowsOf st !! l = g !! i /\ is_Some (g !! i).

(** From [st0] to [st] no outer array changed, and no row array other than
    those at [rs]. *)
Definition within (rs : list Store.loc) (st0 st : Store.store) : Prop :=
  Store.matsOf st = Store.matsOf st0 /\
  length (Store.rowsOf st) = length (Store.rowsOf st0) /\
  forall l, l ∉ rs -> Store.rowsOf st !! l = Store.rowsOf st0 !! l.

(** The store [st] stands for the grid [g] at matrix [m], whose rows are
    at [rs], and differs from [st0] in these rows only. *)
Definition simulates (m : Store.loc) (rs : list Store.loc) (st0 st : Store.store)
    (g : Matrix) : Prop :=
  Store.matsOf st !! m = Some rs /\ holds st rs g /\ within rs st0 st.

(** The function of the grid after the rows below [k] were reversed. *)
Definition revUpTo (k : nat) (g : Matrix) : Matrix :=
  imap (fun i r => if decide (i < k) then reverse r else r) g.

End GridVocabulary.

(** ** Sessions *)

(** What a shape in play is: a square grid with an occupied cell. *)
Definition pieceShape (sh : Matrix) : Prop :=
  (exists n, squareGrid n sh) /\ exists r c, occupied sh r c.

Definition inv (s : State) : Prop :=
  wfBoard (board s) /\ 0 <= score s /\ 0 <= py (currentPos s) /\
  forall t, currentTetromino s = Some t ->
    pieceShape (shape t) /\ inBounds (shape t) (currentPos s).

Definition stopped (s : State) : Prop := gameStarted s = false \/ gameOver s = true.

(** Two states with the same board, piece, offset, score and flags: they
    differ at most in the timer refs. *)
Definition sameGame (s1 s2 : State) : Prop :=
  board s1 = board s2 /\ currentTetromino s1 = currentTetromino s2 /\
  currentPos s1 = currentPos s2 /\ score s1 = score s2 /\
  gameOver s1 = gameOver s2 /\ gameStarted s1 = gameStarted s2.

(** The drop interval has run out at the frame of timestamp [time]. *)
Definition dropDue (time : Z) (s : State) : Prop :=
  dropTime s + (time - (if lastTime s =? 0 then time else lastTime s)) > dropInterval.

(** The state after the lock of the active piece: the board and the score
    that the updater of [updateBoard] leaves. *)
Definition locked (b : Board) (n : Z) (s : State) : State :=
  setBoard b (if n >? 0 then setScore (score s + n * 100) s else s).

(** Some states of a session, for the examples. *)
Definition spawnedO : State := startGame KO initialState.
Definition restingO : State := setLastTime 16 (setCurrentPos (mkPos 4 18) spawnedO).

(** The events that stack O pieces in the spawn columns: each piece is
    dropped and locked by a down key. *)
Definition dropAndLock : list Event := [KeyDown Space KO; KeyDown ArrowDown KO].
Definition stackO (n : nat) : list Event := Start KO :: concat (replicate n dropAndLock).

(** After ten pieces the two spawn columns are full to the top, and an
    eleventh piece is in play at the spawn offset. *)
Definition towerBoard : Board :=
  replicate 20 (replicate 4 (Num 0) ++ [Str "yellow"; Str "yellow"] ++ replicate 4 (Num 0)).
Definition towerState : State :=
  mkState towerBoard (Some (TETROMINOES KO)) (mkPos 4 0) 0 false true 0 0.

(** A board whose row 17 is full and whose row 19 lacks only the two
    cells that an O piece at (4, 18) fills there. *)
Definition gapRow : list value :=
  replicate 4 (Str "red") ++ [Num 0; Num 0] ++ replicate 4 (Str "red").
Definition twoRows : Board :=
  replicate 17 emptyRow ++ [replicate 10 (Str "red"); emptyRow; gapRow].

(** ** Further vocabulary *)

(** Cell [(r, c)] of a shape is one that [updateBoard] writes: it is
    there, is no absent slot, and is not [0]. *)
Definition written (sh : Matrix) (r c : nat) : Prop :=
  exists cells v, sh !! r = Some cells /\ cells !! c = Some v /\ v <> Hole /\ neq0 v = true.

(** The content of the board at row [y], column [x], if there is one. *)
Definition boardCell (b : Board) (y x : Z) : option value :=
  if (y <? 0) || (x <? 0) then None
  else b !! Z.to_nat y ≫= fun r => r !! Z.to_nat x.

(** A grid after [i] clockwise rotations. *)
Definition orient (i : nat) (m : Matrix) : Matrix :=
  Nat.iter i (fun m' => rotate m' 1) m.

(** A catalog piece in one of its four orientations, with its catalog
    color. *)
Definition catalogPiece (t : Tetromino) : Prop :=
  exists type i, (i < 4)%nat /\
    t = mkTetromino (orient i (shape (TETROMINOES type))) (color (TETROMINOES type)).

(** What a board cell holds in a session: [0] or a catalog color. *)
Definition catalogCell (v : value) : Prop :=
  v = Num 0 \/ exists type, v = Str (color (TETROMINOES type)).

(** The piece that an event carries for a spawn. *)
Definition eventType (ev : Event) : TetrominoKey :=
  match ev with
  | Start type => type
  | KeyDown _ type => type
  | Frame _ type => type
  end.

(** Where [newTetromino] puts a piece. *)
Definition spawnPos (type : TetrominoKey) : Pos :=
  mkPos (startX (TETROMINOES type)) startY.

(** The positive outcome of the collision test of a spawn. *)
Definition spawnBlocked (type : TetrominoKey) (b : Board) : Prop :=
  checkCollision (shape (TETROMINOES type)) b (spawnPos type) = true.

(** The events that can lock the active piece: a down key and a frame. *)
Definition locksPiece (ev : Event) : Prop :=
  (exists type, ev = KeyDown ArrowDown type) \/ (exists time type, ev = Frame time type).

(** What one event can do to the board and the score: nothing, the reset
    of a start, or the lock of the active piece, blocked one row down, at
    its offset. *)
Definition boardEffect (ev : Event) (s s' : State) : Prop :=
  (board s' = board s /\ score s' = score s) \/
  (isStart ev = true /\ board s' = createBoard /\ score s' = 0) \/
  (locksPiece ev /\
   exists t b n, currentTetromino s = Some t /\
     checkCollision (shape t) (board s)
       (mkPos (px (currentPos s)) (py (currentPos s) + 1)) = true /\
     lockLines t (currentPos s) (board s) = Some (b, n) /\ 0 <= n /\
     board s' = b /\ score s' = score s + 100 * n).

(** What one event can do to the active piece: nothing, a spawn, or a new
    shape for the same color. *)
Definition pieceEffect (ev : Event) (s s' : State) : Prop :=
  currentTetromino s' = currentTetromino s \/
  currentTetromino s' = Some (TETROMINOES (eventType ev)) \/
  (exists t, currentTetromino s = Some t /\
     currentTetromino s' = Some (mkTetromino (rotate (map spread (shape t)) 1) (color t))).


(** The state after the down key that locks the piece of [restingO]. *)
Definition lockedO : State :=
  match step 20 (KeyDown ArrowDown KT) restingO with
  | Done s => s
  | _ => restingO
  end.

(** The state after a first start that draws a T piece. *)
Definition spawnedT : State := startGame KT initialState.

(** The state of the session that topped out on the tower: the down key
    on [towerState] locks the piece and the spawn is blocked. *)
Definition toppedOut : State :=
  newTetromino KO towerState (locked towerBoard 0 towerState).

(** The session one piece before the tower is complete: the spawn columns
    are full from row 2 down, and the tenth piece stands at the spawn
    offset. *)
Definition nearTopBoard : Board :=
  replicate 2 emptyRow ++
  replicate 18 (replicate 4 (Num 0) ++ [Str "yellow"; Str "yellow"] ++ replicate 4 (Num 0)).
Definition nearTop : State :=
  mkState nearTopBoard (Some (TETROMINOES KO)) (mkPos 4 0) 0 false true 0 0.




(** * Properties *)

(** ** Collision *)

Lemma cellCollides_blocked (b : Board) (boardX boardY : Z) :
  cellCollides b boardX boardY = true <-> blocked b boardX boardY.
Proof.
  unfold cellCollides, blocked, outOfBounds, nonEmptyAt.
  destruct (Z.ltb_spec boardX 0); simpl; [intuition lia|].
  destruct (Z.geb_spec boardX BOARD_WIDTH); simpl; [intuition lia|].
  destruct (Z.geb_spec boardY BOARD_HEIGHT); simpl; [intuition lia|].
  destruct (Z.geb_spec boardY 0); simpl.
  - destruct (b !! Z.to_nat boardY) as [r|] eqn:Hr.
    + destruct (neq0 (js_get r boardX)) eqn:Hn.
      * split; [intros _; right; split; [lia|eauto]|done].
      * split; [done|]. intros [?|[_ (r' & Hr' & Hn')]]; [lia|]. congruence.
    + split; [done|]. intros [?|[_ (r' & Hr' & _)]]; [lia|]. congruence.
  - split; [done|]. intros [?|[? _]]; lia.
Qed.

Lemma checkRow_spec (cells : list value) (b : Board) (p : Pos) (row col : Z) :
  checkRow cells b p row col = true <->
  exists (c : nat) v, cells !! c = Some v /\ neq0 v = true /\
    cellCollides b (px p + (col + Z.of_nat c)) (py p + row) = true.
Proof.
  revert col. induction cells as [|v rest IH]; intros col; simpl.
  - split; [done|]. intros (c & w & Hc & _). by destruct c.
  - destruct (neq0 v && cellCollides b (px p + col) (py p + row)) eqn:Hhit.
    + apply andb_true_iff in Hhit as [Hv Hc]. split; [intros _|done].
      exists 0%nat, v. replace (col + Z.of_nat 0) with col by lia. done.
    + rewrite IH. split.
      * intros (c & w & Hl & Hw & Hc). exists (S c), w.
        replace (col + Z.of_nat (S c)) with (col + 1 + Z.of_nat c) by lia. done.
      * intros ([|c] & w & Hl & Hw & Hc); simpl in Hl.
        -- injection Hl as ->. replace (col + Z.of_nat 0) with col in Hc by lia.
           rewrite Hw, Hc in Hhit. done.
        -- exists c, w. replace (col + 1 + Z.of_nat c) with (col + Z.of_nat (S c)) by lia.
           done.
Qed.

Lemma checkRows_spec (rows : list (list value)) (b : Board) (p : Pos) (row : Z) :
  checkRows rows b p row = true <->
  exists (r c : nat) cells v, rows !! r = Some cells /\ cells !! c = Some v /\
    neq0 v = true /\
    cellCollides b (px p + Z.of_nat c) (py p + (row + Z.of_nat r)) = true.
Proof.
  revert row. induction rows as [|cells rest IH]; intros row; simpl.
  - split; [done|]. intros (r & c & cs & w & Hr & _). by destruct r.
  - destruct (checkRow cells b p row 0) eqn:Hrow.
    + apply checkRow_spec in Hrow as (c & v & Hc & Hv & Hhit).
      split; [intros _|done]. exists 0%nat, c, cells, v.
      replace (row + Z.of_nat 0) with row by lia. done.
    + rewrite IH. split.
      * intros (r & c & cs & w & Hr & Hc & Hw & Hhit). exists (S r), c, cs, w.
        replace (row + Z.of_nat (S r)) with (row + 1 + Z.of_nat r) by lia. done.
      * intros ([|r] & c & cs & w & Hr & Hc & Hw & Hhit); simpl in Hr.
        -- injection Hr as ->. replace (row + Z.of_nat 0) with row in Hhit by lia.
           assert (checkRow cs b p row 0 = true) as Habs; [|congruence].
           apply checkRow_spec. by exists c, w.
        -- exists r, c, cs, w.
           replace (row + 1 + Z.of_nat r) with (row + Z.of_nat (S r)) by lia. done.
Qed.

Lemma checkCollision_iff (sh : Matrix) (b : Board) (p : Pos) :
  checkCollision sh b p = true <->
  exists r c, occupied sh r c /\ blocked b (landX p c) (landY p r).
Proof.
  unfold checkCollision. rewrite checkRows_spec. unfold occupied, landX, landY.
  split.
  - intros (r & c & cells & v & Hr & Hc & Hv & Hhit). exists r, c. split; [eauto|].
    apply cellCollides_blocked. by replace (py p + Z.of_nat r) with (py p + (0 + Z.of_nat r)) by lia.
  - intros (r & c & (cells & v & Hr & Hc & Hv) & Hhit). exists r, c, cells, v.
    repeat split; try done. apply cellCollides_blocked in Hhit.
    by replace (py p + (0 + Z.of_nat r)) with (py p + Z.of_nat r) by lia.
Qed.

(** C5. [checkCollision] is [true] exactly when some occupied cell of the
    shape lands on a coordinate with x < 0, x >= width or y >= height, or
    on a coordinate with y >= 0 whose board cell is not empty.  So an
    occupied cell that lands out of bounds makes it [true] whatever the
    board holds, and when every occupied cell lands above the board with x
    in bounds it is [false] whatever the board holds: a cell above the
    board adds no collision. *)
Theorem checkCollision_spec :
  (forall (sh : Matrix) (b : Board) (p : Pos),
     checkCollision sh b p = true <->
     exists r c, occupied sh r c /\
       (landX p c < 0 \/ landX p c >= BOARD_WIDTH \/ landY p r >= BOARD_HEIGHT \/
        (landY p r >= 0 /\ nonEmptyAt b (landX p c) (landY p r)))) /\
  (forall (sh : Matrix) (p : Pos) (r c : nat),
     occupied sh r c ->
     landX p c < 0 \/ landX p c >= BOARD_WIDTH \/ landY p r >= BOARD_HEIGHT ->
     forall b : Board, checkCollision sh b p = true) /\
  (forall (sh : Matrix) (p : Pos),
     (forall r c, occupied sh r c ->
        0 <= landX p c < BOARD_WIDTH /\ landY p r < 0) ->
     forall b : Board, checkCollision sh b p = false).
Proof.
  split; [|split].
  - intros sh b p. rewrite checkCollision_iff. unfold blocked, outOfBounds.
    split; intros (r & c & Hocc & H); exists r, c; (split; [done|]); tauto.
  - intros sh p r c Hocc Hout b. apply checkCollision_iff. exists r, c.
    split; [done|]. left. exact Hout.
  - intros sh p Hall b. apply not_true_is_false. intros Hcol.
    apply checkCollision_iff in Hcol as (r & c & Hocc & Hb).
    destruct (Hall r c Hocc) as [Hx Hy].
    unfold blocked, outOfBounds, BOARD_HEIGHT in Hb.
    destruct Hb as [[?|[?|?]]|[? _]]; lia.
Qed.

(** ** Line clearing *)

Lemma clearLoop_step (b : Board) (y n : Z) :
  clearLoop b y n =
  if y <? 0 then Some (b, n)
  else match b !! Z.to_nat y with
       | None => None
       | Some r =>
           if every_neq0 r then clearLoop (spliceUnshift b (Z.to_nat y)) y (n + 1)
           else clearLoop b (y - 1) n
       end.
Proof.
  funelim (clearLoop b y n).
  - destruct (Z.ltb_spec y 0); [done|lia].
  - destruct (Z.ltb_spec y 0); [lia|]. by rewrite e.
  - destruct (Z.ltb_spec y 0); [lia|]. rewrite e, e0.
    by replace (y + 1 - 1) with y by lia.
  - destruct (Z.ltb_spec y 0); [lia|]. by rewrite e, e0.
Qed.

Lemma countFull_app (a b : Board) : countFull (a ++ b) = (countFull a + countFull b)%nat.
Proof.
  induction a as [|r a IH]; [done|].
  change ((r :: a) ++ b) with (r :: (a ++ b)). rewrite !countFull_cons, IH. lia.
Qed.

Lemma survivors_app (a b : Board) : survivors (a ++ b) = survivors a ++ survivors b.
Proof. apply filter_app. Qed.

Lemma survivors_full (r : list value) : every_neq0 r = true -> survivors [r] = [].
Proof.
  intros H. unfold survivors. rewrite filter_cons_False; [done|].
  unfold notFull. by intros ?.
Qed.

Lemma survivors_notFull (r : list value) : every_neq0 r = false -> survivors [r] = [r].
Proof.
  intros H. unfold survivors. rewrite filter_cons_True; [done|].
  unfold notFull. congruence.
Qed.

Lemma emptyRow_notFull : every_neq0 emptyRow = false.
Proof. reflexivity. Qed.

Lemma replicate_cons_middle {A : Type} (k : nat) (x : A) (l : list A) :
  replicate k x ++ x :: l = x :: replicate k x ++ l.
Proof. induction k as [|k IH]; [done|]. simpl. by rewrite IH. Qed.

(** The loop entered at [y] with the rows [top] still to scan (those of
    index [0] to [y]) above the rows [bot] already scanned. *)
Lemma clearLoop_scan (k : nat) :
  forall (top bot : Board) (y n : Z),
    (countFull top + length top <= k)%nat ->
    Z.of_nat (length top) = y + 1 ->
    clearLoop (top ++ bot) y n =
    Some (replicate (countFull top) emptyRow ++ survivors top ++ bot,
          n + Z.of_nat (countFull top)).
Proof.
  induction k as [|k IH]; intros top bot y n Hk Hy; rewrite clearLoop_step.
  - destruct top; simpl in *; [|lia].
    destruct (Z.ltb_spec y 0); [|lia]. do 2 f_equal. unfold countFull. simpl. lia.
  - destruct (Z.ltb_spec y 0) as [Hneg|Hpos].
    + destruct top; simpl in *; [|lia]. do 2 f_equal. unfold countFull. simpl. lia.
    + destruct (exists_last (l := top)) as (top0 & r & ->); [by destruct top; simpl in *; [lia|]|].
      rewrite length_app in Hy, Hk. simpl in Hy, Hk.
      assert (Z.to_nat y = length top0) as Hidx by lia.
      rewrite countFull_app, countFull_cons in Hk |- *.
      replace ((top0 ++ [r]) ++ bot) with (top0 ++ r :: bot) by (by rewrite <- app_assoc).
      rewrite Hidx, list_lookup_middle by done.
      change (countFull []) with 0%nat in *.
      destruct (every_neq0 r) eqn:Hr.
      * unfold spliceUnshift.
        replace (delete (length top0) (top0 ++ r :: bot)) with (top0 ++ bot).
        2:{ clear. induction top0; [done|]. simpl. by f_equal. }
        change (emptyRow :: top0 ++ bot) with ((emptyRow :: top0) ++ bot).
        rewrite (IH (emptyRow :: top0) bot y (n + 1)).
        -- rewrite countFull_cons, emptyRow_notFull.
           rewrite survivors_app, survivors_full by done.
           change (emptyRow :: top0) with ([emptyRow] ++ top0).
           rewrite survivors_app, survivors_notFull by apply emptyRow_notFull.
           replace (countFull top0 + (1 + 0))%nat with (S (countFull top0)) by lia.
           simpl. rewrite app_nil_r. f_equal. f_equal.
           ++ apply replicate_cons_middle.
           ++ lia.
        -- rewrite countFull_cons, emptyRow_notFull. simpl. lia.
        -- simpl. lia.
      * rewrite (IH top0 (r :: bot) (y - 1) n) by lia.
        rewrite survivors_app, survivors_notFull by done.
        rewrite <- !app_assoc. replace (countFull top0 + (0 + 0))%nat with (countFull top0) by lia.
        done.
Qed.

Lemma clearLoop_all (b : Board) (n : Z) :
  Z.of_nat (length b) = BOARD_HEIGHT ->
  clearLoop b (BOARD_HEIGHT - 1) n =
  Some (replicate (countFull b) emptyRow ++ survivors b, n + Z.of_nat (countFull b)).
Proof.
  intros Hlen.
  pose proof (clearLoop_scan (countFull b + length b) b [] (BOARD_HEIGHT - 1) n) as H.
  rewrite !app_nil_r in H. apply H; lia.
Qed.

Lemma length_survivors (b : Board) : (length (survivors b) + countFull b = length b)%nat.
Proof.
  induction b as [|r b IH]; [done|].
  change (r :: b) with ([r] ++ b). rewrite survivors_app, countFull_app, !length_app.
  change ([r] ++ []) with [r]. rewrite countFull_cons.
  destruct (every_neq0 r) eqn:Hr.
  - rewrite survivors_full by done. simpl in *. change (countFull []) with 0%nat. lia.
  - rewrite survivors_notFull by done. simpl in *. change (countFull []) with 0%nat. lia.
Qed.

Lemma cellCount_wf (b : Board) (w : nat) :
  Forall (fun r => length r = w) b -> cellCount b = (length b * w)%nat.
Proof.
  unfold cellCount. induction 1 as [|r b Hr _ IH]; [done|].
  simpl. rewrite length_app, IH, Hr. lia.
Qed.

(** ** Writing a piece into the board *)

Lemma js_set_length_in (a : list value) (i : Z) (v : value) :
  0 <= i < Z.of_nat (length a) -> length (js_set a i v) = length a.
Proof.
  intros Hi. unfold js_set.
  destruct (Z.ltb_spec i 0); [lia|].
  destruct (Z.ltb_spec i (Z.of_nat (length a))); [|lia].
  apply length_insert.
Qed.

Lemma writeCell_wf (b : Board) (boardY boardX : Z) (c : value) :
  wfBoard b -> 0 <= boardX < BOARD_WIDTH -> 0 <= boardY < BOARD_HEIGHT ->
  exists b', writeCell b boardY boardX c = Some b' /\ wfBoard b'.
Proof.
  intros [Hlen Hrows] Hx Hy. unfold writeCell.
  destruct (Z.ltb_spec boardY 0); [lia|].
  destruct (lookup_lt_is_Some_2 b (Z.to_nat boardY)) as [r Hr]; [lia|].
  rewrite Hr. eexists; split; [done|]. split.
  - by rewrite length_insert.
  - apply Forall_insert; [done|].
    rewrite js_set_length_in; [by eapply Forall_lookup_1 in Hrows|].
    eapply Forall_lookup_1 in Hrows; [|done]. simpl in Hrows. lia.
Qed.

Lemma writeRow_wf (cells : list value) (col : string) (p : Pos) (y x : Z) (b : Board) :
  wfBoard b ->
  (forall (c : nat) v, cells !! c = Some v -> neq0 v = true ->
     0 <= px p + (x + Z.of_nat c) < BOARD_WIDTH /\ 0 <= py p + y < BOARD_HEIGHT) ->
  exists b', writeRow cells col p y x b = Some b' /\ wfBoard b'.
Proof.
  revert x b. induction cells as [|v rest IH]; intros x b Hwf Hin; simpl.
  - eauto.
  - assert (forall (c : nat) w, rest !! c = Some w -> neq0 w = true ->
       0 <= px p + (x + 1 + Z.of_nat c) < BOARD_WIDTH /\ 0 <= py p + y < BOARD_HEIGHT) as Hrest.
    { intros c w Hc Hw. replace (x + 1 + Z.of_nat c) with (x + Z.of_nat (S c)) by lia.
      by apply (Hin (S c) w). }
    assert (neq0 v = true ->
      exists b', match writeCell b (py p + y) (px p + x) (Str col) with
                 | Some b0 => writeRow rest col p y (x + 1) b0
                 | None => None
                 end = Some b' /\ wfBoard b') as Hwrite.
    { intros Hv. destruct (Hin 0%nat v eq_refl Hv) as [Hx Hy].
      replace (x + Z.of_nat 0) with x in Hx by lia.
      destruct (writeCell_wf b (py p + y) (px p + x) (Str col) Hwf Hx Hy) as (b1 & -> & Hwf1).
      by apply IH. }
    destruct v as [n| | |]; try (by apply Hwrite); [|by apply IH].
    destruct (neq0 (Num n)) eqn:Hn; [by apply Hwrite|by apply IH].
Qed.

Lemma writeRows_wf (rows : list (list value)) (col : string) (p : Pos) (y : Z) (b : Board) :
  wfBoard b ->
  (forall (r c : nat) cells v, rows !! r = Some cells -> cells !! c = Some v ->
     neq0 v = true ->
     0 <= px p + Z.of_nat c < BOARD_WIDTH /\ 0 <= py p + (y + Z.of_nat r) < BOARD_HEIGHT) ->
  exists b', writeRows rows col p y b = Some b' /\ wfBoard b'.
Proof.
  revert y b. induction rows as [|cells rest IH]; intros y b Hwf Hin; simpl.
  - eauto.
  - destruct (writeRow_wf cells col p y 0 b Hwf) as (b1 & -> & Hwf1).
    { intros c v Hc Hv. destruct (Hin 0%nat c cells v eq_refl Hc Hv) as [Hx Hy].
      split; [lia|]. by replace (y + Z.of_nat 0) with y in Hy by lia. }
    apply IH; [done|]. intros r c cs v Hr Hc Hv.
    replace (y + 1 + Z.of_nat r) with (y + Z.of_nat (S r)) by lia.
    by apply (Hin (S r) c cs v).
Qed.

Lemma wfBoard_spread (b : Board) : wfBoard b -> wfBoard (map spread b).
Proof.
  intros [Hlen Hrows]. split; [by rewrite length_map|].
  apply Forall_map. eapply Forall_impl; [done|]. intros r Hr. simpl.
  unfold spread. by rewrite length_map.
Qed.

Lemma writePiece_wf (t : Tetromino) (p : Pos) (b : Board) :
  wfBoard b -> inBounds (shape t) p ->
  exists b', writePiece t p b = Some b' /\ wfBoard b'.
Proof.
  intros Hwf Hin. apply writeRows_wf; [by apply wfBoard_spread|].
  intros r c cells v Hr Hc Hv. replace (0 + Z.of_nat r) with (Z.of_nat r) by lia.
  apply (Hin r c). by exists cells, v.
Qed.

Lemma wfBoard_cleared (b : Board) :
  wfBoard b -> wfBoard (replicate (countFull b) emptyRow ++ survivors b).
Proof.
  intros [Hlen Hrows]. split.
  - rewrite length_app, length_replicate. pose proof (length_survivors b). lia.
  - apply Forall_app. split.
    + apply Forall_replicate. reflexivity.
    + rewrite Forall_forall in Hrows |- *. intros r Hr.
      apply list_elem_of_filter in Hr as [_ Hr]. by apply Hrows.
Qed.

Lemma lockLines_wf (t : Tetromino) (p : Pos) (b : Board) :
  wfBoard b -> inBounds (shape t) p ->
  exists b' n, lockLines t p b = Some (b', n) /\ wfBoard b' /\ 0 <= n.
Proof.
  intros Hwf Hin. unfold lockLines.
  destruct (writePiece_wf t p b Hwf Hin) as (b1 & -> & Hwf1).
  rewrite clearLoop_all by (destruct Hwf1 as [-> _]; reflexivity).
  eexists _, _. split; [done|]. split; [by apply wfBoard_cleared|lia].
Qed.

(** C4. The line-clear step of a lock, on a board of the fixed dimensions
    with the piece written: it removes the rows whose every cell is not
    empty in that board, those and no other (a row that slides into an
    index just cleared is tested as well), keeps the other rows in their
    order below as many empty rows as were removed, counts the removed
    rows, and leaves a board of the same dimensions and cell count. *)
Theorem lineClear_removes_full_rows (t : Tetromino) (p : Pos) (prevBoard b : Board) :
  writePiece t p prevBoard = Some b -> wfBoard b ->
  exists b',
    lockLines t p prevBoard = Some (b', Z.of_nat (countFull b)) /\
    b' = replicate (countFull b) emptyRow ++ filter (fun r => every_neq0 r <> true) b /\
    wfBoard b' /\ cellCount b' = cellCount b.
Proof.
  intros Hw Hwf. unfold lockLines. rewrite Hw.
  rewrite clearLoop_all by (destruct Hwf as [-> _]; reflexivity).
  eexists. split; [done|]. split; [done|].
  pose proof (wfBoard_cleared b Hwf) as Hwf'. split; [done|].
  destruct Hwf as [Hlen Hrows]. destruct Hwf' as [Hlen' Hrows'].
  rewrite (cellCount_wf _ _ Hrows), (cellCount_wf _ _ Hrows'). congruence.
Qed.

Lemma lineClear_removes_full_rows_witness :
  exists b',
    lockLines (TETROMINOES KO) (mkPos 4 18) twoRows = Some (b', 2) /\
    wfBoard b' /\ cellCount b' = 200%nat.
Proof.
  destruct (lineClear_removes_full_rows (TETROMINOES KO) (mkPos 4 18) twoRows
              (replicate 17 emptyRow ++
               [replicate 10 (Str "red");
                replicate 4 (Num 0) ++ [Str "yellow"; Str "yellow"] ++ replicate 4 (Num 0);
                replicate 4 (Str "red") ++ [Str "yellow"; Str "yellow"]
                  ++ replicate 4 (Str "red")]))
    as (b' & Hlock & _ & Hwf & Hcount).
  - reflexivity.
  - split; [reflexivity|]. repeat constructor.
  - exists b'. split; [exact Hlock|]. split; [exact Hwf|]. exact Hcount.
Defined.

(** ** Rotation *)

Section Rotation.
Local Open Scope nat_scope.

Lemma tab_lookup (n : nat) (f : nat -> nat -> value) (i : nat) :
  i < n -> tab n f !! i = Some (f i <$> seq 0 n).
Proof. intros Hi. unfold tab. by rewrite list_lookup_fmap, lookup_seq_lt. Qed.

Lemma tab_length (n : nat) (f : nat -> nat -> value) : length (tab n f) = n.
Proof. unfold tab. by rewrite length_fmap, length_seq. Qed.

Lemma row_lookup (n : nat) (g : nat -> value) (j : nat) :
  j < n -> (g <$> seq 0 n) !! j = Some (g j).
Proof. intros Hj. by rewrite list_lookup_fmap, lookup_seq_lt. Qed.

Lemma row_ext (n : nat) (g h : nat -> value) :
  (forall j, j < n -> g j = h j) -> g <$> seq 0 n = h <$> seq 0 n.
Proof.
  intros H. apply list_eq. intros j. rewrite !list_lookup_fmap.
  destruct (seq 0 n !! j) as [k|] eqn:Hk; [|done].
  apply lookup_seq in Hk as [-> ?]. simpl. f_equal. by apply H.
Qed.

Lemma tab_ext (n : nat) (f g : nat -> nat -> value) :
  (forall i j, i < n -> j < n -> f i j = g i j) -> tab n f = tab n g.
Proof.
  intros H. unfold tab. apply list_eq. intros i. rewrite !list_lookup_fmap.
  destruct (seq 0 n !! i) as [k|] eqn:Hk; [|done].
  apply lookup_seq in Hk as [-> ?]. simpl. f_equal. apply row_ext. intros j Hj. by apply H.
Qed.

Lemma squareGrid_tab (n : nat) (m : Matrix) :
  squareGrid n m -> m = tab n (cellAt m) /\ noHole n (cellAt m).
Proof.
  intros [Hlen Hrows]. rewrite Forall_lookup in Hrows. split.
  - apply list_eq. intros i. destruct (decide (i < n)) as [Hi|Hi].
    + rewrite tab_lookup by done.
      destruct (lookup_lt_is_Some_2 m i) as [r Hr]; [lia|]. rewrite Hr. f_equal.
      destruct (Hrows i r Hr) as [Hrl _]. apply list_eq. intros j.
      destruct (decide (j < n)) as [Hj|Hj].
      * rewrite row_lookup by done. unfold cellAt. rewrite Hr. simpl.
        destruct (lookup_lt_is_Some_2 r j) as [v Hv]; [lia|]. by rewrite Hv.
      * rewrite !lookup_ge_None_2; [done| |lia]. rewrite length_fmap, length_seq. lia.
    + rewrite !lookup_ge_None_2; [done| |lia]. rewrite tab_length. lia.
  - intros i j Hi Hj. unfold cellAt.
    destruct (lookup_lt_is_Some_2 m i) as [r Hr]; [lia|]. rewrite Hr. simpl.
    destruct (Hrows i r Hr) as [Hrl Hd].
    destruct (lookup_lt_is_Some_2 r j) as [v Hv]; [lia|]. rewrite Hv. simpl.
    rewrite Forall_lookup in Hd. by eapply Hd.
Qed.

Lemma tab_squareGrid (n : nat) (f : nat -> nat -> value) :
  noHole n f -> squareGrid n (tab n f).
Proof.
  intros Hf. split; [apply tab_length|]. apply Forall_lookup. intros i r Hr.
  assert (i < n) as Hi by (apply lookup_lt_Some in Hr; by rewrite tab_length in Hr).
  rewrite tab_lookup in Hr by done. injection Hr as <-. split.
  - by rewrite length_fmap, length_seq.
  - apply Forall_lookup. intros j v Hv.
    assert (j < n) as Hj by (apply lookup_lt_Some in Hv; by rewrite length_fmap, length_seq in Hv).
    rewrite row_lookup in Hv by done. injection Hv as <-. by apply Hf.
Qed.

Lemma js_get_row (n : nat) (g : nat -> value) (j : nat) :
  j < n -> g j <> Hole -> js_get (g <$> seq 0 n) (Z.of_nat j) = g j.
Proof.
  intros Hj Hg. unfold js_get. destruct (Z.ltb_spec (Z.of_nat j) 0); [lia|].
  rewrite Nat2Z.id, row_lookup by done. by destruct (g j).
Qed.

Lemma js_set_row (n : nat) (g : nat -> value) (j : nat) (v : value) :
  j < n ->
  js_set (g <$> seq 0 n) (Z.of_nat j) v = (fun k => if decide (k = j) then v else g k) <$> seq 0 n.
Proof.
  intros Hj. unfold js_set. destruct (Z.ltb_spec (Z.of_nat j) 0); [lia|].
  rewrite length_fmap, length_seq. destruct (Z.ltb_spec (Z.of_nat j) (Z.of_nat n)); [|lia].
  rewrite Nat2Z.id. apply list_eq. intros k. rewrite list_lookup_insert.
  rewrite length_fmap, length_seq. destruct (decide (k < n)) as [Hk|Hk].
  - rewrite !row_lookup by done. repeat case_decide; try done; lia.
  - rewrite !lookup_ge_None_2; [case_decide; [lia|done]| |]; rewrite length_fmap, length_seq; lia.
Qed.

Lemma swapCells_tab (n x y : nat) (f : nat -> nat -> value) :
  x < n -> y < n -> x <> y -> noHole n f ->
  swapCells (tab n f) x y = tab n (swapF x y f).
Proof.
  intros Hx Hy Hxy Hf. unfold swapCells. rewrite !tab_lookup by done.
  rewrite !js_get_row by (done || by apply Hf). rewrite js_set_row by done.
  rewrite list_lookup_insert_ne, tab_lookup by done. rewrite js_set_row by done.
  apply list_eq. intros i. rewrite !list_lookup_insert, !length_insert, !tab_length.
  destruct (decide (i < n)) as [Hi|Hi].
  - rewrite !tab_lookup by done. unfold swapF.
    repeat case_decide; try lia; f_equal; apply row_ext; intros j Hj;
      repeat case_decide; try done; try lia; destruct_and?; subst; done.
  - rewrite !lookup_ge_None_2; [repeat case_decide; (done || lia)| |]; rewrite tab_length; lia.
Qed.

Lemma swapF_noHole (n x y : nat) (f : nat -> nat -> value) :
  x < n -> y < n -> noHole n f -> noHole n (swapF x y f).
Proof.
  intros Hx Hy Hf i j Hi Hj. unfold swapF. repeat case_decide; by apply Hf.
Qed.

Lemma rowF_noHole (n y k : nat) (f : nat -> nat -> value) :
  y < n -> k <= y -> noHole n f -> noHole n (rowF y k f).
Proof.
  intros Hy Hk Hf i j Hi Hj. unfold rowF. repeat case_decide; apply Hf; lia.
Qed.

Lemma transposeRow_prefix (n y k : nat) (f : nat -> nat -> value) :
  y < n -> k <= y -> noHole n f ->
  foldl (fun m x => swapCells m x y) (tab n f) (seq 0 k) = tab n (rowF y k f).
Proof.
  intros Hy Hk Hf. induction k as [|k IH].
  - simpl. apply tab_ext. intros i j _ _. unfold rowF. repeat case_decide; try done; lia.
  - rewrite seq_S, foldl_snoc, IH by lia. simpl.
    rewrite swapCells_tab; [|lia|lia|lia|apply (rowF_noHole n); [lia|lia|done]].
    apply tab_ext. intros i j Hi Hj. unfold swapF, rowF.
    repeat case_decide; try done; try lia; destruct_and?; subst; try done; try lia.
Qed.

Lemma transF_noHole (n k : nat) (f : nat -> nat -> value) :
  k <= n -> noHole n f -> noHole n (transF k f).
Proof.
  intros Hk Hf i j Hi Hj. unfold transF. case_decide; by apply Hf.
Qed.

Lemma transpose_prefix (n k : nat) (f : nat -> nat -> value) :
  k <= n -> noHole n f ->
  foldl transposeRow (tab n f) (seq 0 k) = tab n (transF k f).
Proof.
  intros Hk Hf. induction k as [|k IH].
  - simpl. apply tab_ext. intros i j _ _. unfold transF. case_decide; [lia|done].
  - rewrite seq_S, foldl_snoc, IH by lia. simpl. unfold transposeRow.
    rewrite (transposeRow_prefix n k k); [|lia|lia|apply transF_noHole; [lia|done]].
    apply tab_ext. intros i j Hi Hj. unfold rowF, transF.
    repeat case_decide; try done; try lia; destruct_and?; subst; try done; try lia.
    by replace i with j by lia.
Qed.

Lemma transpose_tab (n : nat) (f : nat -> nat -> value) :
  noHole n f -> transpose (tab n f) = tab n (fun i j => f j i).
Proof.
  intros Hf. unfold transpose. rewrite tab_length, (transpose_prefix n n) by done.
  apply tab_ext. intros i j Hi Hj. unfold transF. case_decide; [done|lia].
Qed.

Lemma reverse_row (n : nat) (g : nat -> value) :
  reverse (g <$> seq 0 n) = (fun j => g (n - 1 - j)) <$> seq 0 n.
Proof.
  apply list_eq. intros j. destruct (decide (j < n)) as [Hj|Hj].
  - rewrite reverse_lookup by (rewrite length_fmap, length_seq; lia).
    rewrite length_fmap, length_seq, !row_lookup by lia. do 2 f_equal. lia.
  - rewrite !lookup_ge_None_2; [done| |];
      rewrite ?length_reverse, length_fmap, length_seq; lia.
Qed.

Lemma map_reverse_tab (n : nat) (f : nat -> nat -> value) :
  map (@reverse value) (tab n f) = tab n (fun i j => f i (n - 1 - j)).
Proof.
  unfold tab. change (map (@reverse value)) with (fmap (M := list) (@reverse value)).
  rewrite <- list_fmap_compose. apply list_fmap_ext. intros _ i _. simpl.
  apply reverse_row.
Qed.

Lemma reverse_tab (n : nat) (f : nat -> nat -> value) :
  reverse (tab n f) = tab n (fun i j => f (n - 1 - i) j).
Proof.
  apply list_eq. intros i. destruct (decide (i < n)) as [Hi|Hi].
  - rewrite reverse_lookup by (rewrite tab_length; lia).
    rewrite tab_length, !tab_lookup by lia. do 3 f_equal. lia.
  - rewrite !lookup_ge_None_2; [done| |]; rewrite ?length_reverse, tab_length; lia.
Qed.

Lemma rotate_tab (n : nat) (dir : Z) (f : nat -> nat -> value) :
  noHole n f -> rotate (tab n f) dir = tab n (rotF n dir f).
Proof.
  intros Hf. unfold rotate, rotF. rewrite transpose_tab by done.
  destruct (dir >? 0)%Z; [apply map_reverse_tab|apply reverse_tab].
Qed.

Lemma rotF_noHole (n : nat) (dir : Z) (f : nat -> nat -> value) :
  noHole n f -> noHole n (rotF n dir f).
Proof.
  intros Hf i j Hi Hj. unfold rotF. destruct (dir >? 0)%Z; apply Hf; lia.
Qed.

Lemma rotate_squareGrid (n : nat) (dir : Z) (m : Matrix) :
  squareGrid n m -> squareGrid n (rotate m dir).
Proof.
  intros Hm. destruct (squareGrid_tab n m Hm) as [Heq Hf].
  rewrite Heq, rotate_tab by done. apply tab_squareGrid. by apply rotF_noHole.
Qed.

Lemma rotate4_id (n : nat) (m : Matrix) :
  squareGrid n m -> rotate (rotate (rotate (rotate m 1) 1) 1) 1 = m.
Proof.
  intros Hm. destruct (squareGrid_tab n m Hm) as [Heq Hf]. rewrite Heq at 1.
  rewrite !rotate_tab by (repeat apply rotF_noHole; done).
  rewrite Heq at 2. apply tab_ext. intros i j Hi Hj. unfold rotF. simpl.
  f_equal; lia.
Qed.

Lemma squareGrid_grid (n : nat) (rows : list (list Z)) :
  length rows = n -> forallb (fun r => (length r =? n)%nat) rows = true ->
  squareGrid n (grid rows).
Proof.
  intros Hlen Hall. split; [unfold grid; by rewrite length_map|].
  unfold grid. apply Forall_map. apply Forall_forall. intros r Hr.
  rewrite forallb_forall in Hall. apply list_elem_of_In, Hall, Nat.eqb_eq in Hr.
  split; [by rewrite length_map|]. apply Forall_map, Forall_forall. done.
Qed.

End Rotation.

(** C6. Four clockwise rotations of a square grid give the grid back, and
    a rotation of a square grid, in either direction, is a square grid of
    the same size. *)
Theorem rotate_four_times (n : nat) (m : Matrix) :
  squareGrid n m ->
  rotate (rotate (rotate (rotate m 1) 1) 1) 1 = m /\
  forall dir, squareGrid n (rotate m dir).
Proof.
  intros Hm. split; [by eapply rotate4_id|]. intros dir. by apply rotate_squareGrid.
Qed.

Lemma rotate_four_times_witness :
  rotate (rotate (rotate (rotate (shape (TETROMINOES KT)) 1) 1) 1) 1
    = shape (TETROMINOES KT) /\
  forall dir, squareGrid 3 (rotate (shape (TETROMINOES KT)) dir).
Proof.
  apply (rotate_four_times 3 (shape (TETROMINOES KT))).
  apply squareGrid_grid; reflexivity.
Defined.


(** ** Rotation on the store *)

Section StoreRotation.
Local Open Scope nat_scope.

Lemma within_refl (rs : list Store.loc) (st : Store.store) : within rs st st.
Proof. done. Qed.

Lemma within_trans (rs : list Store.loc) (st0 st1 st2 : Store.store) :
  within rs st0 st1 -> within rs st1 st2 -> within rs st0 st2.
Proof.
  intros (Hm1 & Hl1 & Hr1) (Hm2 & Hl2 & Hr2). split; [congruence|]. split; [congruence|].
  intros l Hl. rewrite Hr2, Hr1; done.
Qed.

Lemma content_holds (st : Store.store) (m : Store.loc) (g : Matrix) :
  Store.content st m = Some g <-> exists rs, Store.matsOf st !! m = Some rs /\ holds st rs g.
Proof.
  unfold Store.content, holds. split.
  - intros H. destruct (Store.matsOf st !! m) as [rs|]; [|done]. simpl in H.
    exists rs. split; [done|]. apply mapM_Some, Forall2_same_length_lookup in H as [Hlen H].
    split; [done|]. intros i l Hl.
    destruct (lookup_lt_is_Some_2 g i) as [r Hr].
    { rewrite <- Hlen. by eapply lookup_lt_Some. }
    rewrite Hr. split; [|done]. by eapply H.
  - intros (rs & -> & Hlen & H). simpl. apply mapM_Some, Forall2_same_length_lookup.
    split; [done|]. intros i l r Hl Hr. destruct (H i l Hl) as [-> _]. done.
Qed.

Lemma foldM_sim {A B C : Type} (R : A -> C -> Prop) (P : B -> Prop)
    (f : A -> B -> option A) (h : C -> B -> C) :
  (forall a c b, R a c -> P b -> exists a', f a b = Some a' /\ R a' (h c b)) ->
  forall l a c, Forall P l -> R a c ->
    exists a', Store.foldM f a l = Some a' /\ R a' (foldl h c l).
Proof.
  intros Hstep l. induction l as [|b l IH]; intros a c HP HR; simpl.
  - eauto.
  - apply Forall_cons in HP as [Hb HP].
    destruct (Hstep a c b HR Hb) as (a' & -> & HR'). simpl. by apply IH.
Qed.

Section Sim.
Variables (m : Store.loc) (rs : list Store.loc) (st0 : Store.store).
Hypothesis Hnodup : NoDup rs.

Local Abbreviation sim := (simulates m rs st0).

Lemma getCell_sim (st : Store.store) (g : Matrix) (i j : nat) :
  sim st g -> i < length rs ->
  exists r, g !! i = Some r /\ Store.getCell st m i j = Some (js_get r (Z.of_nat j)).
Proof.
  intros (Hm & [Hlen Hh] & _) Hi.
  destruct (lookup_lt_is_Some_2 rs i Hi) as [l Hl].
  destruct (Hh i l Hl) as [Hrow [r Hr]]. exists r. split; [done|].
  unfold Store.getCell, Store.rowAt. rewrite Hm. simpl. rewrite Hl. simpl. rewrite Hrow, Hr. done.
Qed.

Lemma setRow_sim (st : Store.store) (g : Matrix) (i : nat) (l : Store.loc) (r' : list value) :
  sim st g -> rs !! i = Some l ->
  sim (Store.mkStore (<[l := r']> (Store.rowsOf st)) (Store.matsOf st)) (<[i := r']> g).
Proof.
  intros (Hm & [Hlen Hh] & Hw) Hl. destruct (Hh i l Hl) as [Hrow [r Hr]].
  rewrite Hr in Hrow. split; [done|]. split.
  - split; [by rewrite length_insert|]. simpl. intros i' l' Hl'.
    destruct (decide (i' = i)) as [->|Hne].
    + assert (l' = l) as -> by congruence.
      rewrite !list_lookup_insert_eq; [done|by eapply lookup_lt_Some..].
    + assert (l' <> l) as Hnel.
      { intros ->. apply Hne. by eapply NoDup_lookup. }
      rewrite !list_lookup_insert_ne by done. by apply Hh.
  - eapply within_trans; [done|]. split; [done|]. simpl. split; [by rewrite length_insert|].
    intros l' Hl'. apply list_lookup_insert_ne. intros ->. apply Hl'.
    by eapply list_elem_of_lookup_2.
Qed.

Lemma setCell_sim (st : Store.store) (g : Matrix) (i j : nat) (v : value) :
  sim st g -> i < length rs ->
  exists r st', g !! i = Some r /\ Store.setCell st m i j v = Some st' /\
    sim st' (<[i := js_set r (Z.of_nat j) v]> g).
Proof.
  intros Hsim Hi. pose proof Hsim as (Hm & [Hlen Hh] & Hw).
  destruct (lookup_lt_is_Some_2 rs i Hi) as [l Hl].
  destruct (Hh i l Hl) as [Hrow [r Hr]]. exists r. eexists. split; [done|].
  unfold Store.setCell, Store.rowAt. rewrite Hm. simpl. rewrite Hl. simpl. rewrite Hrow, Hr. simpl.
  split; [done|]. by apply setRow_sim.
Qed.

Lemma swapCells_sim (y : nat) (st : Store.store) (g : Matrix) (x : nat) :
  y < length rs -> sim st g -> x < length rs ->
  exists st', Store.swapCells m y st x = Some st' /\ sim st' (swapCells g x y).
Proof.
  intros Hy Hsim Hx. unfold Store.swapCells, swapCells.
  destruct (getCell_sim st g y x Hsim Hy) as (ry & Hry & ->).
  destruct (getCell_sim st g x y Hsim Hx) as (rx & Hrx & ->). simpl.
  destruct (setCell_sim st g x y (js_get ry (Z.of_nat x)) Hsim Hx) as (rx' & st1 & Hrx' & -> & Hsim1).
  assert (rx' = rx) as -> by congruence. simpl.
  destruct (setCell_sim st1 _ y x (js_get rx (Z.of_nat y)) Hsim1 Hy) as (ry1 & st2 & Hry1 & -> & Hsim2).
  exists st2. split; [done|]. by rewrite Hrx, Hry, Hry1.
Qed.

Lemma transposeRow_sim (st : Store.store) (g : Matrix) (y : nat) :
  sim st g -> y < length rs ->
  exists st', Store.transposeRow m st y = Some st' /\ sim st' (transposeRow g y).
Proof.
  intros Hsim Hy. unfold Store.transposeRow, transposeRow.
  apply (foldM_sim sim (fun x => x < length rs)); [|
    |done].
  - intros a c b Ha Hb. by apply swapCells_sim.
  - apply Forall_forall. intros x Hin. apply elem_of_seq in Hin. lia.
Qed.

Lemma transpose_sim (st : Store.store) (g : Matrix) :
  sim st g -> exists st', Store.transpose st m = Some st' /\ sim st' (transpose g).
Proof.
  intros Hsim. unfold Store.transpose, transpose.
  pose proof Hsim as (Hm & [Hlen _] & _). rewrite Hm. simpl. rewrite Hlen.
  apply (foldM_sim sim (fun y => y < length rs)); [| |done].
  - intros a c b Ha Hb. by apply transposeRow_sim.
  - apply Forall_forall. intros x Hin. apply elem_of_seq in Hin. lia.
Qed.

Lemma revUpTo_0 (g : Matrix) : revUpTo 0 g = g.
Proof.
  apply list_eq. intros i. unfold revUpTo. rewrite list_lookup_imap.
  by destruct (g !! i).
Qed.

Lemma revUpTo_all (g : Matrix) : revUpTo (length g) g = map (@reverse value) g.
Proof.
  apply list_eq. intros i. unfold revUpTo.
  change (map (@reverse value)) with (fmap (M := list) (@reverse value)).
  rewrite list_lookup_imap, list_lookup_fmap.
  destruct (g !! i) eqn:Hi; [|done]. simpl. apply lookup_lt_Some in Hi.
  case_decide; [done|lia].
Qed.

Lemma revUpTo_S (k : nat) (g : Matrix) (r : list value) :
  g !! k = Some r -> <[k := reverse r]> (revUpTo k g) = revUpTo (S k) g.
Proof.
  intros Hr. apply list_eq. intros i. unfold revUpTo.
  rewrite list_lookup_insert, !list_lookup_imap, length_imap.
  case_decide as Hc.
  - destruct Hc as [<- Hlt]. rewrite Hr. simpl. case_decide; [done|lia].
  - destruct (g !! i) eqn:Hi; [|done]. simpl. apply lookup_lt_Some in Hi.
    repeat case_decide; try done; lia.
Qed.

Lemma foldM_snoc {A B : Type} (f : A -> B -> option A) (a : A) (l : list B) (b : B) :
  Store.foldM f a (l ++ [b]) = Store.foldM f a l ≫= fun a' => f a' b.
Proof.
  revert a. induction l as [|b' l IH]; intros a; simpl.
  - by destruct (f a b).
  - destruct (f a b'); [apply IH|done].
Qed.

Lemma reverseRows_prefix (st : Store.store) (g : Matrix) (k : nat) :
  sim st g -> k <= length rs ->
  exists st', Store.foldM Store.reverseRow st (take k rs) = Some st' /\ sim st' (revUpTo k g).
Proof.
  intros Hsim Hk. induction k as [|k IH].
  - exists st. by rewrite revUpTo_0.
  - destruct IH as (st1 & Hfold & Hsim1); [lia|].
    destruct (lookup_lt_is_Some_2 rs k) as [l Hl]; [lia|].
    rewrite (take_S_r _ _ _ Hl), foldM_snoc, Hfold. simpl.
    pose proof Hsim as (_ & [Hlen Hh] & _).
    destruct (Hh k l Hl) as [_ [r Hr]].
    pose proof Hsim1 as (_ & [_ Hh1] & _).
    destruct (Hh1 k l Hl) as [Hrow1 _].
    assert (revUpTo k g !! k = Some r) as Hrk.
    { unfold revUpTo. rewrite list_lookup_imap, Hr. simpl. case_decide; [lia|done]. }
    unfold Store.reverseRow. rewrite Hrow1, Hrk. simpl. eexists. split; [done|].
    rewrite <- (revUpTo_S k g r Hr). by apply setRow_sim.
Qed.

Lemma mapReverse_sim (st : Store.store) (g : Matrix) :
  sim st g ->
  exists st1, Store.mapReverse st m =
      Some (Store.mkStore (Store.rowsOf st1) (Store.matsOf st1 ++ [rs]),
            length (Store.matsOf st1)) /\
    sim st1 (map (@reverse value) g).
Proof.
  intros Hsim. pose proof Hsim as (Hm & [Hlen _] & _).
  destruct (reverseRows_prefix st g (length rs) Hsim) as (st1 & Hfold & Hsim1); [done|].
  rewrite firstn_all in Hfold. rewrite <- Hlen, revUpTo_all in Hsim1.
  exists st1. split; [|done]. unfold Store.mapReverse. rewrite Hm. simpl. by rewrite Hfold.
Qed.

End Sim.

Lemma holds_reverse (st : Store.store) (rs : list Store.loc) (g : Matrix) :
  holds st rs g -> holds st (reverse rs) (reverse g).
Proof.
  intros [Hlen Hh]. split; [by rewrite !length_reverse|]. intros i l Hl.
  assert (i < length rs) as Hi.
  { apply lookup_lt_Some in Hl. by rewrite length_reverse in Hl. }
  rewrite reverse_lookup in Hl by done. rewrite reverse_lookup by lia.
  rewrite Hlen. by apply Hh.
Qed.

Lemma holds_ext (st st' : Store.store) (rs : list Store.loc) (g : Matrix) :
  (forall l, l ∈ rs -> Store.rowsOf st' !! l = Store.rowsOf st !! l) ->
  holds st rs g -> holds st' rs g.
Proof.
  intros Hext [Hlen Hh]. split; [done|]. intros i l Hl.
  rewrite Hext by (by eapply list_elem_of_lookup_2). by apply Hh.
Qed.

(** [Store.rotate] on a matrix of pairwise distinct rows: it returns, the
    result stands for the rotated grid, and nothing but the rows of the
    argument (and, for [dir <= 0], its outer array) has changed.  For
    [dir > 0] the argument itself is left standing for the rotated grid. *)
Lemma rotate_sim (st : Store.store) (m : Store.loc) (rs : list Store.loc) (g : Matrix) (dir : Z) :
  NoDup rs -> Store.matsOf st !! m = Some rs -> holds st rs g ->
  exists st' r, Store.rotate st m dir = Some (st', r) /\
    Store.content st' r = Some (rotate g dir) /\
    length (Store.rowsOf st') = length (Store.rowsOf st) /\
    (forall l, l ∉ rs -> Store.rowsOf st' !! l = Store.rowsOf st !! l) /\
    (forall m', m' <> m -> m' < length (Store.matsOf st) ->
       Store.matsOf st' !! m' = Store.matsOf st !! m') /\
    ((dir > 0)%Z -> Store.content st' m = Some (rotate g dir)).
Proof.
  intros Hnodup Hm Hh. assert (simulates m rs st st g) as Hsim by done.
  destruct (transpose_sim m rs st Hnodup st g Hsim) as (st1 & Htr & Hsim1).
  unfold Store.rotate, rotate. rewrite Htr. simpl.
  destruct (Z.gtb_spec dir 0) as [Hdir|Hdir].
  - destruct (mapReverse_sim m rs st Hnodup st1 _ Hsim1) as (st2 & -> & Hm2 & Hh2 & Hw2 & Hl2 & Hr2).
    eexists _, _. split; [done|]. simpl.
    assert (holds (Store.mkStore (Store.rowsOf st2) (Store.matsOf st2 ++ [rs])) rs
              (map (@reverse value) (transpose g))) as Hh2' by (by eapply holds_ext).
    split; [|split; [done|split; [done|split]]].
    + apply content_holds. exists rs. split; [|done]. simpl.
      by rewrite lookup_app_r, Nat.sub_diag.
    + intros m' _ Hm'. simpl. rewrite Hw2. by rewrite lookup_app_l.
    + intros _. apply content_holds. exists rs. split; [|done]. simpl.
      apply lookup_app_l_Some. done.
  - destruct Hsim1 as (Hm1 & Hh1 & Hw1 & Hl1 & Hr1).
    unfold Store.reverseMatrix. rewrite Hm1. simpl. eexists _, _. split; [done|]. simpl.
    split; [|split; [done|split; [done|split]]].
    + apply content_holds. exists (reverse rs). simpl. split.
      * apply list_lookup_insert_eq. by eapply lookup_lt_Some.
      * eapply holds_ext; [|by apply holds_reverse]. done.
    + intros m' Hne _. simpl. rewrite list_lookup_insert_ne by done. by rewrite Hw1.
    + lia.
Qed.

Lemma copyMatrix_holds (st : Store.store) (sh : Store.loc) (g : Matrix) :
  Store.content st sh = Some g ->
  exists st1,
    Store.copyMatrix st sh = Some (st1, length (Store.matsOf st)) /\
    Store.rowsOf st1 = Store.rowsOf st ++ map spread g /\
    Store.matsOf st1 =
      Store.matsOf st ++ [seq (length (Store.rowsOf st)) (length g)] /\
    holds st1 (seq (length (Store.rowsOf st)) (length g)) (map spread g).
Proof.
  intros Hc. unfold Store.copyMatrix. rewrite Hc. simpl. eexists. split; [done|].
  simpl. split; [done|]. split; [done|]. split.
  - by rewrite length_map, length_seq.
  - intros i l Hl. apply lookup_seq in Hl as [-> Hi]. simpl.
    rewrite lookup_app_r by lia.
    replace (length (Store.rowsOf st) + i - length (Store.rowsOf st)) with i by lia.
    split; [done|]. apply lookup_lt_is_Some_2. by rewrite length_map.
Qed.

Lemma content_frame (st st' : Store.store) (m : Store.loc) (g : Matrix) :
  (forall l, l < length (Store.rowsOf st) -> Store.rowsOf st' !! l = Store.rowsOf st !! l) ->
  (forall m', m' < length (Store.matsOf st) -> Store.matsOf st' !! m' = Store.matsOf st !! m') ->
  Store.content st m = Some g -> Store.content st' m = Some g.
Proof.
  intros Hrows Hmats Hc. apply content_holds in Hc as (rs & Hm & Hh).
  apply content_holds. exists rs. split.
  - rewrite Hmats; [done|]. by eapply lookup_lt_Some.
  - eapply holds_ext; [|done]. intros l Hl. apply Hrows.
    apply list_elem_of_lookup in Hl as [i Hi]. destruct Hh as [_ Hh].
    destruct (Hh i l Hi) as [Hrow [r Hr]]. rewrite Hr in Hrow. by eapply lookup_lt_Some.
Qed.

Lemma rotateCopy_sim (st : Store.store) (sh : Store.loc) (g : Matrix) :
  Store.content st sh = Some g ->
  exists st' r, Store.rotateCopy st sh = Some (st', r) /\
    Store.content st' r = Some (rotate (map spread g) 1) /\
    (forall l, l < length (Store.rowsOf st) -> Store.rowsOf st' !! l = Store.rowsOf st !! l) /\
    (forall m', m' < length (Store.matsOf st) ->
       Store.matsOf st' !! m' = Store.matsOf st !! m').
Proof.
  intros Hc. destruct (copyMatrix_holds st sh g Hc) as (st1 & Hcopy & Hrows1 & Hmats1 & Hh1).
  destruct (rotate_sim st1 (length (Store.matsOf st))
              (seq (length (Store.rowsOf st)) (length g)) (map spread g) 1 (NoDup_seq _ _))
    as (st' & r & Hrot & Hres & _ & Hrows & Hmats & _); [|done|].
  { rewrite Hmats1. by rewrite lookup_app_r, Nat.sub_diag. }
  exists st', r. unfold Store.rotateCopy. rewrite Hcopy. simpl. split; [done|].
  split; [done|]. split.
  - intros l Hl. rewrite Hrows, Hrows1; [by rewrite lookup_app_l|].
    intros Hin. apply elem_of_seq in Hin. lia.
  - intros m' Hm'. rewrite Hmats, Hmats1; [by rewrite lookup_app_l|lia|].
    rewrite Hmats1, length_app. simpl. lia.
Qed.

End StoreRotation.

(** C3, as stated, fails: [rotate] called on the T shape of the catalog
    leaves the array it was given holding the rotated shape. *)
Lemma rotate_mutates_its_argument :
  exists st' r,
    Store.content (Store.catalogStore KT) 0%nat = Some (shape (TETROMINOES KT)) /\
    Store.rotate (Store.catalogStore KT) 0%nat 1 = Some (st', r) /\
    Store.content st' 0%nat <> Some (shape (TETROMINOES KT)).
Proof.
  eexists _, _. split; [reflexivity|]. split; [reflexivity|]. vm_compute. discriminate.
Qed.

(** C3, as the code has it. [rotate] works in place: called on a matrix of
    pairwise distinct rows it leaves the matrix it was given holding the
    rotated grid, as does the array it returns.  The key handler never
    gives it a stored shape: it rotates a copy made on the spot, the
    result is the rotation of the copied grid, and every matrix of the
    store from before the call, the active piece's and the catalog's among
    them, holds what it held. *)
Theorem rotate_in_place_on_copy (st : Store.store) (sh : Store.loc) (g : Matrix) :
  Store.content st sh = Some g ->
  (forall rs, Store.matsOf st !! sh = Some rs -> NoDup rs ->
     exists st' r, Store.rotate st sh 1 = Some (st', r) /\
       Store.content st' sh = Some (rotate g 1) /\
       Store.content st' r = Some (rotate g 1)) /\
  (exists st' r, Store.rotateCopy st sh = Some (st', r) /\
     Store.content st' r = Some (rotate (map spread g) 1) /\
     forall m g', Store.content st m = Some g' -> Store.content st' m = Some g').
Proof.
  intros Hc. split.
  - intros rs Hm Hnodup. apply content_holds in Hc as (rs' & Hm' & Hh).
    assert (rs' = rs) as -> by congruence.
    destruct (rotate_sim st sh rs g 1 Hnodup Hm Hh) as (st' & r & Hrot & Hres & _ & _ & _ & Harg).
    exists st', r. split; [done|]. split; [apply Harg; lia|done].
  - destruct (rotateCopy_sim st sh g Hc) as (st' & r & Hrot & Hres & Hrows & Hmats).
    exists st', r. split; [done|]. split; [done|].
    intros m g'. by apply content_frame.
Qed.

Lemma rotate_in_place_on_copy_witness :
  exists st' r, Store.rotateCopy (Store.catalogStore KT) 0%nat = Some (st', r) /\
    Store.content st' r = Some (rotate (map spread (shape (TETROMINOES KT))) 1) /\
    forall m g', Store.content (Store.catalogStore KT) m = Some g' ->
      Store.content st' m = Some g'.
Proof.
  apply (rotate_in_place_on_copy (Store.catalogStore KT) 0%nat (shape (TETROMINOES KT))).
  reflexivity.
Defined.


(** ** The engine's invariant *)

Lemma noCollision_inBounds (sh : Matrix) (b : Board) (p : Pos) :
  checkCollision sh b p = false -> 0 <= py p -> inBounds sh p.
Proof.
  intros Hcol Hy r c Hocc.
  assert (~ blocked b (landX p c) (landY p r)) as Hnb.
  { intros Hb. assert (checkCollision sh b p = true); [|congruence].
    apply checkCollision_iff. eauto. }
  unfold blocked, outOfBounds in Hnb. unfold landY in *. lia.
Qed.

Lemma dropLoop_spec (fuel : nat) (sh : Matrix) (b : Board) (x y d : Z) :
  dropLoop fuel sh b x y = Some d ->
  y <= d /\ checkCollision sh b (mkPos x (d + 1)) = true /\
  (d = y \/ checkCollision sh b (mkPos x d) = false).
Proof.
  revert y. induction fuel as [|fuel IH]; intros y; simpl; [done|].
  destruct (checkCollision sh b (mkPos x (y + 1))) eqn:Hc; simpl.
  - intros [= <-]. split; [lia|]. split; [done|]. by left.
  - intros Hd. destruct (IH _ Hd) as (Hle & Hstop & [->|Hfree]).
    + split; [lia|]. split; [done|]. by right.
    + split; [lia|]. split; [done|]. by right.
Qed.

Lemma dropLoop_total (fuel : nat) (sh : Matrix) (b : Board) (x y : Z) (r c : nat) :
  occupied sh r c ->
  1 <= Z.of_nat fuel -> BOARD_HEIGHT - (y + Z.of_nat r) <= Z.of_nat fuel ->
  exists d, dropLoop fuel sh b x y = Some d.
Proof.
  intros Hocc. revert y. induction fuel as [|fuel IH]; intros y H1 Hfuel; [lia|]. simpl.
  destruct (checkCollision sh b (mkPos x (y + 1))) eqn:Hc; simpl; [eauto|].
  assert (landY (mkPos x (y + 1)) r < BOARD_HEIGHT) as Hlow.
  { destruct (Z.lt_ge_cases (landY (mkPos x (y + 1)) r) BOARD_HEIGHT) as [|Hge]; [done|].
    assert (checkCollision sh b (mkPos x (y + 1)) = true); [|congruence].
    apply checkCollision_iff. exists r, c. split; [done|]. left. unfold outOfBounds. lia. }
  unfold landY in Hlow. simpl in Hlow. apply IH; lia.
Qed.

Lemma occupied_tab (n : nat) (f : nat -> nat -> value) (i j : nat) :
  occupied (tab n f) i j <-> (i < n)%nat /\ (j < n)%nat /\ neq0 (f i j) = true.
Proof.
  unfold occupied. split.
  - intros (cells & v & Hi & Hj & Hv).
    assert (i < n)%nat as Hin by (apply lookup_lt_Some in Hi; by rewrite tab_length in Hi).
    rewrite tab_lookup in Hi by done. injection Hi as <-.
    assert (j < n)%nat as Hjn.
    { apply lookup_lt_Some in Hj. by rewrite length_fmap, length_seq in Hj. }
    rewrite row_lookup in Hj by done. injection Hj as <-. done.
  - intros (Hi & Hj & Hv). exists (f i <$> seq 0 n), (f i j).
    by rewrite tab_lookup, row_lookup.
Qed.

Lemma spread_squareGrid (n : nat) (sh : Matrix) :
  squareGrid n sh -> map spread sh = sh.
Proof.
  intros [_ Hrows]. induction Hrows as [|r sh [_ Hr] _ IH]; [done|].
  simpl. rewrite IH. f_equal. unfold spread.
  induction Hr as [|v r Hv _ IHr]; [done|]. simpl. rewrite IHr. by destruct v.
Qed.

Lemma pieceShape_rotate (sh : Matrix) (dir : Z) :
  pieceShape sh -> pieceShape (rotate (map spread sh) dir).
Proof.
  intros [[n Hsq] (r & c & Hocc)]. rewrite (spread_squareGrid n sh Hsq). split.
  - exists n. by apply rotate_squareGrid.
  - destruct (squareGrid_tab n sh Hsq) as [Heq Hf]. rewrite Heq in Hocc |- *.
    rewrite rotate_tab by done.
    apply occupied_tab in Hocc as (Hr & Hc & Hv). unfold rotF.
    destruct (dir >? 0).
    + exists c, (n - 1 - r)%nat. apply occupied_tab. split; [done|]. split; [lia|].
      by replace (n - 1 - (n - 1 - r))%nat with r by lia.
    + exists (n - 1 - c)%nat, r. apply occupied_tab. split; [lia|]. split; [done|].
      by replace (n - 1 - (n - 1 - c))%nat with c by lia.
Qed.

Lemma pieceShape_catalog (type : TetrominoKey) : pieceShape (shape (TETROMINOES type)).
Proof.
  split.
  - destruct type; cbn [TETROMINOES shape]; eexists; apply squareGrid_grid; reflexivity.
  - destruct type;
      first [ exists 0%nat, 0%nat; eexists _, _; repeat split; reflexivity
            | exists 1%nat, 0%nat; eexists _, _; repeat split; reflexivity ].
Qed.

Lemma newTetromino_inv (type : TetrominoKey) (refs st : State) :
  inv st -> inv (newTetromino type refs st).
Proof.
  intros (Hwf & Hsc & Hpy & Hpiece). unfold newTetromino.
  destruct (checkCollision _ _ _) eqn:Hcol; [done|].
  split; [done|]. split; [done|]. split; [done|]. simpl.
  intros t [= <-]. split; [apply pieceShape_catalog|].
  by eapply noCollision_inBounds.
Qed.

Lemma updateBoard_inv (t : Tetromino) (p : Pos) (st : State) :
  inv st -> inBounds (shape t) p ->
  exists st', updateBoard t p st = Some st' /\ inv st' /\ score st <= score st'.
Proof.
  intros (Hwf & Hsc & Hpy & Hpiece) Hin. unfold updateBoard.
  destruct (lockLines_wf t p (board st) Hwf Hin) as (b' & n & -> & Hwf' & Hn).
  eexists. split; [done|].
  destruct (n >? 0); (split; [|simpl; lia]); (split; [done|]); (split; [simpl; lia|]); done.
Qed.

Lemma lockAndSpawn_inv (type : TetrominoKey) (refs st : State) (t : Tetromino) :
  inv st -> inBounds (shape t) (currentPos refs) ->
  exists s', lockAndSpawn type refs st t = Done s' /\ inv s'.
Proof.
  intros Hinv Hin. unfold lockAndSpawn.
  destruct (updateBoard_inv t (currentPos refs) st Hinv Hin) as (st' & -> & Hinv' & _).
  eexists. split; [done|]. by apply newTetromino_inv.
Qed.

Lemma move_inv (s : State) (t : Tetromino) (newShape : Matrix) (newX newY : Z) :
  inv s -> pieceShape newShape -> py (currentPos s) <= newY ->
  checkCollision newShape (board s) (mkPos newX newY) = false ->
  inv (setCurrentTetromino (Some (mkTetromino newShape (color t)))
         (setCurrentPos (mkPos newX newY) s)).
Proof.
  intros (Hwf & Hsc & Hpy & Hpiece) Hshape Hy Hcol.
  split; [done|]. split; [done|]. simpl. split; [lia|].
  intros t' [= <-]. simpl. split; [done|]. eapply noCollision_inBounds; [done|]. simpl. lia.
Qed.

Lemma handleKeyDown_inv (fuel : nat) (e : Key) (type : TetrominoKey) (s : State) :
  inv s ->
  match handleKeyDown fuel e type s with
  | Done s' => inv s'
  | Throws => False
  | OutOfFuel => Z.of_nat fuel < BOARD_HEIGHT
  end.
Proof.
  intros Hinv. unfold handleKeyDown.
  destruct (negb (gameStarted s) || gameOver s); [done|].
  destruct (currentTetromino s) as [t|] eqn:Ht; [|done].
  pose proof Hinv as (Hwf & Hsc & Hpy & Hpiece).
  destruct (Hpiece t Ht) as [Hshape Hin].
  assert (forall newShape newX newY,
    pieceShape newShape -> py (currentPos s) <= newY ->
    forall o, (checkCollision newShape (board s) (mkPos newX newY) = true ->
               match o with Done s' => inv s' | _ => False end) ->
    match (if negb (checkCollision newShape (board s) (mkPos newX newY))
           then Done (setCurrentTetromino (Some (mkTetromino newShape (color t)))
                        (setCurrentPos (mkPos newX newY) s))
           else o) with
    | Done s' => inv s'
    | Throws => False
    | OutOfFuel => Z.of_nat fuel < BOARD_HEIGHT
    end) as Hmove.
  { intros newShape newX newY Hs Hy o Ho.
    destruct (checkCollision newShape (board s) (mkPos newX newY)) eqn:Hcol; simpl.
    - specialize (Ho eq_refl). by destruct o.
    - by apply move_inv. }
  destruct e.
  - apply Hmove; [done|lia|]. intros _. by case_decide.
  - apply Hmove; [done|lia|]. intros _. by case_decide.
  - apply Hmove; [done|lia|]. intros _. case_decide; [|done].
    destruct (lockAndSpawn_inv type s s t Hinv Hin) as (s' & -> & Hinv'). done.
  - apply Hmove; [by apply pieceShape_rotate|lia|]. intros _. by case_decide.
  - destruct (dropLoop fuel (shape t) (board s) (px (currentPos s)) (py (currentPos s)))
      as [d|] eqn:Hdrop.
    + apply dropLoop_spec in Hdrop as (Hle & _ & Hd).
      split; [done|]. split; [done|]. simpl. split; [lia|].
      intros t' Ht'. assert (t' = t) as -> by congruence. split; [done|].
      destruct Hd as [->|Hfree]; [by destruct (currentPos s)|].
      eapply noCollision_inBounds; [done|]. simpl. lia.
    + destruct Hshape as [_ (r & c & Hocc)].
      destruct (Z.lt_ge_cases (Z.of_nat fuel) BOARD_HEIGHT) as [|Hge]; [done|].
      destruct (dropLoop_total fuel (shape t) (board s) (px (currentPos s))
                  (py (currentPos s)) r c Hocc) as [d Hd];
        [unfold BOARD_HEIGHT in *; lia..|congruence].
  - apply Hmove; [done|lia|]. intros _. by case_decide.
Qed.

Lemma gameLoop_inv (time : Z) (type : TetrominoKey) (s : State) :
  inv s -> exists s', gameLoop time type s = Done s' /\ inv s'.
Proof.
  intros Hinv. unfold gameLoop.
  destruct (negb (gameStarted s) || gameOver s); [eauto|].
  pose proof Hinv as (Hwf & Hsc & Hpy & Hpiece).
  match goal with |- context [if ?c then _ else _] => destruct c end; [|eauto].
  destruct (currentTetromino s) as [t|] eqn:Ht; [|eauto].
  destruct (Hpiece t eq_refl) as [Hshape Hin].
  destruct (checkCollision (shape t) (board s) _) eqn:Hcol; simpl.
  - apply lockAndSpawn_inv; [|done]. split; [done|]. split; [done|]. split; [done|].
    simpl. by rewrite Ht.
  - eexists. split; [done|]. split; [done|]. split; [done|]. simpl. split; [lia|].
    intros t' Ht'. assert (t' = t) as -> by congruence. split; [done|].
    eapply noCollision_inBounds; [done|]. simpl. lia.
Qed.

Lemma startGame_inv (type : TetrominoKey) (s : State) : inv s -> inv (startGame type s).
Proof.
  intros (Hwf & Hsc & Hpy & Hpiece). unfold startGame.
  assert (inv (setGameStarted true (setGameOver false (setScore 0 (setBoard createBoard s)))))
    as Hst.
  { split; [|done]. split; [reflexivity|]. apply Forall_forall. intros r Hr.
    apply elem_of_replicate in Hr as [-> _]. reflexivity. }
  apply (newTetromino_inv type s) in Hst. exact Hst.
Qed.

Lemma step_inv (fuel : nat) (ev : Event) (s : State) :
  inv s ->
  match step fuel ev s with
  | Done s' => inv s'
  | Throws => False
  | OutOfFuel => Z.of_nat fuel < BOARD_HEIGHT
  end.
Proof.
  intros Hinv. destruct ev as [type|e type|time type]; simpl.
  - destruct (gameStarted s && negb (gameOver s)); [done|by apply startGame_inv].
  - by apply handleKeyDown_inv.
  - destruct (gameLoop_inv time type s Hinv) as (s' & -> & Hinv'). done.
Qed.

Lemma run_inv (fuel : nat) (evs : list Event) (s s' : State) :
  inv s -> run fuel evs s = Done s' -> inv s'.
Proof.
  revert s. induction evs as [|ev evs IH]; intros s Hinv; simpl.
  - by intros [= <-].
  - pose proof (step_inv fuel ev s Hinv) as Hstep.
    destruct (step fuel ev s) as [s1| |]; [|done..]. by apply IH.
Qed.

Lemma inv_initialState : inv initialState.
Proof.
  split; [|done]. split; [reflexivity|]. apply Forall_forall. intros r Hr.
  apply elem_of_replicate in Hr as [-> _]. reflexivity.
Qed.

Lemma reachable_inv (s : State) : reachable s -> inv s.
Proof. intros (fuel & evs & Hrun). eapply run_inv; [apply inv_initialState|done]. Qed.

(** With fuel for a board's height of iterations, no event fails in a
    reachable state. *)
Lemma step_total (fuel : nat) (ev : Event) (s : State) :
  inv s -> BOARD_HEIGHT <= Z.of_nat fuel -> exists s', step fuel ev s = Done s' /\ inv s'.
Proof.
  intros Hinv Hfuel. pose proof (step_inv fuel ev s Hinv) as Hstep.
  destruct (step fuel ev s) as [s'| |]; [eauto|done|lia].
Qed.

(** ** The session when it is not running *)

Lemma stopped_guard (s : State) : stopped s -> negb (gameStarted s) || gameOver s = true.
Proof. intros [H|H]; rewrite H; [done|apply orb_true_r]. Qed.

Lemma step_stopped (fuel : nat) (ev : Event) (s : State) :
  stopped s -> isStart ev = false -> step fuel ev s = Done s.
Proof.
  intros Hs Hev. destruct ev as [type|e type|time type]; [done| |]; simpl.
  - unfold handleKeyDown. by rewrite stopped_guard.
  - unfold gameLoop. by rewrite stopped_guard.
Qed.

(** C10. Once the session is not running (not started, or over), every
    key and every animation frame leaves the whole state as it is, board,
    score, active piece and offset included, however many of them come; an
    event that changes the state is a click on the start button. *)
Theorem stopped_frozen (fuel : nat) (s : State) :
  stopped s ->
  (forall evs, Forall (fun ev => isStart ev = false) evs -> run fuel evs s = Done s) /\
  (forall ev s', step fuel ev s = Done s' -> s' <> s -> isStart ev = true).
Proof.
  intros Hs. split.
  - intros evs Hevs. induction Hevs as [|ev evs Hev _ IH]; [done|].
    simpl. by rewrite step_stopped.
  - intros ev s' Hstep Hne. destruct (isStart ev) eqn:Hev; [done|].
    rewrite step_stopped in Hstep by done. congruence.
Qed.

Lemma stopped_frozen_witness :
  run 0 [KeyDown ArrowLeft KT; Frame 5000 KI; KeyDown Space KO] initialState
  = Done initialState.
Proof.
  apply (stopped_frozen 0 initialState); [by left|].
  repeat constructor.
Defined.

(** ** Locking *)

Lemma running_guard (s : State) :
  gameStarted s = true -> gameOver s = false -> negb (gameStarted s) || gameOver s = false.
Proof. by intros -> ->. Qed.

(** What both handlers do when the piece cannot go one row down. *)
Lemma blocked_down_locks (fuel : nat) (time : Z) (type : TetrominoKey)
    (s : State) (t : Tetromino) :
  inv s -> gameStarted s = true -> gameOver s = false ->
  currentTetromino s = Some t ->
  checkCollision (shape t) (board s)
    (mkPos (px (currentPos s)) (py (currentPos s) + 1)) = true ->
  exists b n,
    lockLines t (currentPos s) (board s) = Some (b, n) /\
    handleKeyDown fuel ArrowDown type s = Done (newTetromino type s (locked b n s)) /\
    (dropDue time s ->
     exists s2, gameLoop time type s = Done s2 /\
       sameGame s2 (newTetromino type s (locked b n s))).
Proof.
  intros Hinv Hst Hov Ht Hcol.
  destruct Hinv as (Hwf & _ & _ & Hpiece). destruct (Hpiece t Ht) as [_ Hin].
  destruct (lockLines_wf t (currentPos s) (board s) Hwf Hin) as (b & n & Hlock & _ & _).
  exists b, n. split; [done|]. split.
  - unfold handleKeyDown. rewrite running_guard, Ht by done. rewrite Hcol. simpl.
    unfold lockAndSpawn, updateBoard. by rewrite Hlock.
  - intros Hdue. unfold gameLoop. rewrite running_guard by done.
    unfold dropDue in Hdue. simpl.
    destruct (Z.gtb_spec (dropTime s + (time - (if lastTime s =? 0 then time else lastTime s)))
                dropInterval) as [_|Hle]; [|lia].
    rewrite Ht, Hcol. simpl. unfold lockAndSpawn, updateBoard. simpl. rewrite Hlock.
    eexists. split; [done|].
    unfold newTetromino, locked, sameGame.
    destruct (checkCollision (shape (TETROMINOES type)) (board s)
                (mkPos (startX (TETROMINOES type)) startY));
      destruct (n >? 0); simpl; repeat split.
Qed.

Lemma reachable_spawnedO : reachable spawnedO.
Proof. by exists 20%nat, [Start KO]. Qed.

Lemma reachable_restingO : reachable restingO.
Proof. by exists 20%nat, [Start KO; KeyDown Space KO; Frame 16 KO]. Qed.

(** ** Score *)

Lemma clearLoop_count (b : Board) (y n : Z) (b' : Board) (n' : Z) :
  clearLoop b y n = Some (b', n') -> n <= n'.
Proof.
  funelim (clearLoop b y n).
  - intros [= _ <-]. lia.
  - done.
  - intros Hrec. apply H in Hrec. lia.
  - intros Hrec. by apply H in Hrec.
Qed.

Lemma writeCell_length (b : Board) (boardY boardX : Z) (c : value) (b' : Board) :
  writeCell b boardY boardX c = Some b' -> length b' = length b.
Proof.
  unfold writeCell. destruct (boardY <? 0); [done|].
  destruct (b !! Z.to_nat boardY); [|done]. intros [= <-]. apply length_insert.
Qed.

Lemma writeRow_length (cells : list value) (col : string) (p : Pos) (y x : Z) (b b' : Board) :
  writeRow cells col p y x b = Some b' -> length b' = length b.
Proof.
  revert x b. induction cells as [|v rest IH]; intros x b; simpl; [by intros [= <-]|].
  assert (match writeCell b (py p + y) (px p + x) (Str col) with
          | Some b0 => writeRow rest col p y (x + 1) b0
          | None => None
          end = Some b' -> length b' = length b) as Hwrite.
  { destruct (writeCell b (py p + y) (px p + x) (Str col)) as [b0|] eqn:Hw; [|done].
    intros Hrest. apply IH in Hrest. apply writeCell_length in Hw. congruence. }
  destruct v as [n| | |]; try done; [|by apply IH].
  destruct (neq0 (Num n)); [done|by apply IH].
Qed.

Lemma writeRows_length (rows : list (list value)) (col : string) (p : Pos) (y : Z) (b b' : Board) :
  writeRows rows col p y b = Some b' -> length b' = length b.
Proof.
  revert y b. induction rows as [|cells rest IH]; intros y b; simpl; [by intros [= <-]|].
  destruct (writeRow cells col p y 0 b) as [b0|] eqn:Hw; [|done].
  intros Hrest. apply IH in Hrest. apply writeRow_length in Hw. congruence.
Qed.

Lemma writePiece_length (t : Tetromino) (p : Pos) (b b' : Board) :
  writePiece t p b = Some b' -> length b' = length b.
Proof.
  unfold writePiece. intros H. apply writeRows_length in H. by rewrite length_map in H.
Qed.

Lemma updateBoard_score (t : Tetromino) (p : Pos) (st st' : State) :
  updateBoard t p st = Some st' ->
  exists b' n, lockLines t p (board st) = Some (b', n) /\ 0 <= n /\
    score st' = score st + 100 * n.
Proof.
  unfold updateBoard. destruct (lockLines t p (board st)) as [[b' n]|] eqn:Hlock; [|done].
  intros [= <-]. exists b', n. split; [done|].
  assert (0 <= n) as Hn.
  { unfold lockLines in Hlock. destruct (writePiece t p (board st)); [|done].
    by apply clearLoop_count in Hlock. }
  split; [done|]. destruct (Z.gtb_spec n 0); simpl; lia.
Qed.

Lemma lockAndSpawn_score (type : TetrominoKey) (refs st : State) (t : Tetromino) (s' : State) :
  lockAndSpawn type refs st t = Done s' -> score st <= score s'.
Proof.
  unfold lockAndSpawn. destruct (updateBoard t (currentPos refs) st) as [st'|] eqn:Hup; [|done].
  intros [= <-]. apply updateBoard_score in Hup as (b' & n & _ & Hn & Hsc).
  unfold newTetromino. destruct (checkCollision _ _ _); simpl; lia.
Qed.

Lemma step_score (fuel : nat) (ev : Event) (s s' : State) :
  isStart ev = false -> step fuel ev s = Done s' -> score s <= score s'.
Proof.
  destruct ev as [type|e type|time type]; [done| |]; intros _; simpl.
  - unfold handleKeyDown. destruct (negb (gameStarted s) || gameOver s); [by intros [= <-]|].
    destruct (currentTetromino s) as [t|]; [|by intros [= <-]].
    destruct e;
      repeat match goal with
      | |- context [if negb ?c then _ else _] => destruct c; simpl
      | |- context [if decide ?P then _ else _] => destruct (decide P)
      | |- context [match dropLoop ?a ?b ?c ?d ?e with _ => _ end] =>
          destruct (dropLoop a b c d e)
      end;
      try done; try (by intros [= <-]); try apply lockAndSpawn_score.
  - unfold gameLoop. destruct (negb (gameStarted s) || gameOver s); [by intros [= <-]|].
    match goal with |- context [if ?c then _ else _] => destruct c end;
      [|by intros [= <-]].
    destruct (currentTetromino s) as [t|]; [|by intros [= <-]].
    destruct (checkCollision (shape t) (board s) _); simpl; [|by intros [= <-]].
    intros H. by apply lockAndSpawn_score in H.
Qed.

(** C7. A lock adds 100 times the number of cleared rows to the score:
    the updater of [updateBoard] counts the rows it clears, these are the
    full rows of the board with the piece written, and the score grows by
    100 for each of them (by nothing when there is none).  So no key and
    no frame lowers the score, and the score of a session is never
    negative. *)
Theorem score_by_cleared_rows :
  (forall t p st st',
     length (board st) = Z.to_nat BOARD_HEIGHT -> updateBoard t p st = Some st' ->
     exists b, writePiece t p (board st) = Some b /\
       score st' = score st + 100 * Z.of_nat (countFull b)) /\
  (forall fuel ev s s',
     isStart ev = false -> step fuel ev s = Done s' -> score s <= score s') /\
  (forall s, reachable s -> 0 <= score s).
Proof.
  split; [|split].
  - intros t p st st' Hlen Hup.
    apply updateBoard_score in Hup as (b' & n & Hlock & _ & Hsc).
    unfold lockLines in Hlock.
    destruct (writePiece t p (board st)) as [b|] eqn:Hw; [|done].
    exists b. split; [done|]. rewrite clearLoop_all in Hlock.
    + injection Hlock as _ <-. lia.
    + apply writePiece_length in Hw. rewrite Hw, Hlen. reflexivity.
  - intros fuel ev s s'. apply step_score.
  - intros s Hs. by apply reachable_inv in Hs as (_ & Hsc & _).
Qed.

(** ** Spawning *)

(** C2, as the code has it. When the collision test of a spawn is
    positive, the session goes to "over" ([gameOver] set, [gameStarted]
    cleared) and the piece drawn for the spawn is not installed: the
    active piece and its offset, the board and the score stay what they
    were. *)
Theorem spawn_collision_ends_game (type : TetrominoKey) (refs st : State) :
  checkCollision (shape (TETROMINOES type)) (board refs)
    (mkPos (startX (TETROMINOES type)) startY) = true ->
  gameOver (newTetromino type refs st) = true /\
  gameStarted (newTetromino type refs st) = false /\
  currentTetromino (newTetromino type refs st) = currentTetromino st /\
  currentPos (newTetromino type refs st) = currentPos st /\
  board (newTetromino type refs st) = board st /\
  score (newTetromino type refs st) = score st.
Proof. intros Hcol. unfold newTetromino. by rewrite Hcol. Qed.

Lemma run_stackO_10 : run 20 (stackO 10) initialState = Done towerState.
Proof. vm_compute. reflexivity. Qed.

Lemma spawn_collision_ends_game_witness :
  gameOver (newTetromino KO towerState towerState) = true /\
  gameStarted (newTetromino KO towerState towerState) = false /\
  currentTetromino (newTetromino KO towerState towerState) = currentTetromino towerState /\
  currentPos (newTetromino KO towerState towerState) = currentPos towerState /\
  board (newTetromino KO towerState towerState) = board towerState /\
  score (newTetromino KO towerState towerState) = score towerState.
Proof. apply (spawn_collision_ends_game KO towerState towerState). reflexivity. Defined.

(** C2, as stated, fails: in the session that stacks ten O pieces, the
    down key locks the eleventh, the collision test of the spawn is
    positive and the session is over, but a piece is still installed. *)
Lemma spawn_collision_keeps_piece :
  exists s s',
    run 20 (stackO 10) initialState = Done s /\
    checkCollision (shape (TETROMINOES KO)) (board s)
      (mkPos (startX (TETROMINOES KO)) startY) = true /\
    handleKeyDown 20 ArrowDown KO s = Done s' /\
    gameOver s' = true /\
    currentTetromino s' = Some (TETROMINOES KO) /\
    currentTetromino (newTetromino KO s s) <> None.
Proof.
  eexists towerState, _. split; [apply run_stackO_10|].
  split; [reflexivity|]. split; [vm_compute; reflexivity|].
  split; [reflexivity|]. split; [reflexivity|]. discriminate.
Qed.

(** ** Hard drop *)

Lemma dropLoop_free (fuel : nat) (sh : Matrix) (b : Board) (x y d : Z) :
  dropLoop fuel sh b x y = Some d ->
  forall y', y < y' <= d -> checkCollision sh b (mkPos x y') = false.
Proof.
  revert y. induction fuel as [|fuel IH]; intros y; simpl; [done|].
  destruct (checkCollision sh b (mkPos x (y + 1))) eqn:Hc; simpl.
  - intros [= <-] y' Hy'. lia.
  - intros Hd y' Hy'. destruct (decide (y' = y + 1)) as [->|Hne]; [done|].
    apply (IH _ Hd). lia.
Qed.

(** What the space key does in a running session with a piece, given
    fuel for the loop. *)
Lemma hardDrop_spec (fuel : nat) (type : TetrominoKey) (s : State) (t : Tetromino) :
  inv s -> gameStarted s = true -> gameOver s = false ->
  currentTetromino s = Some t -> BOARD_HEIGHT <= Z.of_nat fuel ->
  exists d,
    dropLoop fuel (shape t) (board s) (px (currentPos s)) (py (currentPos s)) = Some d /\
    handleKeyDown fuel Space type s = Done (setCurrentPos (mkPos (px (currentPos s)) d) s) /\
    inv (setCurrentPos (mkPos (px (currentPos s)) d) s).
Proof.
  intros Hinv Hst Hov Ht Hfuel.
  pose proof (handleKeyDown_inv fuel Space type s Hinv) as Hk.
  unfold handleKeyDown in Hk |- *. rewrite running_guard, Ht in Hk |- * by done.
  destruct (dropLoop fuel (shape t) (board s) (px (currentPos s)) (py (currentPos s)))
    as [d|]; [|lia].
  by exists d.
Qed.

(** C1, as the code has it. In a running session with an active piece the
    space key only translates the piece: it goes down, row by row through
    positions that do not collide, to the first offset whose translation
    one row down collides; board, score, shape and flags are what they
    were, nothing is locked and nothing is spawned.  The lock, the line
    clear and the spawn come with the next down key, or with the next
    drop timeout. *)
Theorem hardDrop_moves_to_rest (fuel : nat) (type : TetrominoKey) (s : State) (t : Tetromino) :
  reachable s -> gameStarted s = true -> gameOver s = false ->
  currentTetromino s = Some t -> BOARD_HEIGHT <= Z.of_nat fuel ->
  exists d,
    let s' := setCurrentPos (mkPos (px (currentPos s)) d) s in
    handleKeyDown fuel Space type s = Done s' /\
    py (currentPos s) <= d /\
    (forall y', py (currentPos s) < y' <= d ->
       checkCollision (shape t) (board s) (mkPos (px (currentPos s)) y') = false) /\
    checkCollision (shape t) (board s) (mkPos (px (currentPos s)) (d + 1)) = true /\
    forall type' time, exists b n,
      lockLines t (currentPos s') (board s') = Some (b, n) /\
      handleKeyDown fuel ArrowDown type' s' = Done (newTetromino type' s' (locked b n s')) /\
      (dropDue time s' ->
       exists s2, gameLoop time type' s' = Done s2 /\
         sameGame s2 (newTetromino type' s' (locked b n s'))).
Proof.
  intros Hreach Hst Hov Ht Hfuel. apply reachable_inv in Hreach.
  destruct (hardDrop_spec fuel type s t Hreach Hst Hov Ht Hfuel) as (d & Hdrop & Hkey & Hinv').
  exists d. cbv zeta. split; [done|].
  destruct (dropLoop_spec _ _ _ _ _ _ Hdrop) as (Hle & Hstop & _).
  split; [done|]. split; [by eapply dropLoop_free|]. split; [done|].
  intros type' time.
  by apply (blocked_down_locks fuel time type' (setCurrentPos (mkPos (px (currentPos s)) d) s) t).
Qed.

Lemma hardDrop_moves_to_rest_witness :
  exists d,
    let s' := setCurrentPos (mkPos (px (currentPos spawnedO)) d) spawnedO in
    handleKeyDown 20 Space KT spawnedO = Done s' /\
    py (currentPos spawnedO) <= d /\
    (forall y', py (currentPos spawnedO) < y' <= d ->
       checkCollision (shape (TETROMINOES KO)) (board spawnedO)
         (mkPos (px (currentPos spawnedO)) y') = false) /\
    checkCollision (shape (TETROMINOES KO)) (board spawnedO)
      (mkPos (px (currentPos spawnedO)) (d + 1)) = true /\
    forall type' time, exists b n,
      lockLines (TETROMINOES KO) (currentPos s') (board s') = Some (b, n) /\
      handleKeyDown 20 ArrowDown type' s' = Done (newTetromino type' s' (locked b n s')) /\
      (dropDue time s' ->
       exists s2, gameLoop time type' s' = Done s2 /\
         sameGame s2 (newTetromino type' s' (locked b n s'))).
Proof.
  apply (hardDrop_moves_to_rest 20 KT spawnedO (TETROMINOES KO)).
  - exists 20%nat, [Start KO]. reflexivity.
  - reflexivity.
  - reflexivity.
  - reflexivity.
  - unfold BOARD_HEIGHT. simpl. lia.
Defined.

(** C1, as stated, fails: after the space key on a fresh O piece the
    board holds no cell of the piece, the piece is still the active one,
    at its resting offset, and the state is not the one that locking
    there gives. *)
Lemma hardDrop_does_not_lock :
  exists s',
    handleKeyDown 20 Space KT spawnedO = Done s' /\
    gameStarted spawnedO = true /\ gameOver spawnedO = false /\
    currentTetromino spawnedO = Some (TETROMINOES KO) /\
    currentPos s' = mkPos 4 18 /\
    board s' = createBoard /\
    currentTetromino s' = Some (TETROMINOES KO) /\
    lockAndSpawn KT s' s' (TETROMINOES KO) <> Done s'.
Proof.
  eexists. split; [vm_compute; reflexivity|]. repeat (split; [reflexivity|]).
  vm_compute. discriminate.
Qed.

(** When the piece does not collide where it stands, it does not collide
    where the hard drop leaves it either, and one row lower it does. *)
Lemma hardDrop_rests (fuel : nat) (sh : Matrix) (b : Board) (x y d : Z) :
  checkCollision sh b (mkPos x y) = false ->
  dropLoop fuel sh b x y = Some d ->
  checkCollision sh b (mkPos x d) = false /\
  checkCollision sh b (mkPos x (d + 1)) = true.
Proof.
  intros Hfree Hdrop. destruct (dropLoop_spec _ _ _ _ _ _ Hdrop) as (_ & Hstop & [->|Hd]); done.
Qed.

(** C9, on the code. In the session that stacks ten O pieces in the spawn
    columns, the eleventh piece is spawned over the cells that the tenth
    has just been written into: the collision test of the spawn read the
    board of the last render.  The space key leaves that piece where it
    is, and there it collides. *)
Theorem hardDrop_rests_in_collision :
  exists s s',
    run 20 (stackO 10) initialState = Done s /\
    gameStarted s = true /\ gameOver s = false /\
    currentTetromino s = Some (TETROMINOES KO) /\
    handleKeyDown 20 Space KO s = Done s' /\
    currentPos s' = mkPos 4 0 /\
    checkCollision (shape (TETROMINOES KO)) (board s') (currentPos s') = true /\
    checkCollision (shape (TETROMINOES KO)) (board s')
      (mkPos (px (currentPos s')) (py (currentPos s') + 1)) = true.
Proof.
  exists towerState, towerState. split; [apply run_stackO_10|].
  repeat split; vm_compute; reflexivity.
Qed.

(** * Further properties *)

(** ** Reachable states *)

Lemma dropLoop_mono (fuel fuel' : nat) (sh : Matrix) (b : Board) (x y d : Z) :
  (fuel <= fuel')%nat -> dropLoop fuel sh b x y = Some d -> dropLoop fuel' sh b x y = Some d.
Proof.
  revert fuel' y. induction fuel as [|fuel IH]; intros fuel' y Hle; simpl; [done|].
  destruct fuel' as [|fuel']; [lia|]. simpl.
  destruct (checkCollision sh b (mkPos x (y + 1))); simpl; [done|].
  apply IH. lia.
Qed.

Lemma step_mono (fuel fuel' : nat) (ev : Event) (s s' : State) :
  (fuel <= fuel')%nat -> step fuel ev s = Done s' -> step fuel' ev s = Done s'.
Proof.
  intros Hle. destruct ev as [type|e type|time type]; simpl; try done.
  unfold handleKeyDown. destruct (negb (gameStarted s) || gameOver s); [done|].
  destruct (currentTetromino s) as [t|]; [|done].
  destruct e; try done.
  destruct (dropLoop fuel (shape t) (board s) (px (currentPos s)) (py (currentPos s)))
    as [d|] eqn:Hd; [|done].
  by rewrite (dropLoop_mono fuel fuel' _ _ _ _ d Hle Hd).
Qed.

Lemma run_mono (fuel fuel' : nat) (evs : list Event) (s s' : State) :
  (fuel <= fuel')%nat -> run fuel evs s = Done s' -> run fuel' evs s = Done s'.
Proof.
  intros Hle. revert s. induction evs as [|ev evs IH]; intros s; simpl; [done|].
  destruct (step fuel ev s) as [s1| |] eqn:Hstep; [|done..].
  rewrite (step_mono fuel fuel' ev s s1 Hle Hstep). apply IH.
Qed.

Lemma run_app (fuel : nat) (evs evs' : list Event) (s s1 : State) :
  run fuel evs s = Done s1 -> run fuel (evs ++ evs') s = run fuel evs' s1.
Proof.
  revert s. induction evs as [|ev evs IH]; intros s; simpl; [by intros [= <-]|].
  destruct (step fuel ev s) as [s2| |]; [apply IH|done..].
Qed.

Lemma reachable_step (fuel : nat) (ev : Event) (s s' : State) :
  reachable s -> step fuel ev s = Done s' -> reachable s'.
Proof.
  intros (fuel0 & evs & Hrun) Hstep. exists (fuel0 `max` fuel)%nat, (evs ++ [ev]).
  rewrite (run_app _ evs [ev] initialState s) by (eapply run_mono; [|done]; lia).
  simpl. by rewrite (step_mono fuel _ ev s s') by (done || lia).
Qed.

(** A property of the first render that every event keeps, in states that
    satisfy the engine's invariant, holds in every reachable state. *)
Lemma reachable_preserved (P : State -> Prop) :
  P initialState ->
  (forall fuel ev s s', inv s -> P s -> step fuel ev s = Done s' -> P s') ->
  forall s, reachable s -> P s.
Proof.
  intros Hinit Hstep s (fuel & evs & Hrun).
  assert (forall s0, inv s0 -> P s0 -> run fuel evs s0 = Done s -> P s) as Hgen.
  { clear Hrun. induction evs as [|ev evs IH]; intros s0 Hinv HP; simpl.
    - by intros [= <-].
    - pose proof (step_inv fuel ev s0 Hinv) as Hinv1.
      destruct (step fuel ev s0) as [s1| |] eqn:Hs; [|done..].
      intros Hrun. apply (IH s1); [done| |done]. exact (Hstep fuel ev s0 s1 Hinv HP Hs). }
  by apply (Hgen initialState inv_initialState Hinit).
Qed.

(** X1. In every state that a session reaches, the board has its fixed
    dimensions, the score is not negative, the offset of the piece is not
    above row 0, and the active piece, a square grid with an occupied
    cell, has every occupied cell inside the board. *)
Theorem reachable_wellformed (s : State) :
  reachable s ->
  length (board s) = Z.to_nat BOARD_HEIGHT /\
  Forall (fun r => length r = Z.to_nat BOARD_WIDTH) (board s) /\
  0 <= score s /\ 0 <= py (currentPos s) /\
  forall t, currentTetromino s = Some t ->
    (exists n, squareGrid n (shape t)) /\
    (exists r c, occupied (shape t) r c) /\
    forall r c, occupied (shape t) r c ->
      0 <= px (currentPos s) + Z.of_nat c < BOARD_WIDTH /\
      0 <= py (currentPos s) + Z.of_nat r < BOARD_HEIGHT.
Proof.
  intros Hs. apply reachable_inv in Hs as ([Hlen Hrows] & Hsc & Hpy & Hpiece).
  repeat (split; [done|]). intros t Ht. destruct (Hpiece t Ht) as [[Hsq Hocc] Hin].
  split; [done|]. split; [done|]. exact Hin.
Qed.

Lemma reachable_wellformed_witness :
  length (board restingO) = Z.to_nat BOARD_HEIGHT /\
  Forall (fun r => length r = Z.to_nat BOARD_WIDTH) (board restingO) /\
  0 <= score restingO /\ 0 <= py (currentPos restingO) /\
  forall t, currentTetromino restingO = Some t ->
    (exists n, squareGrid n (shape t)) /\
    (exists r c, occupied (shape t) r c) /\
    forall r c, occupied (shape t) r c ->
      0 <= px (currentPos restingO) + Z.of_nat c < BOARD_WIDTH /\
      0 <= py (currentPos restingO) + Z.of_nat r < BOARD_HEIGHT.
Proof.
  apply (reachable_wellformed restingO).
  exists 20%nat, [Start KO; KeyDown Space KO; Frame 16 KO]. reflexivity.
Defined.

(** X2. No event fails in a reachable state: the lock never writes outside
    the board (no [TypeError]), and the loop of the hard drop ends within
    a board's height of iterations, so that with that much fuel every
    event gives a next state, itself reachable. *)
Theorem events_never_fail (fuel : nat) (ev : Event) (s : State) :
  reachable s ->
  step fuel ev s <> Throws /\
  (BOARD_HEIGHT <= Z.of_nat fuel ->
   exists s', step fuel ev s = Done s' /\ reachable s').
Proof.
  intros Hs. pose proof (step_inv fuel ev s (reachable_inv s Hs)) as Hstep. split.
  - by destruct (step fuel ev s).
  - intros Hfuel. destruct (step fuel ev s) as [s'| |] eqn:Hev; [|done|lia].
    exists s'. split; [done|]. by eapply reachable_step.
Qed.

Lemma events_never_fail_witness :
  step 20 (KeyDown ArrowDown KT) restingO <> Throws /\
  (BOARD_HEIGHT <= Z.of_nat 20 ->
   exists s', step 20 (KeyDown ArrowDown KT) restingO = Done s' /\ reachable s').
Proof.
  apply (events_never_fail 20 (KeyDown ArrowDown KT) restingO).
  exists 20%nat, [Start KO; KeyDown Space KO; Frame 16 KO]. reflexivity.
Defined.

(** ** What an event changes *)

Lemma tetromino_eta (t : Tetromino) : mkTetromino (shape t) (color t) = t.
Proof. by destruct t. Qed.

(** The ways of the key handler. *)
Lemma handleKeyDown_cases (fuel : nat) (e : Key) (type : TetrominoKey) (s s' : State) :
  handleKeyDown fuel e type s = Done s' ->
  s' = s \/
  (exists t sh p,
     currentTetromino s = Some t /\ e <> Space /\
     checkCollision sh (board s) p = false /\
     (sh = shape t \/ e = ArrowUp /\ sh = rotate (map spread (shape t)) 1) /\
     s' = setCurrentTetromino (Some (mkTetromino sh (color t))) (setCurrentPos p s)) \/
  (exists t d,
     e = Space /\ currentTetromino s = Some t /\
     dropLoop fuel (shape t) (board s) (px (currentPos s)) (py (currentPos s)) = Some d /\
     s' = setCurrentPos (mkPos (px (currentPos s)) d) s) \/
  (exists t,
     e = ArrowDown /\ currentTetromino s = Some t /\
     checkCollision (shape t) (board s)
       (mkPos (px (currentPos s)) (py (currentPos s) + 1)) = true /\
     lockAndSpawn type s s t = Done s').
Proof.
  unfold handleKeyDown. destruct (negb (gameStarted s) || gameOver s); [intros [= <-]; by left|].
  destruct (currentTetromino s) as [t|] eqn:Ht; [|intros [= <-]; by left].
  destruct e;
    try (match goal with
         | |- context [checkCollision ?sh ?b ?p] =>
             destruct (checkCollision sh b p) eqn:Hcol; simpl
         end;
         [ try (intros [= <-]; by left)
         | intros [= <-]; right; left; eexists t, _, _;
           repeat split; try done; eauto ]).
  - intros Hlock. right. right. right. by exists t.
  - destruct (dropLoop fuel (shape t) (board s) (px (currentPos s)) (py (currentPos s)))
      as [d|] eqn:Hd; [|done].
    intros [= <-]. right. right. left. by exists t, d.
Qed.

(** The ways of the frame handler; [s2] is the state with the timer refs
    updated. *)
Lemma gameLoop_cases (time : Z) (type : TetrominoKey) (s s' : State) :
  gameLoop time type s = Done s' ->
  s' = s \/
  exists s2, sameGame s2 s /\
    (s' = s2 \/
     (exists t, currentTetromino s = Some t /\
        checkCollision (shape t) (board s)
          (mkPos (px (currentPos s)) (py (currentPos s) + 1)) = false /\
        s' = setCurrentPos (mkPos (px (currentPos s)) (py (currentPos s) + 1)) s2) \/
     (exists t, currentTetromino s = Some t /\
        checkCollision (shape t) (board s)
          (mkPos (px (currentPos s)) (py (currentPos s) + 1)) = true /\
        lockAndSpawn type s s2 t = Done s')).
Proof.
  unfold gameLoop. destruct (negb (gameStarted s) || gameOver s); [intros [= <-]; by left|].
  match goal with |- context [if ?c then _ else _] => destruct c end.
  - destruct (currentTetromino s) as [t|] eqn:Ht.
    + destruct (checkCollision (shape t) (board s) _) eqn:Hcol; simpl.
      * intros Hlock. right. eexists. split; [|right; right; by exists t]. done.
      * intros [= <-]. right. eexists. split; [|right; left; by exists t]. done.
    + intros [= <-]. right. eexists. split; [|by left]. unfold sameGame. simpl. by rewrite Ht.
  - intros [= <-]. right. eexists. split; [|by left]. done.
Qed.

Lemma lockAndSpawn_effect (type : TetrominoKey) (refs st : State) (t : Tetromino) (s' : State) :
  lockAndSpawn type refs st t = Done s' ->
  exists b n,
    lockLines t (currentPos refs) (board st) = Some (b, n) /\ 0 <= n /\
    s' = newTetromino type refs (locked b n st) /\
    board s' = b /\ score s' = score st + 100 * n.
Proof.
  unfold lockAndSpawn, updateBoard.
  destruct (lockLines t (currentPos refs) (board st)) as [[b n]|] eqn:Hlock; [|done].
  intros [= <-]. exists b, n. split; [done|].
  assert (0 <= n) as Hn.
  { unfold lockLines in Hlock. destruct (writePiece t (currentPos refs) (board st)); [|done].
    by apply clearLoop_count in Hlock. }
  split; [done|]. split; [done|].
  unfold newTetromino. destruct (checkCollision _ _ _); destruct (Z.gtb_spec n 0); simpl;
    (split; [done|lia]).
Qed.

Lemma step_boardEffect (fuel : nat) (ev : Event) (s s' : State) :
  step fuel ev s = Done s' -> boardEffect ev s s'.
Proof.
  destruct ev as [type|e type|time type]; simpl.
  - destruct (gameStarted s && negb (gameOver s)); intros [= <-]; [by left|].
    right. left. split; [done|]. unfold startGame, newTetromino.
    by destruct (checkCollision _ _ _).
  - intros Hk. apply handleKeyDown_cases in Hk
      as [->|[(t & sh & p & _ & _ & _ & _ & ->)|[(t & d & _ & _ & _ & ->)|(t & -> & Ht & Hcol & Hlock)]]];
      [by left..|].
    apply lockAndSpawn_effect in Hlock as (b & n & Hlock & Hn & _ & Hb & Hsc).
    right. right. split; [left; by exists type|]. by exists t, b, n.
  - intros Hg. apply gameLoop_cases in Hg as [->|(s2 & Hsame & Hcases)]; [by left|].
    destruct Hsame as (Hb2 & Ht2 & Hp2 & Hs2 & _).
    destruct Hcases as [->|[(t & _ & _ & ->)|(t & Ht & Hcol & Hlock)]]; [by left..|].
    apply lockAndSpawn_effect in Hlock as (b & n & Hlock & Hn & _ & Hb & Hsc).
    right. right. split; [right; by exists time, type|]. exists t, b, n.
    rewrite Hb2 in Hlock. rewrite Hs2 in Hsc. done.
Qed.

(** The lock and the spawn on a board of the fixed dimensions, for a piece
    inside it: the piece is written, the full rows of the written board
    are cleared, and the score takes 100 for each of them. *)
Lemma lockAndSpawn_written (type : TetrominoKey) (refs st : State) (t : Tetromino) :
  wfBoard (board st) -> inBounds (shape t) (currentPos refs) ->
  exists w s',
    writePiece t (currentPos refs) (board st) = Some w /\ wfBoard w /\
    lockAndSpawn type refs st t = Done s' /\
    s' = newTetromino type refs
           (locked (replicate (countFull w) emptyRow ++ survivors w)
                   (Z.of_nat (countFull w)) st) /\
    board s' = replicate (countFull w) emptyRow ++ survivors w /\
    score s' = score st + 100 * Z.of_nat (countFull w).
Proof.
  intros Hwf Hin. destruct (writePiece_wf t _ _ Hwf Hin) as (w & Hw & Hwfw).
  assert (lockLines t (currentPos refs) (board st)
          = Some (replicate (countFull w) emptyRow ++ survivors w, Z.of_nat (countFull w)))
    as Hlock.
  { unfold lockLines. rewrite Hw.
    rewrite clearLoop_all by (destruct Hwfw as [-> _]; reflexivity). done. }
  destruct (lockAndSpawn type refs st t) as [s'| |] eqn:Hls.
  - apply lockAndSpawn_effect in Hls as (b & n & Hl & _ & Hs' & Hb & Hsc).
    rewrite Hlock in Hl. injection Hl as <- <-. by exists w, s'.
  - unfold lockAndSpawn, updateBoard in Hls. by rewrite Hlock in Hls.
  - unfold lockAndSpawn, updateBoard in Hls. by rewrite Hlock in Hls.
Qed.



(** ** Invariants of the board and the score *)

Lemma countFull_replicate_empty (k : nat) : countFull (replicate k emptyRow) = 0%nat.
Proof.
  induction k as [|k IH]; [done|]. simpl. by rewrite countFull_cons, emptyRow_notFull, IH.
Qed.

Lemma countFull_survivors (b : Board) : countFull (survivors b) = 0%nat.
Proof.
  induction b as [|r b IH]; [done|].
  change (r :: b) with ([r] ++ b). rewrite survivors_app, countFull_app, IH.
  destruct (every_neq0 r) eqn:Hr.
  - by rewrite survivors_full.
  - rewrite survivors_notFull by done. by rewrite countFull_cons, Hr.
Qed.

Lemma lockLines_noFull (t : Tetromino) (p : Pos) (prev b : Board) (n : Z) :
  wfBoard prev -> inBounds (shape t) p -> lockLines t p prev = Some (b, n) ->
  countFull b = 0%nat.
Proof.
  intros Hwf Hin. unfold lockLines.
  destruct (writePiece_wf t p prev Hwf Hin) as (b1 & -> & [Hlen _]).
  rewrite clearLoop_all by (by rewrite Hlen). intros [= <- _].
  by rewrite countFull_app, countFull_replicate_empty, countFull_survivors.
Qed.

(** X4. Between events the board never holds a full row: it starts empty,
    and each lock clears every row that it completes. *)
Theorem reachable_board_has_no_full_row (s : State) (r : list value) :
  reachable s -> r ∈ board s -> every_neq0 r = false.
Proof.
  intros Hs. revert r.
  assert (countFull (board s) = 0%nat) as Hcount.
  { revert s Hs. apply reachable_preserved; [done|].
    intros fuel ev s s' Hinv HP Hstep.
    destruct (step_boardEffect fuel ev s s' Hstep)
      as [[-> _]|[(_ & -> & _)|(_ & t & b & n & Ht & _ & Hlock & _ & -> & _)]]; [done..|].
    destruct Hinv as (Hwf & _ & _ & Hpiece). destruct (Hpiece t Ht) as [_ Hin].
    by eapply lockLines_noFull. }
  intros r Hr. destruct (every_neq0 r) eqn:Hfull; [|done].
  unfold countFull in Hcount. apply length_zero_iff_nil in Hcount.
  assert (r ∈ filter (fun r => every_neq0 r = true) (board s)) as Hin
    by (by apply list_elem_of_filter).
  rewrite Hcount in Hin. by apply not_elem_of_nil in Hin.
Qed.

Lemma reachable_board_has_no_full_row_witness :
  every_neq0 (replicate 4 (Num 0) ++ [Str "yellow"; Str "yellow"] ++ replicate 4 (Num 0))
  = false.
Proof.
  apply (reachable_board_has_no_full_row lockedO).
  - exists 20%nat, [Start KO; KeyDown Space KO; Frame 16 KO; KeyDown ArrowDown KT].
    vm_compute. reflexivity.
  - apply (list_elem_of_lookup_2 _ 19%nat). vm_compute. reflexivity.
Defined.

(** X5. The score of a session is a multiple of 100 at all times. *)
Theorem reachable_score_multiple_of_100 (s : State) :
  reachable s -> exists k, 0 <= k /\ score s = 100 * k.
Proof.
  revert s. apply reachable_preserved; [by exists 0|].
  intros fuel ev s s' _ (k & Hk & Hsc) Hstep.
  destruct (step_boardEffect fuel ev s s' Hstep)
    as [[_ ->]|[(_ & _ & ->)|(_ & t & b & n & _ & _ & _ & Hn & _ & ->)]].
  - by exists k.
  - by exists 0.
  - exists (k + n). lia.
Qed.

Lemma reachable_score_multiple_of_100_witness :
  exists k, 0 <= k /\ score lockedO = 100 * k.
Proof.
  apply (reachable_score_multiple_of_100 lockedO).
  exists 20%nat, [Start KO; KeyDown Space KO; Frame 16 KO; KeyDown ArrowDown KT].
  vm_compute. reflexivity.
Defined.

(** ** Phases of a session *)

Lemma spawn_on_empty_board (type : TetrominoKey) : ~ spawnBlocked type createBoard.
Proof. unfold spawnBlocked. destruct type; vm_compute; discriminate. Qed.

Lemma newTetromino_flags (type : TetrominoKey) (refs st : State) :
  (spawnBlocked type (board refs) /\
   gameOver (newTetromino type refs st) = true /\
   gameStarted (newTetromino type refs st) = false /\
   currentTetromino (newTetromino type refs st) = currentTetromino st /\
   currentPos (newTetromino type refs st) = currentPos st) \/
  (~ spawnBlocked type (board refs) /\
   gameOver (newTetromino type refs st) = gameOver st /\
   gameStarted (newTetromino type refs st) = gameStarted st /\
   currentTetromino (newTetromino type refs st) = Some (TETROMINOES type) /\
   currentPos (newTetromino type refs st) = spawnPos type).
Proof.
  unfold newTetromino, spawnBlocked, spawnPos.
  destruct (checkCollision _ _ _); [left|right]; repeat split; done.
Qed.

(** What one event does to the flags, the piece and the offset, by the
    outcome of the spawn it makes, if any. *)
Lemma step_phase (fuel : nat) (ev : Event) (s s' : State) :
  step fuel ev s = Done s' ->
  (gameOver s' = gameOver s /\ gameStarted s' = gameStarted s /\
   pieceEffect ev s s') \/
  (spawnBlocked (eventType ev) (board s) /\
   gameOver s' = true /\ gameStarted s' = false /\
   currentTetromino s' = currentTetromino s /\ currentPos s' = currentPos s) \/
  (isStart ev = true /\ ~ spawnBlocked (eventType ev) (board s) /\
   gameOver s' = false /\ gameStarted s' = true /\
   currentTetromino s' = Some (TETROMINOES (eventType ev)) /\
   currentPos s' = spawnPos (eventType ev)).
Proof.
  destruct ev as [type|e type|time type]; simpl.
  - destruct (gameStarted s && negb (gameOver s)); intros [= <-];
      [left; repeat split; by left|].
    unfold startGame.
    destruct (newTetromino_flags type s
                (setGameStarted true (setGameOver false (setScore 0 (setBoard createBoard s)))))
      as [(Hb & Ho & Hst & Ht & Hp)|(Hb & Ho & Hst & Ht & Hp)].
    + right. left. simpl. rewrite Ho, Hst, Ht, Hp. done.
    + right. right. simpl. rewrite Ho, Hst, Ht, Hp. done.
  - intros Hk. apply handleKeyDown_cases in Hk
      as [->|[(t & sh & p & Ht & _ & _ & Hsh & ->)|[(t & d & _ & _ & _ & ->)|(t & -> & Ht & Hcol & Hlock)]]].
    + left. repeat split. by left.
    + left. repeat split. simpl. destruct Hsh as [->|[_ ->]].
      * left. by rewrite tetromino_eta.
      * right. right. by exists t.
    + left. repeat split. by left.
    + apply lockAndSpawn_effect in Hlock as (b & n & _ & _ & -> & _ & _).
      destruct (newTetromino_flags type s (locked b n s)) as [(Hb & Ho & Hst & Htt & Hp)|(Hb & Ho & Hst & Htt & Hp)].
      * right. left. rewrite Ho, Hst, Htt, Hp. unfold locked. by destruct (n >? 0).
      * left. rewrite Ho, Hst. unfold locked. split; [by destruct (n >? 0)|].
        split; [by destruct (n >? 0)|]. right. left. done.
  - intros Hg. apply gameLoop_cases in Hg as [->|(s2 & Hsame & Hcases)];
      [left; repeat split; by left|].
    destruct Hsame as (Hb2 & Ht2 & Hp2 & Hs2 & Ho2 & Hst2).
    destruct Hcases as [->|[(t & _ & _ & ->)|(t & Ht & Hcol & Hlock)]].
    + left. repeat split; try done. by left.
    + left. repeat split; try done. by left.
    + apply lockAndSpawn_effect in Hlock as (b & n & _ & _ & -> & _ & _).
      destruct (newTetromino_flags type s (locked b n s2)) as [(Hb & Ho & Hst & Htt & Hp)|(Hb & Ho & Hst & Htt & Hp)].
      * right. left. rewrite Ho, Hst, Htt, Hp. unfold locked.
        destruct (n >? 0); simpl; rewrite ?Ht2, ?Hp2; done.
      * left. rewrite Ho, Hst. unfold locked. split; [by destruct (n >? 0)|].
        split; [by destruct (n >? 0)|]. right. left. done.
Qed.

(** X6. The session goes over in one way only: an event makes a spawn
    whose collision test, made on the board from before the event, is
    positive; the session is then marked as not started.  And it leaves
    "over" in one way only: a start whose spawn is not blocked. *)
Theorem game_over_only_by_blocked_spawn (fuel : nat) (ev : Event) (s s' : State) :
  step fuel ev s = Done s' ->
  (gameOver s = false -> gameOver s' = true ->
   spawnBlocked (eventType ev) (board s) /\ gameStarted s' = false /\
   (isStart ev = true \/ locksPiece ev)) /\
  (gameOver s = true -> gameOver s' = false ->
   isStart ev = true /\ ~ spawnBlocked (eventType ev) (board s) /\ gameStarted s' = true).
Proof.
  intros Hstep. pose proof (step_phase fuel ev s s' Hstep) as Hphase.
  pose proof (step_boardEffect fuel ev s s' Hstep) as Heff. split.
  - intros Hov Hov'.
    destruct Hphase as [(Ho & _)|[(Hb & _ & Hst & _)|(_ & _ & Ho & _)]]; [congruence| |congruence].
    split; [done|]. split; [done|].
    destruct ev as [type|e type|time type]; [by left| |right; right; by exists time, type].
    right. simpl in Hstep. apply handleKeyDown_cases in Hstep
      as [->|[(t & sh & p & _ & _ & _ & _ & ->)|[(t & d & _ & _ & _ & ->)|(t & -> & _)]]];
      simpl in Hov'; try congruence.
    left. by exists type.
  - intros Hov Hov'.
    destruct Hphase as [(Ho & _)|[(_ & Ho & _)|(Hst & Hb & _ & Hs & _)]]; [congruence..|done].
Qed.

Lemma game_over_only_by_blocked_spawn_witness :
  (gameOver towerState = false ->
   gameOver (newTetromino KO towerState (locked towerBoard 0 towerState)) = true ->
   spawnBlocked (eventType (KeyDown ArrowDown KO)) (board towerState) /\
   gameStarted (newTetromino KO towerState (locked towerBoard 0 towerState)) = false /\
   (isStart (KeyDown ArrowDown KO) = true \/ locksPiece (KeyDown ArrowDown KO))) /\
  (gameOver towerState = true ->
   gameOver (newTetromino KO towerState (locked towerBoard 0 towerState)) = false ->
   isStart (KeyDown ArrowDown KO) = true /\
   ~ spawnBlocked (eventType (KeyDown ArrowDown KO)) (board towerState) /\
   gameStarted (newTetromino KO towerState (locked towerBoard 0 towerState)) = true).
Proof.
  apply (game_over_only_by_blocked_spawn 20 (KeyDown ArrowDown KO) towerState).
  vm_compute. reflexivity.
Defined.

Lemma reachable_phases (s : State) :
  reachable s ->
  (gameOver s = true -> gameStarted s = false) /\
  (gameStarted s = true -> exists t, currentTetromino s = Some t) /\
  (currentTetromino s = None -> s = initialState).
Proof.
  revert s. apply reachable_preserved; [done|].
  intros fuel ev s s' _ (Hover & Hrun & Hnone) Hstep.
  pose proof (step_phase fuel ev s s' Hstep) as Hphase.
  assert (currentTetromino s = None -> s' = initialState \/ exists t, currentTetromino s' = Some t)
    as Hfirst.
  { intros Hn. apply Hnone in Hn as ->. destruct (isStart ev) eqn:Hev.
    - destruct ev as [type| |]; try done. simpl in Hstep. injection Hstep as <-.
      right. exists (TETROMINOES type). unfold startGame, newTetromino.
      pose proof (spawn_on_empty_board type) as Hfree. unfold spawnBlocked, spawnPos in Hfree.
      simpl. by destruct (checkCollision _ _ _).
    - left. rewrite step_stopped in Hstep; [congruence|by left|done]. }
  destruct Hphase as [(Ho & Hst & Heff)|[(_ & Ho & Hst & Ht & _)|(_ & _ & Ho & Hst & Ht & _)]].
  - split; [rewrite Ho, Hst; done|]. split.
    + rewrite Hst. intros Hs. destruct (Hrun Hs) as [t Ht].
      destruct Heff as [->|[->|(t0 & _ & ->)]]; eauto.
    + intros Hn'. destruct (currentTetromino s) as [t|] eqn:Ht.
      * destruct Heff as [Heq|[Heq|(t0 & _ & Heq)]]; congruence.
      * destruct (Hfirst eq_refl) as [->|[t Ht']]; [done|congruence].
  - split; [done|]. split; [congruence|]. intros Hn'. rewrite Hn' in Ht. symmetry in Ht.
    destruct (Hfirst Ht) as [->|[t Ht']]; [done|congruence].
  - split; [congruence|]. split; [eauto|congruence].
Qed.

(** X7. In every reachable state the two flags are never both set, a
    session that runs has an active piece, and the only state without a
    piece is the state of the first render: the piece of a finished game
    stays stored. *)
Theorem reachable_session_phases (s : State) :
  reachable s ->
  (gameOver s = true -> gameStarted s = false) /\
  (gameStarted s = true -> exists t, currentTetromino s = Some t) /\
  (currentTetromino s = None -> s = initialState).
Proof. apply reachable_phases. Qed.

Lemma reachable_session_phases_witness :
  (gameOver lockedO = true -> gameStarted lockedO = false) /\
  (gameStarted lockedO = true -> exists t, currentTetromino lockedO = Some t) /\
  (currentTetromino lockedO = None -> lockedO = initialState).
Proof.
  apply (reachable_session_phases lockedO).
  exists 20%nat, [Start KO; KeyDown Space KO; Frame 16 KO; KeyDown ArrowDown KT].
  vm_compute. reflexivity.
Defined.

(** ** The pieces and the cells of a session *)

Lemma orient_squareGrid (n i : nat) (m : Matrix) :
  squareGrid n m -> squareGrid n (orient i m).
Proof.
  intros Hm. induction i as [|i IH]; [done|]. simpl. by apply rotate_squareGrid.
Qed.

Lemma catalogPiece_spawn (type : TetrominoKey) : catalogPiece (TETROMINOES type).
Proof. exists type, 0%nat. split; [lia|]. by destruct type. Qed.

Lemma catalogPiece_rotate (t : Tetromino) :
  catalogPiece t ->
  catalogPiece (mkTetromino (rotate (map spread (shape t)) 1) (color t)).
Proof.
  intros (type & i & Hi & ->). simpl.
  destruct (pieceShape_catalog type) as [[n Hsq] _].
  rewrite (spread_squareGrid n) by (by apply orient_squareGrid).
  destruct (decide (i = 3%nat)) as [->|Hne].
  - exists type, 0%nat. split; [lia|]. simpl. f_equal. by apply (rotate4_id n).
  - exists type, (S i). split; [lia|]. done.
Qed.

Lemma catalogCell_read (v : value) : catalogCell v -> read v = v.
Proof. by intros [->|[type ->]]. Qed.

Lemma writeCell_cells (b : Board) (boardY boardX : Z) (c : value) (b' : Board) :
  wfBoard b -> 0 <= boardX < BOARD_WIDTH ->
  Forall (Forall catalogCell) b -> catalogCell c ->
  writeCell b boardY boardX c = Some b' -> Forall (Forall catalogCell) b'.
Proof.
  intros [_ Hrows] Hx Hcells Hc. unfold writeCell. destruct (boardY <? 0); [done|].
  destruct (b !! Z.to_nat boardY) as [r|] eqn:Hr; [|done]. intros [= <-].
  apply Forall_insert; [done|].
  eapply Forall_lookup_1 in Hrows; [|done]. simpl in Hrows.
  unfold js_set. destruct (Z.ltb_spec boardX 0); [lia|].
  destruct (Z.ltb_spec boardX (Z.of_nat (length r))); [|unfold BOARD_WIDTH in *; lia].
  apply Forall_insert; [|done]. by eapply Forall_lookup_1 in Hcells.
Qed.

Lemma writeRow_cells (cells : list value) (col : string) (p : Pos) (y x : Z) (b b' : Board) :
  wfBoard b -> Forall (Forall catalogCell) b -> catalogCell (Str col) ->
  (forall (c : nat) v, cells !! c = Some v -> neq0 v = true ->
     0 <= px p + (x + Z.of_nat c) < BOARD_WIDTH /\ 0 <= py p + y < BOARD_HEIGHT) ->
  writeRow cells col p y x b = Some b' ->
  wfBoard b' /\ Forall (Forall catalogCell) b'.
Proof.
  intros Hwf Hcells Hcol. revert x b Hwf Hcells.
  induction cells as [|v rest IH]; intros x b Hwf Hcells Hin; simpl.
  - by intros [= <-].
  - assert (forall (c : nat) w, rest !! c = Some w -> neq0 w = true ->
       0 <= px p + (x + 1 + Z.of_nat c) < BOARD_WIDTH /\ 0 <= py p + y < BOARD_HEIGHT) as Hrest.
    { intros c w Hc Hw. replace (x + 1 + Z.of_nat c) with (x + Z.of_nat (S c)) by lia.
      by apply (Hin (S c) w). }
    assert (neq0 v = true ->
      match writeCell b (py p + y) (px p + x) (Str col) with
      | Some b0 => writeRow rest col p y (x + 1) b0
      | None => None
      end = Some b' -> wfBoard b' /\ Forall (Forall catalogCell) b') as Hwrite.
    { intros Hv. destruct (Hin 0%nat v eq_refl Hv) as [Hx Hy].
      replace (x + Z.of_nat 0) with x in Hx by lia.
      destruct (writeCell_wf b (py p + y) (px p + x) (Str col) Hwf Hx Hy) as (b1 & Hw1 & Hwf1).
      rewrite Hw1. apply IH; [done| |exact Hrest].
      exact (writeCell_cells b (py p + y) (px p + x) (Str col) b1 Hwf Hx Hcells Hcol Hw1). }
    destruct v as [n| | |]; try (by apply Hwrite); [|by apply IH].
    destruct (neq0 (Num n)) eqn:Hn; [by apply Hwrite|by apply IH].
Qed.

Lemma writeRows_cells (rows : list (list value)) (col : string) (p : Pos) (y : Z) (b b' : Board) :
  wfBoard b -> Forall (Forall catalogCell) b -> catalogCell (Str col) ->
  (forall (r c : nat) cells v, rows !! r = Some cells -> cells !! c = Some v ->
     neq0 v = true ->
     0 <= px p + Z.of_nat c < BOARD_WIDTH /\ 0 <= py p + (y + Z.of_nat r) < BOARD_HEIGHT) ->
  writeRows rows col p y b = Some b' ->
  wfBoard b' /\ Forall (Forall catalogCell) b'.
Proof.
  intros Hwf Hcells Hcol. revert y b Hwf Hcells.
  induction rows as [|cells rest IH]; intros y b Hwf Hcells Hin; simpl.
  - by intros [= <-].
  - destruct (writeRow cells col p y 0 b) as [b1|] eqn:Hw; [|done].
    apply writeRow_cells in Hw as [Hwf1 Hcells1]; try done.
    + apply IH; [done..|]. intros r c cs v Hr Hc Hv.
      replace (y + 1 + Z.of_nat r) with (y + Z.of_nat (S r)) by lia.
      by apply (Hin (S r) c cs v).
    + intros c v Hc Hv. destruct (Hin 0%nat c cells v eq_refl Hc Hv) as [Hx Hy].
      split; [lia|]. by replace (y + Z.of_nat 0) with y in Hy by lia.
Qed.

Lemma lockLines_cells (t : Tetromino) (p : Pos) (prev b : Board) (n : Z) :
  wfBoard prev -> inBounds (shape t) p ->
  Forall (Forall catalogCell) prev -> catalogCell (Str (color t)) ->
  lockLines t p prev = Some (b, n) -> Forall (Forall catalogCell) b.
Proof.
  intros Hwf Hin Hcells Hcol. unfold lockLines, writePiece.
  destruct (writeRows (shape t) (color t) p 0 (map spread prev)) as [b1|] eqn:Hw; [|done].
  apply writeRows_cells in Hw as [[Hlen _] Hcells1]; try done.
  - rewrite clearLoop_all by (by rewrite Hlen). intros [= <- _].
    apply Forall_app. split.
    + apply Forall_replicate. apply Forall_replicate. by left.
    + rewrite Forall_forall in Hcells1 |- *. intros r Hr.
      apply list_elem_of_filter in Hr as [_ Hr]. by apply Hcells1.
  - by apply wfBoard_spread.
  - apply Forall_map. eapply Forall_impl; [done|]. intros r Hr. simpl.
    unfold spread. apply Forall_map. eapply Forall_impl; [done|].
    intros v Hv. simpl. by rewrite catalogCell_read.
  - intros r c cells v Hr Hc Hv. replace (0 + Z.of_nat r) with (Z.of_nat r) by lia.
    apply (Hin r c). by exists cells, v.
Qed.

Lemma reachable_catalog (s : State) :
  reachable s ->
  (forall t, currentTetromino s = Some t -> catalogPiece t) /\
  Forall (Forall catalogCell) (board s).
Proof.
  revert s. apply reachable_preserved.
  - split; [done|]. apply Forall_replicate, Forall_replicate. by left.
  - intros fuel ev s s' Hinv [Hpiece Hcells] Hstep. split.
    + intros t' Ht'.
      assert (pieceEffect ev s s') as Heff.
      { destruct (step_phase fuel ev s s' Hstep)
          as [(_ & _ & Heff)|[(_ & _ & _ & Ht & _)|(_ & _ & _ & _ & Ht & _)]];
          [done|by left|right; by left]. }
      destruct Heff as [Heq|[Heq|(t & Ht & Heq)]].
      * apply Hpiece. congruence.
      * rewrite Heq in Ht'. injection Ht' as <-. apply catalogPiece_spawn.
      * rewrite Heq in Ht'. injection Ht' as <-. by apply catalogPiece_rotate, Hpiece.
    + destruct (step_boardEffect fuel ev s s' Hstep)
        as [[-> _]|[(_ & -> & _)|(_ & t & b & n & Ht & _ & Hlock & _ & -> & _)]]; [done| |].
      * apply Forall_replicate, Forall_replicate. by left.
      * destruct Hinv as (Hwf & _ & _ & Hin). destruct (Hin t Ht) as [_ Hbounds].
        eapply lockLines_cells; [done..| |done].
        destruct (Hpiece t Ht) as (type & i & _ & ->). right. by exists type.
Qed.

(** X8. The active piece of a session is always a catalog piece in one of
    its four orientations, with the color that the catalog gives it. *)
Theorem reachable_piece_from_catalog (s : State) (t : Tetromino) :
  reachable s -> currentTetromino s = Some t ->
  exists type i, (i < 4)%nat /\
    shape t = orient i (shape (TETROMINOES type)) /\
    color t = color (TETROMINOES type).
Proof.
  intros Hs Ht. destruct (reachable_catalog s Hs) as [Hpiece _].
  destruct (Hpiece t Ht) as (type & i & Hi & ->). by exists type, i.
Qed.

(** X9. Every cell of the board of a session holds [0] or the color of a
    catalog piece: no cell is ever absent or [undefined]. *)
Theorem reachable_cells_from_catalog (s : State) (r : list value) (v : value) :
  reachable s -> r ∈ board s -> v ∈ r ->
  v = Num 0 \/ exists type, v = Str (color (TETROMINOES type)).
Proof.
  intros Hs Hr Hv. destruct (reachable_catalog s Hs) as [_ Hcells].
  rewrite Forall_forall in Hcells. specialize (Hcells r Hr).
  rewrite Forall_forall in Hcells. by apply Hcells.
Qed.

Lemma reachable_piece_from_catalog_witness :
  exists type i, (i < 4)%nat /\
    shape (TETROMINOES KO) = orient i (shape (TETROMINOES type)) /\
    color (TETROMINOES KO) = color (TETROMINOES type).
Proof.
  apply (reachable_piece_from_catalog restingO (TETROMINOES KO)).
  - exists 20%nat, [Start KO; KeyDown Space KO; Frame 16 KO]. reflexivity.
  - reflexivity.
Defined.

Lemma reachable_cells_from_catalog_witness :
  Str "yellow" = Num 0 \/ exists type, Str "yellow" = Str (color (TETROMINOES type)).
Proof.
  apply (reachable_cells_from_catalog lockedO
           (replicate 4 (Num 0) ++ [Str "yellow"; Str "yellow"] ++ replicate 4 (Num 0))
           (Str "yellow")).
  - exists 20%nat, [Start KO; KeyDown Space KO; Frame 16 KO; KeyDown ArrowDown KT].
    vm_compute. reflexivity.
  - apply (list_elem_of_lookup_2 _ 19%nat). vm_compute. reflexivity.
  - apply (list_elem_of_lookup_2 _ 4%nat). reflexivity.
Defined.

(** ** More on rotation *)

Lemma cellAt_tab (n : nat) (f : nat -> nat -> value) (i j : nat) :
  (i < n)%nat -> (j < n)%nat -> cellAt (tab n f) i j = f i j.
Proof.
  intros Hi Hj. unfold cellAt. rewrite tab_lookup by done. simpl.
  by rewrite row_lookup.
Qed.

(** X10. [rotate] turns a square grid by a quarter: for [dir > 0], cell
    [(i, j)] of the result is cell [(n - 1 - j, i)] of the grid, which is
    the clockwise turn; for the other values of [dir] it is cell
    [(j, n - 1 - i)], the counter-clockwise turn. *)
Theorem rotate_cell (n : nat) (m : Matrix) (dir : Z) (i j : nat) :
  squareGrid n m -> (i < n)%nat -> (j < n)%nat ->
  cellAt (rotate m dir) i j =
  if dir >? 0 then cellAt m (n - 1 - j) i else cellAt m j (n - 1 - i).
Proof.
  intros Hm Hi Hj. destruct (squareGrid_tab n m Hm) as [Heq Hf].
  rewrite Heq at 1. rewrite rotate_tab, cellAt_tab by done. reflexivity.
Qed.

Lemma rotate_cell_witness :
  cellAt (rotate (shape (TETROMINOES KL)) 1) 2 2 =
  if 1 >? 0 then cellAt (shape (TETROMINOES KL)) (3 - 1 - 2) 2
  else cellAt (shape (TETROMINOES KL)) 2 (3 - 1 - 2).
Proof.
  apply (rotate_cell 3 (shape (TETROMINOES KL)) 1 2 2).
  - apply squareGrid_grid; reflexivity.
  - lia.
  - lia.
Defined.

(** X11. On a square grid the two directions of [rotate] undo each
    other. *)
Theorem rotate_inverse (n : nat) (m : Matrix) (dir : Z) :
  squareGrid n m -> dir <= 0 ->
  rotate (rotate m 1) dir = m /\ rotate (rotate m dir) 1 = m.
Proof.
  intros Hm Hdir. destruct (squareGrid_tab n m Hm) as [Heq Hf].
  assert ((dir >? 0) = false) as Hd by (destruct (Z.gtb_spec dir 0); [lia|done]).
  split; rewrite Heq at 1; rewrite !rotate_tab by (repeat apply rotF_noHole; done);
    rewrite Heq at 2; apply tab_ext; intros i j Hi Hj; unfold rotF; rewrite Hd; simpl;
    f_equal; lia.
Qed.

Lemma rotate_inverse_witness :
  rotate (rotate (shape (TETROMINOES KS)) 1) (-1) = shape (TETROMINOES KS) /\
  rotate (rotate (shape (TETROMINOES KS)) (-1)) 1 = shape (TETROMINOES KS).
Proof.
  apply (rotate_inverse 3 (shape (TETROMINOES KS)) (-1)).
  - apply squareGrid_grid; reflexivity.
  - lia.
Defined.

(** X12. [rotate] on the store, for a matrix of pairwise distinct rows
    and either direction: the call returns, what it returns stands for
    the rotation of the grid as computed on values, and no row array
    outside the argument is touched.  For [dir > 0] the result is a new
    outer array over the row arrays of the argument; otherwise it is the
    argument itself, its outer array reversed in place. *)
Theorem store_rotate_refines (st : Store.store) (m : Store.loc) (rs : list Store.loc)
    (g : Matrix) (dir : Z) :
  Store.content st m = Some g -> Store.matsOf st !! m = Some rs -> NoDup rs ->
  exists st' r,
    Store.rotate st m dir = Some (st', r) /\
    Store.content st' r = Some (rotate g dir) /\
    (forall l, l ∉ rs -> Store.rowsOf st' !! l = Store.rowsOf st !! l) /\
    (dir > 0 ->
     r = length (Store.matsOf st) /\ Store.matsOf st' = Store.matsOf st ++ [rs]) /\
    (dir <= 0 ->
     r = m /\ Store.matsOf st' = <[m := reverse rs]> (Store.matsOf st)).
Proof.
  intros Hc Hm Hnodup. apply content_holds in Hc as (rs' & Hm' & Hh).
  assert (rs' = rs) as -> by congruence.
  destruct (rotate_sim st m rs g dir Hnodup Hm Hh) as (st' & r & Hrot & Hres & _ & Hrows & _ & _).
  exists st', r. split; [done|]. split; [done|]. split; [done|].
  assert (simulates m rs st st g) as Hsim by done.
  destruct (transpose_sim m rs st Hnodup st g Hsim) as (st1 & Htr & Hsim1).
  unfold Store.rotate in Hrot. rewrite Htr in Hrot. simpl in Hrot.
  destruct (Z.gtb_spec dir 0) as [Hdir|Hdir].
  - destruct (mapReverse_sim m rs st Hnodup st1 _ Hsim1) as (st2 & Hmap & _ & _ & Hmats2 & _).
    rewrite Hmap in Hrot. injection Hrot as <- <-. simpl. rewrite Hmats2.
    split; [done|]. lia.
  - destruct Hsim1 as (Hm1 & _ & Hmats1 & _).
    unfold Store.reverseMatrix in Hrot. rewrite Hm1 in Hrot. injection Hrot as <- <-.
    simpl. rewrite Hmats1. split; [lia|done].
Qed.

Lemma store_rotate_refines_witness :
  exists st' r,
    Store.rotate (Store.catalogStore KJ) 0%nat (-1) = Some (st', r) /\
    Store.content st' r = Some (rotate (shape (TETROMINOES KJ)) (-1)) /\
    (forall l, l ∉ [0; 1; 2]%nat ->
       Store.rowsOf st' !! l = Store.rowsOf (Store.catalogStore KJ) !! l) /\
    (-1 > 0 ->
     r = length (Store.matsOf (Store.catalogStore KJ)) /\
     Store.matsOf st' = Store.matsOf (Store.catalogStore KJ) ++ [[0; 1; 2]%nat]) /\
    (-1 <= 0 ->
     r = 0%nat /\
     Store.matsOf st' = <[0%nat := reverse [0; 1; 2]%nat]> (Store.matsOf (Store.catalogStore KJ))).
Proof.
  apply (store_rotate_refines (Store.catalogStore KJ) 0%nat [0; 1; 2]%nat
           (shape (TETROMINOES KJ)) (-1)).
  - reflexivity.
  - reflexivity.
  - apply (NoDup_seq 0 3).
Defined.

(** ** Keys *)

Lemma setCurrentPos_same (s : State) :
  setCurrentPos (mkPos (px (currentPos s)) (py (currentPos s))) s = s.
Proof. destruct s as [b t [x y] sc o st d l]. reflexivity. Qed.

Lemma setCurrentTetromino_same (s : State) (t : Tetromino) :
  currentTetromino s = Some t ->
  setCurrentTetromino (Some (mkTetromino (shape t) (color t))) s = s.
Proof.
  intros Ht. rewrite tetromino_eta. destruct s as [b t' p sc o st d l]. simpl in Ht.
  by rewrite Ht.
Qed.

Lemma run_cons_done (fuel : nat) (ev : Event) (evs : list Event) (s s1 : State) :
  step fuel ev s = Done s1 -> run fuel (ev :: evs) s = run fuel evs s1.
Proof. intros H. simpl. by rewrite H. Qed.

(** The up key on the state with the active piece in its orientation [i]. *)
Lemma arrowUp_step (fuel : nat) (type : TetrominoKey) (s : State) (t : Tetromino)
    (n i : nat) :
  gameStarted s = true -> gameOver s = false -> squareGrid n (shape t) ->
  checkCollision (orient (S i) (shape t)) (board s) (currentPos s) = false ->
  handleKeyDown fuel ArrowUp type
    (setCurrentTetromino (Some (mkTetromino (orient i (shape t)) (color t))) s)
  = Done (setCurrentTetromino (Some (mkTetromino (orient (S i) (shape t)) (color t))) s).
Proof.
  intros Hst Hov Hsq Hfree. unfold handleKeyDown. simpl. rewrite Hst, Hov. simpl.
  rewrite (spread_squareGrid n) by (by apply orient_squareGrid).
  change (orient (S i) (shape t)) with (rotate (orient i (shape t)) 1) in Hfree.
  replace (mkPos (px (currentPos s)) (py (currentPos s))) with (currentPos s)
    by (by destruct (currentPos s)).
  rewrite Hfree. simpl. by destruct s.
Qed.

(** X13. The up key in a running session.  When the rotated shape
    collides at the offset, the key changes nothing: no other offset is
    tried.  When it does not, the piece takes the rotated shape and keeps
    its color and its offset.  And when none of the four orientations
    collides at the offset, four up keys bring the state back. *)
Theorem rotation_key (fuel : nat) (k1 k2 k3 k4 : TetrominoKey) (s : State) (t : Tetromino) :
  reachable s -> gameStarted s = true -> gameOver s = false ->
  currentTetromino s = Some t ->
  (checkCollision (rotate (shape t) 1) (board s) (currentPos s) = true ->
   handleKeyDown fuel ArrowUp k1 s = Done s) /\
  (checkCollision (rotate (shape t) 1) (board s) (currentPos s) = false ->
   handleKeyDown fuel ArrowUp k1 s =
   Done (setCurrentTetromino (Some (mkTetromino (rotate (shape t) 1) (color t))) s)) /\
  ((forall i, (1 <= i <= 4)%nat ->
      checkCollision (orient i (shape t)) (board s) (currentPos s) = false) ->
   run fuel [KeyDown ArrowUp k1; KeyDown ArrowUp k2; KeyDown ArrowUp k3; KeyDown ArrowUp k4] s
   = Done s).
Proof.
  intros Hs Hst Hov Ht. apply reachable_inv in Hs as (_ & _ & _ & Hpiece).
  destruct (Hpiece t Ht) as [[[n Hsq] _] _].
  assert (forall k i,
    checkCollision (orient (S i) (shape t)) (board s) (currentPos s) = false ->
    handleKeyDown fuel ArrowUp k
      (setCurrentTetromino (Some (mkTetromino (orient i (shape t)) (color t))) s)
    = Done (setCurrentTetromino (Some (mkTetromino (orient (S i) (shape t)) (color t))) s))
    as Hstep by (intros k i; by apply (arrowUp_step fuel k s t n i)).
  split; [|split].
  - intros Hcol. unfold handleKeyDown. rewrite running_guard, Ht by done.
    rewrite (spread_squareGrid n) by done.
    replace (mkPos (px (currentPos s)) (py (currentPos s))) with (currentPos s)
      by (by destruct (currentPos s)).
    by rewrite Hcol.
  - intros Hfree. specialize (Hstep k1 0%nat Hfree). simpl in Hstep.
    by rewrite setCurrentTetromino_same in Hstep.
  - intros Hfree.
    pose proof (Hstep k1 0%nat (Hfree 1%nat ltac:(lia))) as H1.
    simpl in H1. rewrite setCurrentTetromino_same in H1 by done.
    rewrite (run_cons_done fuel (KeyDown ArrowUp k1) _ _ _ H1).
    rewrite (run_cons_done fuel (KeyDown ArrowUp k2) _ _ _ (Hstep k2 1%nat (Hfree 2%nat ltac:(lia)))).
    rewrite (run_cons_done fuel (KeyDown ArrowUp k3) _ _ _ (Hstep k3 2%nat (Hfree 3%nat ltac:(lia)))).
    rewrite (run_cons_done fuel (KeyDown ArrowUp k4) _ _ _ (Hstep k4 3%nat (Hfree 4%nat ltac:(lia)))).
    simpl. f_equal. rewrite (rotate4_id n) by done. by apply setCurrentTetromino_same.
Qed.

Lemma rotation_key_witness :
  run 20 [KeyDown ArrowUp KI; KeyDown ArrowUp KJ; KeyDown ArrowUp KL; KeyDown ArrowUp KO]
    spawnedT
  = Done spawnedT.
Proof.
  apply (rotation_key 20 KI KJ KL KO spawnedT (TETROMINOES KT)).
  - exists 20%nat, [Start KT]. reflexivity.
  - reflexivity.
  - reflexivity.
  - reflexivity.
  - intros i Hi. destruct i as [|[|[|[|[|i]]]]]; try lia; reflexivity.
Defined.

(** A down key when the row below is free. *)
Lemma arrowDown_free (fuel : nat) (type : TetrominoKey) (s : State) (t : Tetromino) :
  gameStarted s = true -> gameOver s = false -> currentTetromino s = Some t ->
  checkCollision (shape t) (board s)
    (mkPos (px (currentPos s)) (py (currentPos s) + 1)) = false ->
  handleKeyDown fuel ArrowDown type s
  = Done (setCurrentPos (mkPos (px (currentPos s)) (py (currentPos s) + 1)) s).
Proof.
  intros Hst Hov Ht Hfree. unfold handleKeyDown. rewrite running_guard, Ht, Hfree by done.
  simpl. f_equal. rewrite tetromino_eta. destruct s as [b t' p sc o st d l]. simpl in *.
  by rewrite Ht.
Qed.

Lemma softDrops (fuel : nat) (type : TetrominoKey) (t : Tetromino) (k : nat) :
  forall s,
    gameStarted s = true -> gameOver s = false -> currentTetromino s = Some t ->
    (forall y', py (currentPos s) < y' <= py (currentPos s) + Z.of_nat k ->
       checkCollision (shape t) (board s) (mkPos (px (currentPos s)) y') = false) ->
    run fuel (replicate k (KeyDown ArrowDown type)) s
    = Done (setCurrentPos (mkPos (px (currentPos s)) (py (currentPos s) + Z.of_nat k)) s).
Proof.
  induction k as [|k IH]; intros s Hst Hov Ht Hfree.
  - simpl. replace (py (currentPos s) + Z.of_nat 0) with (py (currentPos s)) by lia.
    by rewrite setCurrentPos_same.
  - change (replicate (S k) (KeyDown ArrowDown type))
      with (KeyDown ArrowDown type :: replicate k (KeyDown ArrowDown type)).
    rewrite (run_cons_done fuel (KeyDown ArrowDown type) _ s
               (setCurrentPos (mkPos (px (currentPos s)) (py (currentPos s) + 1)) s)).
    + rewrite IH; try done.
      * simpl. f_equal.
        replace (py (currentPos s) + 1 + Z.of_nat k) with (py (currentPos s) + Z.of_nat (S k))
          by lia.
        by destruct s.
      * simpl. intros y' Hy'. apply Hfree. lia.
    + apply (arrowDown_free fuel type s t); try done. apply Hfree. lia.
Qed.

(** X14. The hard drop is a run of soft drops: where the space key takes
    the piece [k] rows down, [k] down keys lead to the same state, and one
    more down key locks the piece there. *)
Theorem hardDrop_is_softDrops (fuel fuel' : nat) (type type' : TetrominoKey)
    (s s' : State) (t : Tetromino) :
  gameStarted s = true -> gameOver s = false -> currentTetromino s = Some t ->
  handleKeyDown fuel Space type s = Done s' ->
  exists k : nat,
    py (currentPos s') = py (currentPos s) + Z.of_nat k /\
    run fuel' (replicate k (KeyDown ArrowDown type')) s = Done s' /\
    handleKeyDown fuel' ArrowDown type' s' = lockAndSpawn type' s' s' t.
Proof.
  intros Hst Hov Ht Hkey. unfold handleKeyDown in Hkey.
  rewrite running_guard, Ht in Hkey by done.
  destruct (dropLoop fuel (shape t) (board s) (px (currentPos s)) (py (currentPos s)))
    as [d|] eqn:Hd; [|done].
  injection Hkey as <-. destruct (dropLoop_spec _ _ _ _ _ _ Hd) as (Hle & Hstop & _).
  exists (Z.to_nat (d - py (currentPos s))). simpl. split; [lia|]. split.
  - rewrite (softDrops fuel' type' t _ s Hst Hov Ht).
    + do 3 f_equal. lia.
    + intros y' Hy'. apply (dropLoop_free _ _ _ _ _ _ Hd). lia.
  - unfold handleKeyDown. simpl. rewrite Hst, Hov, Ht. simpl. by rewrite Hstop.
Qed.

Lemma hardDrop_is_softDrops_witness :
  exists k : nat,
    py (currentPos (setCurrentPos (mkPos 4 18) spawnedO)) = py (currentPos spawnedO) + Z.of_nat k /\
    run 0 (replicate k (KeyDown ArrowDown KT)) spawnedO
    = Done (setCurrentPos (mkPos 4 18) spawnedO) /\
    handleKeyDown 0 ArrowDown KT (setCurrentPos (mkPos 4 18) spawnedO)
    = lockAndSpawn KT (setCurrentPos (mkPos 4 18) spawnedO)
        (setCurrentPos (mkPos 4 18) spawnedO) (TETROMINOES KO).
Proof.
  apply (hardDrop_is_softDrops 20 0 KJ KT spawnedO (setCurrentPos (mkPos 4 18) spawnedO)
           (TETROMINOES KO)).
  - reflexivity.
  - reflexivity.
  - reflexivity.
  - vm_compute. reflexivity.
Defined.

(** ** Frames *)

(** X15. A frame in a running session with a piece.  Before the drop
    interval has run out it changes the two timers only: the elapsed time
    is added to the drop timer (none for the first frame after a start).
    Once it has run out, the frame does to the game what a down key does,
    a move by one row or the lock, and the drop timer starts again at 0. *)
Theorem frame_is_down_key (fuel : nat) (time : Z) (type : TetrominoKey)
    (s : State) (t : Tetromino) :
  reachable s -> gameStarted s = true -> gameOver s = false ->
  currentTetromino s = Some t ->
  (~ dropDue time s ->
   exists s', gameLoop time type s = Done s' /\ sameGame s' s /\
     lastTime s' = time /\
     dropTime s' = dropTime s + (time - (if lastTime s =? 0 then time else lastTime s))) /\
  (dropDue time s ->
   exists s1 s2,
     handleKeyDown fuel ArrowDown type s = Done s1 /\
     gameLoop time type s = Done s2 /\
     sameGame s2 s1 /\ lastTime s2 = time /\ dropTime s2 = 0).
Proof.
  intros Hs Hst Hov Ht. apply reachable_inv in Hs as Hinv. split.
  - intros Hdue. unfold gameLoop. rewrite running_guard by done. simpl.
    unfold dropDue in Hdue.
    destruct (Z.gtb_spec (dropTime s + (time - (if lastTime s =? 0 then time else lastTime s)))
                dropInterval) as [Hgt|_]; [lia|].
    eexists. split; [done|]. repeat split.
  - intros Hdue. unfold gameLoop. rewrite running_guard by done. simpl.
    unfold dropDue in Hdue.
    destruct (Z.gtb_spec (dropTime s + (time - (if lastTime s =? 0 then time else lastTime s)))
                dropInterval) as [_|Hle]; [|lia].
    rewrite Ht.
    destruct (checkCollision (shape t) (board s)
                (mkPos (px (currentPos s)) (py (currentPos s) + 1))) eqn:Hcol; simpl.
    + destruct Hinv as (Hwf & _ & _ & Hpiece). destruct (Hpiece t Ht) as [_ Hin].
      destruct (lockLines_wf t (currentPos s) (board s) Hwf Hin) as (b & n & Hlock & _ & _).
      unfold handleKeyDown. rewrite running_guard, Ht, Hcol by done. simpl.
      unfold lockAndSpawn, updateBoard. simpl. rewrite Hlock.
      eexists _, _. split; [done|]. split; [done|].
      unfold newTetromino, sameGame.
      destruct (checkCollision (shape (TETROMINOES type)) (board s)
                  (mkPos (startX (TETROMINOES type)) startY));
        destruct (n >? 0); simpl; repeat split.
    + rewrite (arrowDown_free fuel type s t) by done.
      eexists _, _. split; [done|]. split; [done|]. repeat split.
Qed.

Lemma frame_is_down_key_witness :
  exists s1 s2,
    handleKeyDown 20 ArrowDown KT restingO = Done s1 /\
    gameLoop 2000 KT restingO = Done s2 /\
    sameGame s2 s1 /\ lastTime s2 = 2000 /\ dropTime s2 = 0.
Proof.
  apply (frame_is_down_key 20 2000 KT restingO (TETROMINOES KO)).
  - exists 20%nat, [Start KO; KeyDown Space KO; Frame 16 KO]. reflexivity.
  - reflexivity.
  - reflexivity.
  - reflexivity.
  - unfold dropDue, dropInterval. simpl. lia.
Defined.

(** ** Starting again *)

Lemma startGame_spec (type : TetrominoKey) (s : State) :
  board (startGame type s) = createBoard /\ score (startGame type s) = 0 /\
  ((spawnBlocked type (board s) /\
    gameOver (startGame type s) = true /\ gameStarted (startGame type s) = false /\
    currentTetromino (startGame type s) = currentTetromino s /\
    currentPos (startGame type s) = currentPos s) \/
   (~ spawnBlocked type (board s) /\
    gameOver (startGame type s) = false /\ gameStarted (startGame type s) = true /\
    currentTetromino (startGame type s) = Some (TETROMINOES type) /\
    currentPos (startGame type s) = spawnPos type)).
Proof.
  unfold startGame, newTetromino, spawnBlocked, spawnPos.
  destruct (checkCollision _ _ _); simpl; (split; [done|]); (split; [done|]);
    [left|right]; repeat split; done.
Qed.

(** X16. The start button on a session that does not run.  One click
    empties the board and sets the score to 0, but its spawn is tested on
    the board from before the click: when the piece drawn collides with
    that board, the session stays over.  The board being empty by then, a
    second click always starts the session. *)
Theorem start_twice_runs (fuel : nat) (k1 k2 : TetrominoKey) (s : State) :
  stopped s ->
  (exists s1, step fuel (Start k1) s = Done s1 /\
     board s1 = createBoard /\ score s1 = 0 /\
     (spawnBlocked k1 (board s) -> gameOver s1 = true /\ gameStarted s1 = false) /\
     (~ spawnBlocked k1 (board s) ->
      gameOver s1 = false /\ gameStarted s1 = true /\
      currentTetromino s1 = Some (TETROMINOES k1) /\ currentPos s1 = spawnPos k1)) /\
  (exists s2, run fuel [Start k1; Start k2] s = Done s2 /\
     board s2 = createBoard /\ score s2 = 0 /\
     gameOver s2 = false /\ gameStarted s2 = true /\
     (currentTetromino s2 = Some (TETROMINOES k1) /\ currentPos s2 = spawnPos k1 \/
      currentTetromino s2 = Some (TETROMINOES k2) /\ currentPos s2 = spawnPos k2)).
Proof.
  intros Hstop.
  assert (gameStarted s && negb (gameOver s) = false) as Hbtn.
  { destruct Hstop as [->| ->]; [done|]. by rewrite andb_false_r. }
  assert (step fuel (Start k1) s = Done (startGame k1 s)) as H1 by (simpl; by rewrite Hbtn).
  destruct (startGame_spec k1 s) as (Hb & Hsc & Hfl).
  split.
  - exists (startGame k1 s). split; [done|]. split; [done|]. split; [done|].
    destruct Hfl as [(Hbl & Ho & Hst & _)|(Hbl & Ho & Hst & Ht & Hp)]; split; try done.
  - rewrite (run_cons_done fuel (Start k1) _ s _ H1).
    remember (startGame k1 s) as s1 eqn:Hs1.
    destruct Hfl as [(Hbl & Ho & Hst & _)|(Hbl & Ho & Hst & Ht & Hp)].
    + assert (step fuel (Start k2) s1 = Done (startGame k2 s1)) as H2
        by (simpl; by rewrite Hst).
      rewrite (run_cons_done fuel (Start k2) _ s1 _ H2). simpl.
      destruct (startGame_spec k2 s1) as (Hb2 & Hsc2 & Hfl2). rewrite Hb in Hfl2.
      destruct Hfl2 as [(Hbl2 & _)|(_ & Ho2 & Hst2 & Ht2 & Hp2)];
        [by apply spawn_on_empty_board in Hbl2|].
      eexists. split; [done|]. repeat (split; [done|]). by right.
    + assert (step fuel (Start k2) s1 = Done s1) as H2 by (simpl; by rewrite Hst, Ho).
      rewrite (run_cons_done fuel (Start k2) _ s1 _ H2). simpl.
      eexists. split; [done|]. repeat (split; [done|]). by left.
Qed.

Lemma start_twice_runs_witness :
  exists s2, run 0 [Start KO; Start KT] toppedOut = Done s2 /\
     board s2 = createBoard /\ score s2 = 0 /\
     gameOver s2 = false /\ gameStarted s2 = true /\
     (currentTetromino s2 = Some (TETROMINOES KO) /\ currentPos s2 = spawnPos KO \/
      currentTetromino s2 = Some (TETROMINOES KT) /\ currentPos s2 = spawnPos KT).
Proof.
  apply (start_twice_runs 0 KO KT toppedOut).
  right. reflexivity.
Defined.

(** ** Collisions on an empty board *)

Lemma createBoard_lookup (y : nat) (r : list value) :
  createBoard !! y = Some r -> r = emptyRow.
Proof. intros H. by apply lookup_replicate in H as [-> _]. Qed.

(** X17. On the board that [createBoard] makes, a shape collides exactly
    when one of its occupied cells lands out of bounds; so every catalog
    piece fits at its spawn offset on an empty board. *)
Theorem collision_on_empty_board :
  (forall (sh : Matrix) (p : Pos),
     checkCollision sh createBoard p = true <->
     exists r c, occupied sh r c /\
       (landX p c < 0 \/ landX p c >= BOARD_WIDTH \/ landY p r >= BOARD_HEIGHT)) /\
  (forall type, checkCollision (shape (TETROMINOES type)) createBoard (spawnPos type) = false).
Proof.
  split.
  - intros sh p. rewrite checkCollision_iff. unfold blocked, outOfBounds.
    split; intros (r & c & Hocc & Hb); exists r, c; (split; [done|]); [|by left].
    destruct Hb as [Hout|[Hy (row & Hrow & Hne)]]; [done|].
    apply createBoard_lookup in Hrow as ->.
    destruct (Z.lt_ge_cases (landX p c) 0) as [|Hx0]; [by left|].
    destruct (Z.lt_ge_cases (landX p c) BOARD_WIDTH) as [Hx1|]; [|right; left; lia].
    exfalso. unfold js_get in Hne. destruct (Z.ltb_spec (landX p c) 0); [lia|].
    unfold emptyRow in Hne. rewrite lookup_replicate_2 in Hne; [done|]. lia.
  - intros type. pose proof (spawn_on_empty_board type) as H. unfold spawnBlocked in H.
    by destruct (checkCollision _ _ _).
Qed.

(** ** What a lock writes *)

Lemma writeCell_boardCell (b : Board) (boardY boardX : Z) (c : value) (b' : Board) :
  wfBoard b -> 0 <= boardX < BOARD_WIDTH -> writeCell b boardY boardX c = Some b' ->
  forall y x, boardCell b' y x =
    if decide (y = boardY /\ x = boardX) then Some c else boardCell b y x.
Proof.
  intros [_ Hrows] Hx. unfold writeCell. destruct (Z.ltb_spec boardY 0) as [|Hy]; [done|].
  destruct (b !! Z.to_nat boardY) as [r|] eqn:Hr; [|done]. intros [= <-] y x.
  eapply Forall_lookup_1 in Hrows; [|done]. simpl in Hrows.
  unfold js_set. destruct (Z.ltb_spec boardX 0); [lia|].
  destruct (Z.ltb_spec boardX (Z.of_nat (length r))); [|unfold BOARD_WIDTH in *; lia].
  unfold boardCell.
  destruct (Z.ltb_spec y 0); simpl; [case_decide; [lia|done]|].
  destruct (Z.ltb_spec x 0); simpl; [case_decide; [lia|done]|].
  rewrite list_lookup_insert.
  destruct (decide (Z.to_nat boardY = Z.to_nat y /\ (Z.to_nat boardY < length b)%nat)) as [[Heq _]|Hne].
  - assert (y = boardY) as -> by lia. simpl. rewrite list_lookup_insert, Hr. simpl.
    repeat case_decide; try done; lia.
  - apply lookup_lt_Some in Hr as Hlt. case_decide; [|done]. lia.
Qed.

(** The cells of a shape row that [updateBoard] writes, by where they
    land when the row is row [y0] and its first cell is column [x0]. *)
Lemma writeRow_boardCell (cells : list value) (col : string) (p : Pos) (y0 x0 : Z)
    (b b' : Board) :
  wfBoard b ->
  (forall (c : nat) v, cells !! c = Some v -> neq0 v = true ->
     0 <= px p + (x0 + Z.of_nat c) < BOARD_WIDTH /\ 0 <= py p + y0 < BOARD_HEIGHT) ->
  writeRow cells col p y0 x0 b = Some b' ->
  forall y x,
    ((exists (c : nat) v, cells !! c = Some v /\ v <> Hole /\ neq0 v = true /\
        y = py p + y0 /\ x = px p + (x0 + Z.of_nat c)) ->
     boardCell b' y x = Some (Str col)) /\
    ((forall (c : nat) v, cells !! c = Some v -> v <> Hole -> neq0 v = true ->
        ~ (y = py p + y0 /\ x = px p + (x0 + Z.of_nat c))) ->
     boardCell b' y x = boardCell b y x).
Proof.
  revert x0 b. induction cells as [|v rest IH]; intros x0 b Hwf Hin; simpl.
  - intros [= <-] y x. split; [|done]. intros (c & w & Hc & _). by destruct c.
  - assert (forall (c : nat) w, rest !! c = Some w -> neq0 w = true ->
       0 <= px p + (x0 + 1 + Z.of_nat c) < BOARD_WIDTH /\ 0 <= py p + y0 < BOARD_HEIGHT) as Hrest.
    { intros c w Hc Hw. replace (x0 + 1 + Z.of_nat c) with (x0 + Z.of_nat (S c)) by lia.
      by apply (Hin (S c) w). }
    assert (~ (v <> Hole /\ neq0 v = true) ->
      writeRow rest col p y0 (x0 + 1) b = Some b' ->
      forall y x,
        ((exists (c : nat) w, (v :: rest) !! c = Some w /\ w <> Hole /\ neq0 w = true /\
            y = py p + y0 /\ x = px p + (x0 + Z.of_nat c)) ->
         boardCell b' y x = Some (Str col)) /\
        ((forall (c : nat) w, (v :: rest) !! c = Some w -> w <> Hole -> neq0 w = true ->
            ~ (y = py p + y0 /\ x = px p + (x0 + Z.of_nat c))) ->
         boardCell b' y x = boardCell b y x)) as Hskip.
    { intros Hv Hw y x. destruct (IH (x0 + 1) b Hwf Hrest Hw y x) as [IH1 IH2]. split.
      - intros ([|c] & w & Hc & Hw1 & Hw2 & Hy & Hx); simpl in Hc.
        + injection Hc as <-. by destruct Hv.
        + apply IH1. exists c, w. repeat split; try done. lia.
      - intros Hno. apply IH2. intros c w Hc Hw1 Hw2 [Hy Hx].
        apply (Hno (S c) w Hc Hw1 Hw2). split; [done|lia]. }
    assert (v <> Hole -> neq0 v = true ->
      match writeCell b (py p + y0) (px p + x0) (Str col) with
      | Some b0 => writeRow rest col p y0 (x0 + 1) b0
      | None => None
      end = Some b' ->
      forall y x,
        ((exists (c : nat) w, (v :: rest) !! c = Some w /\ w <> Hole /\ neq0 w = true /\
            y = py p + y0 /\ x = px p + (x0 + Z.of_nat c)) ->
         boardCell b' y x = Some (Str col)) /\
        ((forall (c : nat) w, (v :: rest) !! c = Some w -> w <> Hole -> neq0 w = true ->
            ~ (y = py p + y0 /\ x = px p + (x0 + Z.of_nat c))) ->
         boardCell b' y x = boardCell b y x)) as Hwrite.
    { intros Hv1 Hv2. destruct (Hin 0%nat v eq_refl Hv2) as [Hx Hy].
      replace (x0 + Z.of_nat 0) with x0 in Hx by lia.
      destruct (writeCell_wf b (py p + y0) (px p + x0) (Str col) Hwf Hx Hy) as (b1 & Hw1 & Hwf1).
      rewrite Hw1. intros Hw y x.
      destruct (IH (x0 + 1) b1 Hwf1 Hrest Hw y x) as [IH1 IH2].
      pose proof (writeCell_boardCell b _ _ _ b1 Hwf Hx Hw1 y x) as Hcell.
      split.
      - intros ([|c] & w & Hc & Hw2 & Hw3 & Hy' & Hx'); simpl in Hc.
        + rewrite IH2.
          * rewrite Hcell. case_decide; [done|lia].
          * intros c' w' _ _ _ [_ Hx'']. lia.
        + apply IH1. exists c, w. repeat split; try done. lia.
      - intros Hno. rewrite IH2.
        + rewrite Hcell. case_decide as Hd; [|done].
          exfalso. apply (Hno 0%nat v eq_refl Hv1 Hv2). split; [lia|lia].
        + intros c w Hc Hw2 Hw3 [Hy' Hx']. apply (Hno (S c) w Hc Hw2 Hw3). split; [done|lia]. }
    destruct v as [n| | |].
    + destruct (neq0 (Num n)) eqn:Hn; [by apply Hwrite|]. apply Hskip. intros [_ ?]. congruence.
    + by apply Hwrite.
    + by apply Hwrite.
    + apply Hskip. by intros [? _].
Qed.

Lemma writeRows_boardCell (rows : list (list value)) (col : string) (p : Pos) (y0 : Z)
    (b b' : Board) :
  wfBoard b ->
  (forall (r c : nat) cells v, rows !! r = Some cells -> cells !! c = Some v ->
     neq0 v = true ->
     0 <= px p + Z.of_nat c < BOARD_WIDTH /\ 0 <= py p + (y0 + Z.of_nat r) < BOARD_HEIGHT) ->
  writeRows rows col p y0 b = Some b' ->
  forall y x,
    ((exists (r c : nat) cells v, rows !! r = Some cells /\ cells !! c = Some v /\
        v <> Hole /\ neq0 v = true /\
        y = py p + (y0 + Z.of_nat r) /\ x = px p + Z.of_nat c) ->
     boardCell b' y x = Some (Str col)) /\
    ((forall (r c : nat) cells v, rows !! r = Some cells -> cells !! c = Some v ->
        v <> Hole -> neq0 v = true ->
        ~ (y = py p + (y0 + Z.of_nat r) /\ x = px p + Z.of_nat c)) ->
     boardCell b' y x = boardCell b y x).
Proof.
  revert y0 b. induction rows as [|cells rest IH]; intros y0 b Hwf Hin; simpl.
  - intros [= <-] y x. split; [|done]. intros (r & c & cs & w & Hr & _). by destruct r.
  - assert (forall (c : nat) v, cells !! c = Some v -> neq0 v = true ->
       0 <= px p + (0 + Z.of_nat c) < BOARD_WIDTH /\ 0 <= py p + y0 < BOARD_HEIGHT) as Hhead.
    { intros c v Hc Hv. destruct (Hin 0%nat c cells v eq_refl Hc Hv) as [Hx Hy].
      split; [lia|]. by replace (y0 + Z.of_nat 0) with y0 in Hy by lia. }
    assert (forall (r c : nat) cs v, rest !! r = Some cs -> cs !! c = Some v ->
       neq0 v = true ->
       0 <= px p + Z.of_nat c < BOARD_WIDTH /\
       0 <= py p + (y0 + 1 + Z.of_nat r) < BOARD_HEIGHT) as Hrest.
    { intros r c cs v Hr Hc Hv.
      replace (y0 + 1 + Z.of_nat r) with (y0 + Z.of_nat (S r)) by lia.
      by apply (Hin (S r) c cs v). }
    destruct (writeRow_wf cells col p y0 0 b Hwf Hhead) as (b1 & Hw1 & Hwf1).
    rewrite Hw1. intros Hw y x.
    destruct (IH (y0 + 1) b1 Hwf1 Hrest Hw y x) as [IH1 IH2].
    destruct (writeRow_boardCell cells col p y0 0 b b1 Hwf Hhead Hw1 y x) as [Hrow1 Hrow2].
    split.
    + intros ([|r] & c & cs & w & Hr & Hc & Hw2 & Hw3 & Hy & Hx); simpl in Hr.
      * injection Hr as <-. rewrite IH2.
        -- apply Hrow1. exists c, w. repeat split; try done; lia.
        -- intros r' c' cs' w' _ _ _ _ [Hy' _]. lia.
      * apply IH1. exists r, c, cs, w. repeat split; try done. lia.
    + intros Hno. rewrite IH2.
      * apply Hrow2. intros c w Hc Hw2 Hw3 [Hy Hx].
        apply (Hno 0%nat c cells w eq_refl Hc Hw2 Hw3). split; lia.
      * intros r c cs w Hr Hc Hw2 Hw3 [Hy Hx].
        apply (Hno (S r) c cs w Hr Hc Hw2 Hw3). split; [lia|done].
Qed.

Lemma boardCell_spread (b : Board) (y x : Z) :
  boardCell (map spread b) y x = read <$> boardCell b y x.
Proof.
  unfold boardCell. destruct ((y <? 0) || (x <? 0)); [done|].
  change (map spread b) with (spread <$> b). rewrite list_lookup_fmap.
  destruct (b !! Z.to_nat y) as [r|]; [|done]. simpl.
  unfold spread. change (map read r) with (read <$> r). by rewrite list_lookup_fmap.
Qed.

(** X18. What the lock writes, for a piece inside a board of the fixed
    dimensions: the write returns a board of the same dimensions in which
    the cells under the occupied cells of the piece hold the color of the
    piece, and every other cell holds what it held (an absent slot read as
    [undefined]). *)
Theorem piece_written (t : Tetromino) (p : Pos) (prev : Board) :
  wfBoard prev -> inBounds (shape t) p ->
  exists b, writePiece t p prev = Some b /\ wfBoard b /\
    forall y x,
      ((exists r c, written (shape t) r c /\ landY p r = y /\ landX p c = x) ->
       boardCell b y x = Some (Str (color t))) /\
      ((forall r c, written (shape t) r c -> ~ (landY p r = y /\ landX p c = x)) ->
       boardCell b y x = read <$> boardCell prev y x).
Proof.
  intros Hwf Hin. destruct (writePiece_wf t p prev Hwf Hin) as (b & Hw & Hwfb).
  exists b. split; [done|]. split; [done|]. intros y x.
  assert (forall (r c : nat) cells v, shape t !! r = Some cells -> cells !! c = Some v ->
     neq0 v = true ->
     0 <= px p + Z.of_nat c < BOARD_WIDTH /\ 0 <= py p + (0 + Z.of_nat r) < BOARD_HEIGHT)
    as Hb.
  { intros r c cells v Hr Hc Hv. replace (0 + Z.of_nat r) with (Z.of_nat r) by lia.
    apply (Hin r c). by exists cells, v. }
  destruct (writeRows_boardCell (shape t) (color t) p 0 (map spread prev) b
              (wfBoard_spread prev Hwf) Hb Hw y x) as [H1 H2].
  split.
  - intros (r & c & (cells & v & Hr & Hc & Hv1 & Hv2) & Hy & Hx). apply H1.
    exists r, c, cells, v. unfold landY, landX in *. repeat split; try done; lia.
  - intros Hno. rewrite H2, boardCell_spread; [done|].
    intros r c cells v Hr Hc Hv1 Hv2 [Hy Hx]. apply (Hno r c).
    + by exists cells, v.
    + unfold landY, landX. split; lia.
Qed.

Lemma piece_written_witness :
  exists b, writePiece (TETROMINOES KO) (mkPos 4 18) twoRows = Some b /\ wfBoard b /\
    forall y x,
      ((exists r c, written (shape (TETROMINOES KO)) r c /\
          landY (mkPos 4 18) r = y /\ landX (mkPos 4 18) c = x) ->
       boardCell b y x = Some (Str (color (TETROMINOES KO)))) /\
      ((forall r c, written (shape (TETROMINOES KO)) r c ->
          ~ (landY (mkPos 4 18) r = y /\ landX (mkPos 4 18) c = x)) ->
       boardCell b y x = read <$> boardCell twoRows y x).
Proof.
  apply (piece_written (TETROMINOES KO) (mkPos 4 18) twoRows).
  - split; [reflexivity|]. repeat constructor.
  - apply (noCollision_inBounds _ createBoard); [reflexivity|]. simpl. lia.
Defined.

(** ** When a lock throws *)

Lemma writeCell_None (b : Board) (boardY boardX : Z) (c : value) :
  writeCell b boardY boardX c = None <->
  boardY < 0 \/ boardY >= Z.of_nat (length b).
Proof.
  unfold writeCell. destruct (Z.ltb_spec boardY 0) as [|Hy]; [split; [by left|done]|].
  destruct (b !! Z.to_nat boardY) as [r|] eqn:Hr.
  - apply lookup_lt_Some in Hr. split; [done|]. lia.
  - apply lookup_ge_None in Hr. split; [intros _; right; lia|done].
Qed.

Lemma writeRow_None (cells : list value) (col : string) (p : Pos) (y x : Z) (b : Board) :
  writeRow cells col p y x b = None <->
  (exists (c : nat) v, cells !! c = Some v /\ v <> Hole /\ neq0 v = true) /\
  (py p + y < 0 \/ py p + y >= Z.of_nat (length b)).
Proof.
  revert x b. induction cells as [|v rest IH]; intros x b; simpl.
  - split; [done|]. intros [(c & w & Hc & _) _]. by destruct c.
  - assert ((exists (c : nat) w, (v :: rest) !! c = Some w /\ w <> Hole /\ neq0 w = true) <->
            (v <> Hole /\ neq0 v = true) \/
            (exists (c : nat) w, rest !! c = Some w /\ w <> Hole /\ neq0 w = true)) as Hex.
    { split.
      - intros ([|c] & w & Hc & Hw); simpl in Hc; [injection Hc as <-; by left|right; eauto].
      - intros [Hv|(c & w & Hc & Hw)]; [by exists 0%nat, v|by exists (S c), w]. }
    assert (~ (v <> Hole /\ neq0 v = true) ->
      writeRow rest col p y (x + 1) b = None <->
      (exists (c : nat) w, (v :: rest) !! c = Some w /\ w <> Hole /\ neq0 w = true) /\
      (py p + y < 0 \/ py p + y >= Z.of_nat (length b))) as Hskip.
    { intros Hv. rewrite IH, Hex. tauto. }
    assert (v <> Hole -> neq0 v = true ->
      match writeCell b (py p + y) (px p + x) (Str col) with
      | Some b0 => writeRow rest col p y (x + 1) b0
      | None => None
      end = None <->
      (exists (c : nat) w, (v :: rest) !! c = Some w /\ w <> Hole /\ neq0 w = true) /\
      (py p + y < 0 \/ py p + y >= Z.of_nat (length b))) as Hwrite.
    { intros Hv1 Hv2.
      destruct (writeCell b (py p + y) (px p + x) (Str col)) as [b1|] eqn:Hw.
      - assert (~ (py p + y < 0 \/ py p + y >= Z.of_nat (length b))) as Hrange.
        { intros Hr. apply (writeCell_None b (py p + y) (px p + x) (Str col)) in Hr. congruence. }
        apply writeCell_length in Hw. rewrite IH, Hw. tauto.
      - apply writeCell_None in Hw. rewrite Hex. tauto. }
    destruct v as [n| | |].
    + destruct (neq0 (Num n)) eqn:Hn; [by apply Hwrite|]. apply Hskip. intros [_ ?]. congruence.
    + by apply Hwrite.
    + by apply Hwrite.
    + apply Hskip. by intros [? _].
Qed.

Lemma writeRows_None (rows : list (list value)) (col : string) (p : Pos) (y : Z) (b : Board) :
  writeRows rows col p y b = None <->
  exists (r c : nat) cells v, rows !! r = Some cells /\ cells !! c = Some v /\
    v <> Hole /\ neq0 v = true /\
    (py p + (y + Z.of_nat r) < 0 \/ py p + (y + Z.of_nat r) >= Z.of_nat (length b)).
Proof.
  revert y b. induction rows as [|cells rest IH]; intros y b; simpl.
  - split; [done|]. intros (r & c & cs & w & Hr & _). by destruct r.
  - destruct (writeRow cells col p y 0 b) as [b1|] eqn:Hw.
    + apply writeRow_length in Hw as Hlen.
      assert (~ ((exists (c : nat) v, cells !! c = Some v /\ v <> Hole /\ neq0 v = true) /\
                 (py p + y < 0 \/ py p + y >= Z.of_nat (length b)))) as Hhead.
      { intros H. apply (writeRow_None cells col p y 0 b) in H. congruence. }
      rewrite IH, Hlen. split.
      * intros (r & c & cs & w & Hr & Hc & Hw1 & Hw2 & Hy). exists (S r), c, cs, w.
        replace (y + Z.of_nat (S r)) with (y + 1 + Z.of_nat r) by lia. done.
      * intros ([|r] & c & cs & w & Hr & Hc & Hw1 & Hw2 & Hy); simpl in Hr.
        -- injection Hr as <-. exfalso. apply Hhead. split; [by exists c, w|].
           by replace (y + Z.of_nat 0) with y in Hy by lia.
        -- exists r, c, cs, w.
           replace (y + 1 + Z.of_nat r) with (y + Z.of_nat (S r)) by lia. done.
    + apply writeRow_None in Hw as [(c & w & Hc & Hw1 & Hw2) Hy]. split; [intros _|done].
      exists 0%nat, c, cells, w. by replace (y + Z.of_nat 0) with y by lia.
Qed.

Lemma clearLoop_None (b : Board) (n : Z) :
  clearLoop b (BOARD_HEIGHT - 1) n = None <-> Z.of_nat (length b) < BOARD_HEIGHT.
Proof.
  destruct (Z.lt_ge_cases (Z.of_nat (length b)) BOARD_HEIGHT) as [Hlt|Hge].
  - split; [done|]. intros _. rewrite clearLoop_step. simpl.
    rewrite lookup_ge_None_2; [done|]. unfold BOARD_HEIGHT in *. lia.
  - split; [|lia]. rewrite <- (take_drop (Z.to_nat BOARD_HEIGHT) b).
    rewrite (clearLoop_scan (countFull (take (Z.to_nat BOARD_HEIGHT) b)
                             + length (take (Z.to_nat BOARD_HEIGHT) b)));
      [done|lia|].
    rewrite length_take. unfold BOARD_HEIGHT in *. lia.
Qed.

(** X19. The updater of [updateBoard] throws in two cases only: the piece
    has a cell to write on a row that the board does not have, or the
    board has fewer rows than the board height.  A cell to write in a
    column out of range does not make it throw. *)
Theorem lock_throws_iff (t : Tetromino) (p : Pos) (prev : Board) :
  lockLines t p prev = None <->
  (exists r c, written (shape t) r c /\
     (landY p r < 0 \/ landY p r >= Z.of_nat (length prev))) \/
  Z.of_nat (length prev) < BOARD_HEIGHT.
Proof.
  unfold lockLines, writePiece.
  destruct (writeRows (shape t) (color t) p 0 (map spread prev)) as [b|] eqn:Hw.
  - apply writeRows_length in Hw as Hlen. rewrite length_map in Hlen.
    rewrite clearLoop_None, Hlen. split; [by right|]. intros [Hthrow|Hshort]; [|done].
    exfalso. destruct Hthrow as (r & c & (cells & v & Hr & Hc & Hv1 & Hv2) & Hy).
    assert (writeRows (shape t) (color t) p 0 (map spread prev) = None); [|congruence].
    apply writeRows_None. exists r, c, cells, v. rewrite length_map.
    unfold landY in Hy. replace (0 + Z.of_nat r) with (Z.of_nat r) by lia. done.
  - split; [intros _|done]. left.
    apply writeRows_None in Hw as (r & c & cells & v & Hr & Hc & Hv1 & Hv2 & Hy).
    rewrite length_map in Hy. exists r, c. split; [by exists cells, v|].
    unfold landY. by replace (0 + Z.of_nat r) with (Z.of_nat r) in Hy by lia.
Qed.

(** ** The loop of the hard drop *)

(** X20. The loop of the hard drop ends exactly for the shapes that have
    an occupied cell: on a shape without one, [checkCollision] is never
    positive and the loop goes down for ever, whatever the board. *)
Theorem hardDrop_loop_ends_iff (sh : Matrix) (b : Board) (x y : Z) :
  (exists fuel d, dropLoop fuel sh b x y = Some d) <-> exists r c, occupied sh r c.
Proof.
  split.
  - intros (fuel & d & Hd). apply dropLoop_spec in Hd as (_ & Hstop & _).
    apply checkCollision_iff in Hstop as (r & c & Hocc & _). eauto.
  - intros (r & c & Hocc).
    destruct (dropLoop_total (S (Z.to_nat (BOARD_HEIGHT - (y + Z.of_nat r)))) sh b x y r c Hocc)
      as [d Hd]; [lia..|]. eauto.
Qed.

(** ** What is drawn *)

Lemma elem_of_drawBlock (style : value) (x y : Z) (a b w h : Z) :
  FillRect a b w h ∈ drawBlock style x y <->
  a = x * BLOCK_SIZE /\ b = y * BLOCK_SIZE /\ w = BLOCK_SIZE /\ h = BLOCK_SIZE.
Proof.
  unfold drawBlock. rewrite !elem_of_cons, elem_of_nil. split.
  - intros [?|[[= -> -> -> ->]|[?|[?|[]]]]]; done.
  - intros (-> & -> & -> & ->). right. by left.
Qed.

Lemma elem_of_drawBoardRow (cells : list value) (y x0 : Z) (a b w h : Z) :
  FillRect a b w h ∈ drawBoardRow cells y x0 <->
  w = BLOCK_SIZE /\ h = BLOCK_SIZE /\ b = y * BLOCK_SIZE /\
  exists (c : nat) v, cells !! c = Some v /\ v <> Hole /\ neq0 v = true /\
    a = (x0 + Z.of_nat c) * BLOCK_SIZE.
Proof.
  revert x0. induction cells as [|v rest IH]; intros x0; simpl.
  - rewrite elem_of_nil. split; [done|]. intros (_ & _ & _ & c & w' & Hc & _). by destruct c.
  - assert (FillRect a b w h ∈ drawBoardRow rest y (x0 + 1) <->
            w = BLOCK_SIZE /\ h = BLOCK_SIZE /\ b = y * BLOCK_SIZE /\
            exists (c : nat) v', (v :: rest) !! S c = Some v' /\ v' <> Hole /\
              neq0 v' = true /\ a = (x0 + Z.of_nat (S c)) * BLOCK_SIZE) as Hrest.
    { rewrite IH. split; intros (-> & -> & -> & c & v' & Hc & Hv1 & Hv2 & ->);
        (repeat split; try done); exists c, v'; (repeat split; try done); f_equal; lia. }
    assert (~ (v <> Hole /\ neq0 v = true) ->
      FillRect a b w h ∈ drawBoardRow rest y (x0 + 1) <->
      w = BLOCK_SIZE /\ h = BLOCK_SIZE /\ b = y * BLOCK_SIZE /\
      exists (c : nat) v', (v :: rest) !! c = Some v' /\ v' <> Hole /\ neq0 v' = true /\
        a = (x0 + Z.of_nat c) * BLOCK_SIZE) as Hskip.
    { intros Hv. rewrite Hrest. split.
      - intros (-> & -> & -> & c & v' & H). repeat split; try done. by exists (S c), v'.
      - intros (-> & -> & -> & [|c] & v' & Hc & Hv1 & Hv2 & Ha); simpl in Hc.
        + injection Hc as <-. by destruct Hv.
        + repeat split; try done. by exists c, v'. }
    assert (v <> Hole -> neq0 v = true ->
      FillRect a b w h ∈ drawBlock v x0 y ++ drawBoardRow rest y (x0 + 1) <->
      w = BLOCK_SIZE /\ h = BLOCK_SIZE /\ b = y * BLOCK_SIZE /\
      exists (c : nat) v', (v :: rest) !! c = Some v' /\ v' <> Hole /\ neq0 v' = true /\
        a = (x0 + Z.of_nat c) * BLOCK_SIZE) as Hdraw.
    { intros Hv1 Hv2. rewrite elem_of_app, elem_of_drawBlock, Hrest. split.
      - intros [(-> & -> & -> & ->)|(-> & -> & -> & c & v' & H)].
        + repeat split; try done. exists 0%nat, v. repeat split; try done. f_equal. lia.
        + repeat split; try done. by exists (S c), v'.
      - intros (-> & -> & -> & [|c] & v' & Hc & Hv1' & Hv2' & Ha); simpl in Hc.
        + left. repeat split; try done. rewrite Ha. f_equal. lia.
        + right. repeat split; try done. by exists c, v'. }
    destruct v as [n| | |].
    + destruct (neq0 (Num n)) eqn:Hn; [by apply Hdraw|].
      simpl. apply Hskip. intros [_ ?]. congruence.
    + by apply Hdraw.
    + by apply Hdraw.
    + apply Hskip. by intros [? _].
Qed.

Lemma elem_of_drawBoardRows (rows : Board) (y0 : Z) (a b w h : Z) :
  FillRect a b w h ∈ drawBoardRows rows y0 <->
  w = BLOCK_SIZE /\ h = BLOCK_SIZE /\
  exists r c, written rows r c /\
    a = Z.of_nat c * BLOCK_SIZE /\ b = (y0 + Z.of_nat r) * BLOCK_SIZE.
Proof.
  revert y0. induction rows as [|cells rest IH]; intros y0; simpl.
  - rewrite elem_of_nil. split; [done|].
    intros (_ & _ & r & c & (cs & v & Hr & _) & _). by destruct r.
  - rewrite elem_of_app, elem_of_drawBoardRow, IH. split.
    + intros [(-> & -> & -> & c & v & Hc & Hv1 & Hv2 & ->)|(-> & -> & r & c & (cs & v & Hr & Hc & Hv) & -> & ->)].
      * repeat split; try done. exists 0%nat, c. split; [by exists cells, v|].
        split; f_equal; lia.
      * repeat split; try done. exists (S r), c. split; [by exists cs, v|].
        split; f_equal; lia.
    + intros (-> & -> & [|r] & c & (cs & v & Hr & Hc & Hv1 & Hv2) & -> & ->); simpl in Hr.
      * injection Hr as <-. left. repeat split; try done; [f_equal; lia|].
        exists c, v. repeat split; try done.
      * right. repeat split; try done. exists r, c. split; [by exists cs, v|].
        split; f_equal; lia.
Qed.

Lemma elem_of_drawShapeRow (cells : list value) (col : string) (p : Pos) (y x0 : Z)
    (a b w h : Z) :
  FillRect a b w h ∈ drawShapeRow cells col p y x0 <->
  w = BLOCK_SIZE /\ h = BLOCK_SIZE /\ b = (py p + y) * BLOCK_SIZE /\
  exists (c : nat) v, cells !! c = Some v /\ v <> Hole /\ neq0 v = true /\
    a = (px p + (x0 + Z.of_nat c)) * BLOCK_SIZE.
Proof.
  revert x0. induction cells as [|v rest IH]; intros x0; simpl.
  - rewrite elem_of_nil. split; [done|]. intros (_ & _ & _ & c & w' & Hc & _). by destruct c.
  - assert (FillRect a b w h ∈ drawShapeRow rest col p y (x0 + 1) <->
            w = BLOCK_SIZE /\ h = BLOCK_SIZE /\ b = (py p + y) * BLOCK_SIZE /\
            exists (c : nat) v', (v :: rest) !! S c = Some v' /\ v' <> Hole /\
              neq0 v' = true /\ a = (px p + (x0 + Z.of_nat (S c))) * BLOCK_SIZE) as Hrest.
    { rewrite IH. split; intros (-> & -> & -> & c & v' & Hc & Hv1 & Hv2 & ->);
        (repeat split; try done); exists c, v'; (repeat split; try done); f_equal; lia. }
    assert (~ (v <> Hole /\ neq0 v = true) ->
      FillRect a b w h ∈ drawShapeRow rest col p y (x0 + 1) <->
      w = BLOCK_SIZE /\ h = BLOCK_SIZE /\ b = (py p + y) * BLOCK_SIZE /\
      exists (c : nat) v', (v :: rest) !! c = Some v' /\ v' <> Hole /\ neq0 v' = true /\
        a = (px p + (x0 + Z.of_nat c)) * BLOCK_SIZE) as Hskip.
    { intros Hv. rewrite Hrest. split.
      - intros (-> & -> & -> & c & v' & H). repeat split; try done. by exists (S c), v'.
      - intros (-> & -> & -> & [|c] & v' & Hc & Hv1 & Hv2 & Ha); simpl in Hc.
        + injection Hc as <-. by destruct Hv.
        + repeat split; try done. by exists c, v'. }
    assert (v <> Hole -> neq0 v = true ->
      FillRect a b w h ∈ drawBlock (Str col) (px p + x0) (py p + y)
                          ++ drawShapeRow rest col p y (x0 + 1) <->
      w = BLOCK_SIZE /\ h = BLOCK_SIZE /\ b = (py p + y) * BLOCK_SIZE /\
      exists (c : nat) v', (v :: rest) !! c = Some v' /\ v' <> Hole /\ neq0 v' = true /\
        a = (px p + (x0 + Z.of_nat c)) * BLOCK_SIZE) as Hdraw.
    { intros Hv1 Hv2. rewrite elem_of_app, elem_of_drawBlock, Hrest. split.
      - intros [(-> & -> & -> & ->)|(-> & -> & -> & c & v' & H)].
        + repeat split; try done. exists 0%nat, v. repeat split; try done. f_equal. lia.
        + repeat split; try done. by exists (S c), v'.
      - intros (-> & -> & -> & [|c] & v' & Hc & Hv1' & Hv2' & Ha); simpl in Hc.
        + left. repeat split; try done. rewrite Ha. f_equal. lia.
        + right. repeat split; try done. by exists c, v'. }
    destruct v as [n| | |].
    + destruct (neq0 (Num n)) eqn:Hn; [by apply Hdraw|].
      simpl. apply Hskip. intros [_ ?]. congruence.
    + by apply Hdraw.
    + by apply Hdraw.
    + apply Hskip. by intros [? _].
Qed.

Lemma elem_of_drawShapeRows (rows : Matrix) (col : string) (p : Pos) (y0 : Z) (a b w h : Z) :
  FillRect a b w h ∈ drawShapeRows rows col p y0 <->
  w = BLOCK_SIZE /\ h = BLOCK_SIZE /\
  exists r c, written rows r c /\
    a = (px p + Z.of_nat c) * BLOCK_SIZE /\ b = (py p + (y0 + Z.of_nat r)) * BLOCK_SIZE.
Proof.
  revert y0. induction rows as [|cells rest IH]; intros y0; simpl.
  - rewrite elem_of_nil. split; [done|].
    intros (_ & _ & r & c & (cs & v & Hr & _) & _). by destruct r.
  - rewrite elem_of_app, elem_of_drawShapeRow, IH. split.
    + intros [(-> & -> & -> & c & v & Hc & Hv1 & Hv2 & ->)|(-> & -> & r & c & (cs & v & Hr & Hc & Hv) & -> & ->)].
      * repeat split; try done. exists 0%nat, c. split; [by exists cells, v|].
        split; f_equal; lia.
      * repeat split; try done. exists (S r), c. split; [by exists cs, v|].
        split; f_equal; lia.
    + intros (-> & -> & [|r] & c & (cs & v & Hr & Hc & Hv1 & Hv2) & -> & ->); simpl in Hr.
      * injection Hr as <-. left. repeat split; try done; [f_equal; lia|].
        exists c, v. repeat split; try done; f_equal; lia.
      * right. repeat split; try done. exists r, c. split; [by exists cs, v|].
        split; f_equal; lia.
Qed.

Lemma elem_of_draw (s : State) (a b w h : Z) :
  FillRect a b w h ∈ draw s <->
  w = BLOCK_SIZE /\ h = BLOCK_SIZE /\
  ((exists r c, written (board s) r c /\
      a = Z.of_nat c * BLOCK_SIZE /\ b = Z.of_nat r * BLOCK_SIZE) \/
   (exists t r c, currentTetromino s = Some t /\ written (shape t) r c /\
      a = landX (currentPos s) c * BLOCK_SIZE /\ b = landY (currentPos s) r * BLOCK_SIZE)).
Proof.
  unfold draw. rewrite elem_of_cons, elem_of_app, elem_of_drawBoardRows. split.
  - intros [?|[(-> & -> & r & c & Hw & -> & ->)|Hpiece]]; [done| |].
    + repeat split; try done. left. by exists r, c.
    + destruct (currentTetromino s) as [t|]; [|by apply elem_of_nil in Hpiece].
      apply elem_of_drawShapeRows in Hpiece as (-> & -> & r & c & Hw & -> & ->).
      repeat split; try done. right. exists t, r, c. repeat split; try done;
        unfold landY; f_equal; lia.
  - intros (-> & -> & [(r & c & Hw & -> & ->)|(t & r & c & Ht & Hw & -> & ->)]).
    + right. left. repeat split; try done. by exists r, c.
    + right. right. rewrite Ht. apply elem_of_drawShapeRows. repeat split; try done.
      exists r, c. repeat split; try done; unfold landY; f_equal; lia.
Qed.

(** X21. What [draw] fills.  A rectangle is filled exactly for each cell
    of the board that is not [0], at its column and row times the block
    size, and for each occupied cell of the active piece, at the
    coordinates where it lands; every rectangle is a block-size square. *)
Theorem draw_fills (s : State) (a b w h : Z) :
  FillRect a b w h ∈ draw s <->
  w = BLOCK_SIZE /\ h = BLOCK_SIZE /\
  ((exists r c, written (board s) r c /\
      a = Z.of_nat c * BLOCK_SIZE /\ b = Z.of_nat r * BLOCK_SIZE) \/
   (exists t r c, currentTetromino s = Some t /\ written (shape t) r c /\
      a = landX (currentPos s) c * BLOCK_SIZE /\ b = landY (currentPos s) r * BLOCK_SIZE)).
Proof. apply elem_of_draw. Qed.

Lemma written_occupied (sh : Matrix) (r c : nat) : written sh r c -> occupied sh r c.
Proof. intros (cells & v & Hr & Hc & _ & Hv). by exists cells, v. Qed.

(** X22. In a reachable state every rectangle that [draw] fills lies
    inside the canvas. *)
Theorem draw_inside_canvas (s : State) (a b w h : Z) :
  reachable s -> FillRect a b w h ∈ draw s ->
  0 <= a /\ a + w <= BOARD_WIDTH * BLOCK_SIZE /\
  0 <= b /\ b + h <= BOARD_HEIGHT * BLOCK_SIZE.
Proof.
  intros Hs Hin. apply reachable_inv in Hs as ([Hlen Hrows] & _ & _ & Hpiece).
  apply elem_of_draw in Hin
    as (-> & -> & [(r & c & (cells & v & Hr & Hc & _) & -> & ->)|(t & r & c & Ht & Hw & -> & ->)]).
  - apply lookup_lt_Some in Hr as Hrlt.
    eapply Forall_lookup_1 in Hrows; [|done]. simpl in Hrows.
    apply lookup_lt_Some in Hc. unfold BOARD_WIDTH, BOARD_HEIGHT, BLOCK_SIZE in *. lia.
  - destruct (Hpiece t Ht) as [_ Hbounds].
    destruct (Hbounds r c (written_occupied _ _ _ Hw)) as [Hx Hy].
    unfold BOARD_WIDTH, BOARD_HEIGHT, BLOCK_SIZE in *. lia.
Qed.

Lemma draw_inside_canvas_witness :
  0 <= 120 /\ 120 + 30 <= BOARD_WIDTH * BLOCK_SIZE /\
  0 <= 540 /\ 540 + 30 <= BOARD_HEIGHT * BLOCK_SIZE.
Proof.
  apply (draw_inside_canvas restingO 120 540 30 30).
  - exists 20%nat, [Start KO; KeyDown Space KO; Frame 16 KO]. reflexivity.
  - apply (list_elem_of_lookup_2 _ 2%nat). vm_compute. reflexivity.
Defined.

(** ** Overlap *)

Lemma collision_outOfBounds_any (sh : Matrix) (p : Pos) (b : Board) :
  checkCollision sh createBoard p = true -> checkCollision sh b p = true.
Proof.
  intros H. apply checkCollision_iff in H as (r & c & Hocc & Hb).
  apply checkCollision_iff. exists r, c. split; [done|]. left.
  destruct Hb as [Hout|[Hy (row & Hrow & Hne)]]; [done|].
  apply createBoard_lookup in Hrow as ->. unfold outOfBounds.
  destruct (Z.lt_ge_cases (landX p c) 0) as [|Hx0]; [by left|].
  destruct (Z.lt_ge_cases (landX p c) BOARD_WIDTH) as [Hx1|]; [|right; left; lia].
  exfalso. unfold js_get in Hne. destruct (Z.ltb_spec (landX p c) 0); [lia|].
  unfold emptyRow in Hne. rewrite lookup_replicate_2 in Hne; [done|]. lia.
Qed.

(** X23. The active piece comes to collide with the board at its own
    offset through a lock only: when it does not collide before an event
    and the stored piece collides after it, the event was a down key or a
    frame that locked the piece.  Moves, rotations, hard drops and starts
    never put a piece on occupied cells. *)
Theorem overlap_only_by_lock (fuel : nat) (ev : Event) (s s' : State) (t' : Tetromino) :
  step fuel ev s = Done s' ->
  (forall t, currentTetromino s = Some t ->
     checkCollision (shape t) (board s) (currentPos s) = false) ->
  currentTetromino s' = Some t' ->
  checkCollision (shape t') (board s') (currentPos s') = true ->
  locksPiece ev /\ exists t b n,
    currentTetromino s = Some t /\
    lockLines t (currentPos s) (board s) = Some (b, n) /\ board s' = b.
Proof.
  intros Hstep Hfree Ht' Hcol.
  assert (forall type st t b n,
    currentTetromino s = Some t -> currentTetromino st = currentTetromino s ->
    lockLines t (currentPos s) (board st) = Some (b, n) -> board st = board s ->
    s' = newTetromino type s (locked b n st) ->
    exists t0 b0 n0, currentTetromino s = Some t0 /\
      lockLines t0 (currentPos s) (board s) = Some (b0, n0) /\ board s' = b0) as Hlocked.
  { intros type st t b n Ht Hst Hlock Hb Heq. exists t, b, n. rewrite Hb in Hlock.
    split; [done|]. split; [done|]. rewrite Heq. unfold newTetromino, locked.
    destruct (checkCollision (shape (TETROMINOES type)) (board s) _);
      destruct (n >? 0); reflexivity. }
  destruct ev as [type|e type|time type]; simpl in Hstep.
  - exfalso. destruct (gameStarted s && negb (gameOver s)).
    + injection Hstep as <-. rewrite (Hfree t' Ht') in Hcol. done.
    + injection Hstep as <-. destruct (startGame_spec type s) as (Hb & _ & Hfl).
      rewrite Hb in Hcol.
      destruct Hfl as [(_ & _ & _ & Ht & Hp)|(_ & _ & _ & Ht & Hp)].
      * rewrite Hp in Hcol. rewrite Ht in Ht'.
        apply (collision_outOfBounds_any _ _ (board s)) in Hcol.
        rewrite (Hfree t' Ht') in Hcol. done.
      * rewrite Hp in Hcol. rewrite Ht in Ht'. injection Ht' as <-.
        by apply (spawn_on_empty_board type).
  - apply handleKeyDown_cases in Hstep
      as [->|[(t & sh & p & Ht & _ & Hf & _ & ->)|[(t & d & _ & Ht & Hd & ->)|(t & -> & Ht & Hc & Hlock)]]].
    + rewrite (Hfree t' Ht') in Hcol. done.
    + simpl in Ht'. injection Ht' as <-.
      change (checkCollision sh (board s) p = true) in Hcol. congruence.
    + simpl in Ht'. assert (t' = t) as -> by congruence.
      change (checkCollision (shape t) (board s) (mkPos (px (currentPos s)) d) = true) in Hcol.
      assert (checkCollision (shape t) (board s)
                (mkPos (px (currentPos s)) (py (currentPos s))) = false) as Hstart.
      { specialize (Hfree t Ht). by destruct (currentPos s). }
      destruct (hardDrop_rests _ _ _ _ _ _ Hstart Hd) as [Hrest _]. congruence.
    + split; [left; by exists type|].
      apply lockAndSpawn_effect in Hlock as (b & n & Hlock & _ & Heq & _).
      by apply (Hlocked type s t b n).
  - apply gameLoop_cases in Hstep as [->|(s2 & Hsame & Hcases)];
      [rewrite (Hfree t' Ht') in Hcol; done|].
    destruct Hsame as (Hb2 & Ht2 & Hp2 & _).
    destruct Hcases as [->|[(t & Ht & Hf & ->)|(t & Ht & Hc & Hlock)]].
    + rewrite Hb2, Hp2 in Hcol. rewrite Ht2 in Ht'. rewrite (Hfree t' Ht') in Hcol. done.
    + simpl in Ht'. rewrite Ht2 in Ht'. assert (t' = t) as -> by congruence.
      change (checkCollision (shape t) (board s2)
                (mkPos (px (currentPos s)) (py (currentPos s) + 1)) = true) in Hcol.
      rewrite Hb2 in Hcol. congruence.
    + split; [right; by exists time, type|].
      apply lockAndSpawn_effect in Hlock as (b & n & Hlock & _ & Heq & _).
      by apply (Hlocked type s2 t b n).
Qed.

Lemma overlap_only_by_lock_witness :
  locksPiece (KeyDown ArrowDown KO) /\ exists t b n,
    currentTetromino nearTop = Some t /\
    lockLines t (currentPos nearTop) (board nearTop) = Some (b, n) /\
    board towerState = b.
Proof.
  apply (overlap_only_by_lock 20 (KeyDown ArrowDown KO) nearTop towerState (TETROMINOES KO)).
  - vm_compute. reflexivity.
  - intros t [= <-]. reflexivity.
  - reflexivity.
  - reflexivity.
Defined.

(** ** The lock of a blocked piece *)

Lemma occupied_written (n : nat) (sh : Matrix) (r c : nat) :
  squareGrid n sh -> occupied sh r c -> written sh r c.
Proof.
  intros [_ Hrows] (cells & v & Hr & Hc & Hv). exists cells, v.
  repeat split; try done.
  rewrite Forall_forall in Hrows.
  destruct (Hrows cells (list_elem_of_lookup_2 _ _ _ Hr)) as [_ Hno].
  rewrite Forall_forall in Hno. apply Hno. by eapply list_elem_of_lookup_2.
Qed.

(** A board of catalog cells has no absent slot to read. *)
Lemma boardCell_read (b : Board) (y x : Z) :
  Forall (Forall catalogCell) b -> read <$> boardCell b y x = boardCell b y x.
Proof.
  intros Hcells. unfold boardCell. destruct ((y <? 0) || (x <? 0)); [done|].
  destruct (b !! Z.to_nat y) as [r|] eqn:Hr; [|done]. simpl.
  destruct (r !! Z.to_nat x) as [v|] eqn:Hv; [|done]. simpl.
  rewrite Forall_forall in Hcells.
  pose proof (Hcells r (list_elem_of_lookup_2 _ _ _ Hr)) as Hrow.
  rewrite Forall_forall in Hrow.
  by rewrite (catalogCell_read v (Hrow v (list_elem_of_lookup_2 _ _ _ Hv))).
Qed.

Lemma writePiece_boardCell (t : Tetromino) (p : Pos) (prev w : Board) :
  wfBoard prev -> inBounds (shape t) p -> writePiece t p prev = Some w ->
  forall y x,
    ((exists r c, written (shape t) r c /\ landY p r = y /\ landX p c = x) ->
     boardCell w y x = Some (Str (color t))) /\
    ((forall r c, written (shape t) r c -> ~ (landY p r = y /\ landX p c = x)) ->
     boardCell w y x = read <$> boardCell prev y x).
Proof.
  intros Hwf Hin Hw y x.
  assert (forall (r c : nat) cells v, shape t !! r = Some cells -> cells !! c = Some v ->
     neq0 v = true ->
     0 <= px p + Z.of_nat c < BOARD_WIDTH /\ 0 <= py p + (0 + Z.of_nat r) < BOARD_HEIGHT)
    as Hb.
  { intros r c cells v Hr Hc Hv. replace (0 + Z.of_nat r) with (Z.of_nat r) by lia.
    apply (Hin r c). by exists cells, v. }
  destruct (writeRows_boardCell (shape t) (color t) p 0 (map spread prev) w
              (wfBoard_spread prev Hwf) Hb Hw y x) as [H1 H2].
  split.
  - intros (r & c & (cells & v & Hr & Hc & Hv1 & Hv2) & Hy & Hx). apply H1.
    exists r, c, cells, v. unfold landY, landX in *. repeat split; try done; lia.
  - intros Hno. rewrite H2, boardCell_spread; [done|].
    intros r c cells v Hr Hc Hv1 Hv2 [Hy Hx]. apply (Hno r c).
    + by exists cells, v.
    + unfold landY, landX. split; lia.
Qed.

(** C8. In a running session with an active piece, a down key whose
    translated position collides runs the sequence that a drop timeout
    runs.  The piece is locked at its offset: in the written board [w],
    of the fixed dimensions, the cells under its occupied cells hold its
    color and every other cell holds what it held.  Line clears and score
    are resolved: the new board is [w] with its full rows replaced by
    empty rows on top, and the score takes 100 for each of them.  And the
    spawn is made: the piece drawn is installed at the spawn offset,
    unless its collision test (read on the board from before the lock) is
    positive, which ends the game.  A frame at which the drop interval has
    run out leaves the same board, piece, offset, score and flags. *)
Theorem failed_softDrop_locks (fuel : nat) (time : Z) (type : TetrominoKey)
    (s : State) (t : Tetromino) :
  reachable s -> gameStarted s = true -> gameOver s = false ->
  currentTetromino s = Some t ->
  checkCollision (shape t) (board s)
    (mkPos (px (currentPos s)) (py (currentPos s) + 1)) = true ->
  exists (w : Board) (s1 : State),
    wfBoard w /\
    (forall r c, occupied (shape t) r c ->
       boardCell w (landY (currentPos s) r) (landX (currentPos s) c)
       = Some (Str (color t))) /\
    (forall y x,
       (forall r c, occupied (shape t) r c ->
          ~ (landY (currentPos s) r = y /\ landX (currentPos s) c = x)) ->
       boardCell w y x = boardCell (board s) y x) /\
    handleKeyDown fuel ArrowDown type s = Done s1 /\
    board s1 = replicate (countFull w) emptyRow ++ survivors w /\
    score s1 = score s + 100 * Z.of_nat (countFull w) /\
    (~ spawnBlocked type (board s) ->
       currentTetromino s1 = Some (TETROMINOES type) /\ currentPos s1 = spawnPos type /\
       gameStarted s1 = true /\ gameOver s1 = false) /\
    (spawnBlocked type (board s) ->
       gameOver s1 = true /\ gameStarted s1 = false /\
       currentTetromino s1 = Some t /\ currentPos s1 = currentPos s) /\
    dropTime s1 = dropTime s /\ lastTime s1 = lastTime s /\
    (dropDue time s ->
       exists s2, gameLoop time type s = Done s2 /\ sameGame s2 s1).
Proof.
  intros Hreach Hst Hov Ht Hcol.
  pose proof (reachable_catalog s Hreach) as [_ Hcells].
  apply reachable_inv in Hreach as Hinv.
  destruct Hinv as (Hwf & _ & _ & Hpiece). destruct (Hpiece t Ht) as [[[n Hsq] _] Hin].
  destruct (lockAndSpawn_written type s s t Hwf Hin)
    as (w & s1 & Hw & Hwfw & Hls & Hs1 & Hb & Hsc).
  assert (handleKeyDown fuel ArrowDown type s = Done s1) as Hkey.
  { unfold handleKeyDown. rewrite running_guard, Ht by done. rewrite Hcol. simpl. done. }
  pose proof (writePiece_boardCell t (currentPos s) (board s) w Hwf Hin Hw) as Hcellsw.
  exists w, s1. split; [done|]. split.
  { intros r c Hocc. apply (Hcellsw _ _). exists r, c. split; [by eapply occupied_written|done]. }
  split.
  { intros y x Hno. destruct (Hcellsw y x) as [_ H2]. rewrite H2.
    - by apply boardCell_read.
    - intros r c Hwr. apply Hno. by apply written_occupied. }
  split; [done|]. split; [done|]. split; [done|].
  assert (forall b k, currentTetromino (locked b k s) = Some t /\
            currentPos (locked b k s) = currentPos s /\
            gameStarted (locked b k s) = true /\ gameOver (locked b k s) = false /\
            dropTime (locked b k s) = dropTime s /\ lastTime (locked b k s) = lastTime s)
    as Hlocked.
  { intros b k. unfold locked. by destruct (k >? 0). }
  destruct (Hlocked (replicate (countFull w) emptyRow ++ survivors w) (Z.of_nat (countFull w)))
    as (Hl1 & Hl2 & Hl3 & Hl4 & Hl5 & Hl6).
  split.
  { intros Hfree. rewrite Hs1. unfold newTetromino. unfold spawnBlocked, spawnPos in Hfree.
    destruct (checkCollision (shape (TETROMINOES type)) (board s)
                (mkPos (startX (TETROMINOES type)) startY)); [done|].
    simpl. done. }
  split.
  { intros Hblocked. rewrite Hs1. unfold newTetromino. unfold spawnBlocked, spawnPos in Hblocked.
    rewrite Hblocked. simpl. done. }
  split.
  { rewrite Hs1. unfold newTetromino.
    by destruct (checkCollision (shape (TETROMINOES type)) (board s)
                   (mkPos (startX (TETROMINOES type)) startY)). }
  split.
  { rewrite Hs1. unfold newTetromino.
    by destruct (checkCollision (shape (TETROMINOES type)) (board s)
                   (mkPos (startX (TETROMINOES type)) startY)). }
  intros Hdue.
  assert (inv s) as Hinv by (split; [done|]; by apply reachable_inv in Hreach as (_ & ? & ? & ?)).
  destruct (blocked_down_locks fuel time type s t Hinv Hst Hov Ht Hcol)
    as (b & k & _ & Hkey' & Hloop).
  destruct (Hloop Hdue) as (s2 & Hg & Hsame). exists s2. split; [done|].
  rewrite Hkey in Hkey'. injection Hkey' as ->. done.
Qed.

Lemma failed_softDrop_locks_witness :
  dropDue 2000 restingO /\
  exists (w : Board) (s1 : State),
    wfBoard w /\
    (forall r c, occupied (shape (TETROMINOES KO)) r c ->
       boardCell w (landY (currentPos restingO) r) (landX (currentPos restingO) c)
       = Some (Str (color (TETROMINOES KO)))) /\
    (forall y x,
       (forall r c, occupied (shape (TETROMINOES KO)) r c ->
          ~ (landY (currentPos restingO) r = y /\ landX (currentPos restingO) c = x)) ->
       boardCell w y x = boardCell (board restingO) y x) /\
    handleKeyDown 20 ArrowDown KT restingO = Done s1 /\
    board s1 = replicate (countFull w) emptyRow ++ survivors w /\
    score s1 = score restingO + 100 * Z.of_nat (countFull w) /\
    (~ spawnBlocked KT (board restingO) ->
       currentTetromino s1 = Some (TETROMINOES KT) /\ currentPos s1 = spawnPos KT /\
       gameStarted s1 = true /\ gameOver s1 = false) /\
    (spawnBlocked KT (board restingO) ->
       gameOver s1 = true /\ gameStarted s1 = false /\
       currentTetromino s1 = Some (TETROMINOES KO) /\ currentPos s1 = currentPos restingO) /\
    dropTime s1 = dropTime restingO /\ lastTime s1 = lastTime restingO /\
    (dropDue 2000 restingO ->
       exists s2, gameLoop 2000 KT restingO = Done s2 /\ sameGame s2 s1).
Proof.
  split; [unfold dropDue, dropInterval; simpl; lia|].
  apply (failed_softDrop_locks 20 2000 KT restingO (TETROMINOES KO)).
  - exists 20%nat, [Start KO; KeyDown Space KO; Frame 16 KO]. reflexivity.
  - reflexivity.
  - reflexivity.
  - reflexivity.
  - reflexivity.
Defined.
